(** * Minimum spanning trees: Kruskal and Prim (mst.js)

    A shallow embedding of the algorithmic core of [mst.js] -- the
    union-find structure, the binary min-heap, [kruskalMST], [buildAdj]
    and [primMST] -- together with the graph theory needed to state and
    prove what the two algorithms compute.

    Conventions of the embedding.
    - Vertices are [nat]; a weight is a JavaScript number whose value is
      an integer, modelled as that integer in [Z]; sums of weights are
      floating-point sums, see "Numbers" below.
    - A JavaScript array is a [list]; [a[i]] is the lookup [a !! i] and
      [a[i] = x] is [<[i:=x]> a], with what the source does out of range
      written out where it can happen.
    - A [throw] is a value [Err _] of the error monad below.
    - To say what a call does to the arrays of its caller, the program is
      written a second time on a store of arrays and proved to compute
      the same ("The program on a store of arrays").
    - Recursion and [while] loops whose termination depends on the data
      take a fuel argument; the entry points fix the fuel, and the
      theorems show that it is never exhausted. *)

From stdpp Require Import base numbers list sorting gmap.

Open Scope Z_scope.
Open Scope nat_scope.

(** ** Errors *)

(** [NotConnected] is the [Error("Graph is not connected. ...")] thrown by
    both algorithms.  [TypeError] is what JavaScript raises when a
    property of [undefined] is read ([adj[v]] for a vertex without a row).
    [RangeError] is what it raises when an array of an invalid length is
    created.
    [OutOfRange] marks a union-find access outside [0, n): there the
    source reads [undefined] and goes on with it, which the input layer
    excludes and the model does not follow.  [OutOfFuel] stands for a
    computation that does not return. *)
Inductive error : Type :=
  | NotConnected
  | TypeError
  | RangeError
  | OutOfRange
  | OutOfFuel.

Inductive result (A : Type) : Type :=
  | Ok (a : A)
  | Err (e : error).
Arguments Ok {A} a.
Arguments Err {A} e.

#[global] Instance result_ret : MRet result := λ A a, Ok a.
#[global] Instance result_bind : MBind result := λ A B f m,
  match m with
  | Ok a => f a
  | Err e => Err e
  end.

(** ** Numbers *)

(** A JavaScript number is a binary64 value.  The weights are numbers
    with an integer value; comparing two of them ([<], [<=], the sign of
    [a.w - b.w] in the comparator of [sort]) is comparing the integers.
    [total] starts at [0] and only changes by [total += w], so it is an
    integer too, or an infinity once a sum has overflowed. *)
Inductive number : Type :=
  | Num (z : Z)
  | Infinity
  | NegInfinity.

Coercion Num : Z >-> number.
Bind Scope Z_scope with number.

#[global] Instance number_eq_dec : EqDecision number.
Proof. solve_decision. Defined.

(** The multiple of [2 ^ e] nearest to [a >= 0]; of two nearest ones the
    even multiple. *)
Definition round_even (a e : Z) : Z :=
  let q := (a / 2 ^ e)%Z in
  let r := (a mod 2 ^ e)%Z in
  if decide (2 * r < 2 ^ e)%Z then (q * 2 ^ e)%Z
  else if decide (2 ^ e < 2 * r)%Z then ((q + 1) * 2 ^ e)%Z
  else if Z.even q then (q * 2 ^ e)%Z else ((q + 1) * 2 ^ e)%Z.

(** The binary64 value of the exact integer [s]: round to nearest, ties to
    even.  A significand has 53 bits, so an integer of [k > 53] bits is
    rounded to a multiple of [2 ^ (k - 53)], and integers of magnitude up
    to [2 ^ 53] are kept as they are.  What rounds to [2 ^ 1024] or more
    is an infinity. *)
Definition to_double (s : Z) : number :=
  let a := Z.abs s in
  let e := Z.max 0 (Z.log2 a - 52) in
  let m := round_even a e in
  if decide (m < 2 ^ 1024)%Z then Num (Z.sgn s * m)
  else if decide (0 < s)%Z then Infinity else NegInfinity.

(** [t + y] for a total [t] and a weight [y]. *)
Definition js_add (t : number) (y : Z) : number :=
  match t with
  | Num x => to_double (x + y)
  | Infinity => Infinity
  | NegInfinity => NegInfinity
  end.

(** ** Edges and results *)

(** The objects [{ u, v, w }] of the edge list, of the result and of the
    heap. *)
Record edge : Type := Edge { u : nat; v : nat; w : Z }.

#[global] Instance edge_eq_dec : EqDecision edge.
Proof. solve_decision. Defined.

#[global] Instance edge_inhabited : Inhabited edge := populate (Edge 0 0 0).

(** The object [{ mst, total }] both algorithms return. *)
Record MSTResult : Type := MkResult { mst : list edge; total : number }.

(** ** Union-find *)

Record DisjointSet : Type := MkDS { parent : list nat; rank : list nat }.

(** [new DisjointSet(n)], for a length [n] the runtime accepts (see
    "Creating the arrays" below). *)
Definition new_DisjointSet (n : nat) : DisjointSet :=
  {| parent := seq 0 n; rank := replicate n 0 |}.

Definition set_parent (ds : DisjointSet) (i p : nat) : DisjointSet :=
  {| parent := <[i:=p]> (parent ds); rank := rank ds |}.

Definition set_rank (ds : DisjointSet) (i k : nat) : DisjointSet :=
  {| parent := parent ds; rank := <[i:=k]> (rank ds) |}.

(** [find(x)]: one unit of fuel per call of the recursion. *)
Fixpoint find (fuel : nat) (ds : DisjointSet) (x : nat)
  : result (DisjointSet * nat) :=
  match fuel with
  | 0 => Err OutOfFuel
  | S fuel' =>
      match parent ds !! x with
      | None => Err OutOfRange
      | Some p =>
          if decide (p = x) then Ok (ds, p)
          else
            '(ds', r) ← find fuel' ds p;
            Ok (set_parent ds' x r, r)
      end
  end.

(** A chain of parent pointers that ends in a root visits every vertex at
    most once, so its length is at most the number of vertices: with this
    much fuel [find] does not run out on a forest ([find_rooted]). *)
Definition find_fuel (ds : DisjointSet) : nat := length (parent ds).

(** [union(a, b)] *)
Definition union (ds : DisjointSet) (a b : nat)
  : result (DisjointSet * bool) :=
  '(ds1, ra) ← find (find_fuel ds) ds a;
  '(ds2, rb) ← find (find_fuel ds1) ds1 b;
  if decide (ra = rb) then Ok (ds2, false)
  else
    match rank ds2 !! ra, rank ds2 !! rb with
    | Some ka, Some kb =>
        if decide (ka < kb) then Ok (set_parent ds2 ra rb, true)
        else if decide (kb < ka) then Ok (set_parent ds2 rb ra, true)
        else Ok (set_rank (set_parent ds2 rb ra) ra (ka + 1), true)
    | _, _ => Err OutOfRange
    end.

(** ** Kruskal *)

(** [kruskalMST], [buildAdj] and [primMST] are written here for a vertex
    count [n] that the runtime accepts as the length of an array; what a
    call does for any [n] is in "Creating the arrays" below. *)

(** [[...edges].sort((a, b) => a.w - b.w)]: [Array.prototype.sort] is a
    stable sort, and the result of a stable sort is unique; insertion
    from the right, in front of the first element that is not lighter,
    computes it. *)
Fixpoint insert_by_w (e : edge) (l : list edge) : list edge :=
  match l with
  | [] => [e]
  | x :: l' =>
      if decide (w e ≤ w x)%Z then e :: l else x :: insert_by_w e l'
  end.

Definition sort_by_w (l : list edge) : list edge := foldr insert_by_w [] l.

(** The [for ... of sorted] loop.  [mst.length === n - 1] is a comparison
    of numbers: for [n = 0] the right-hand side is [-1]. *)
Fixpoint kruskal_loop (n : nat) (ds : DisjointSet) (acc : list edge)
    (tot : number) (sorted : list edge) : result (list edge * number) :=
  match sorted with
  | [] => Ok (acc, tot)
  | e :: rest =>
      '(ds', merged) ← union ds (u e) (v e);
      if merged : bool then
        let acc' := acc ++ [Edge (u e) (v e) (w e)] in
        let tot' := js_add tot (w e) in
        if decide (Z.of_nat (length acc') = Z.of_nat n - 1)%Z
        then Ok (acc', tot')
        else kruskal_loop n ds' acc' tot' rest
      else kruskal_loop n ds' acc tot rest
  end.

(** The body of [kruskalMST] once [sorted] is there. *)
Definition kruskal_sorted (n : nat) (sorted : list edge) : result MSTResult :=
  '(acc, tot) ← kruskal_loop n (new_DisjointSet n) [] 0%Z sorted;
  if decide (Z.of_nat (length acc) = Z.of_nat n - 1)%Z
  then Ok (MkResult acc tot)
  else Err NotConnected.

Definition kruskalMST (n : nat) (edges : list edge) : result MSTResult :=
  kruskal_sorted n (sort_by_w edges).

(** ** Binary min-heap *)

Record MinHeap : Type := MkHeap { data : list edge }.

(** [new MinHeap()] *)
Definition new_MinHeap : MinHeap := MkHeap [].

(** [this.data[i].w].  Every index the heap reads is in range: [bubbleUp]
    is entered with the last index and moves to parents, [bubbleDown]
    compares a child only after [l < n], [r < n]. *)
Definition wt (d : list edge) (i : nat) : Z := w (d !!! i).

(** [[d[i], d[j]] = [d[j], d[i]]] *)
Definition swap (d : list edge) (i j : nat) : list edge :=
  <[j:=d !!! i]> (<[i:=d !!! j]> d).

(** [bubbleUp(i)]: the index strictly decreases, so [i] rounds are
    enough. *)
Fixpoint bubbleUp_loop (fuel : nat) (d : list edge) (i : nat) : list edge :=
  match fuel with
  | 0 => d
  | S fuel' =>
      if decide (0 < i) then
        let p := (i - 1) / 2 in
        if decide (wt d p ≤ wt d i)%Z then d
        else bubbleUp_loop fuel' (swap d p i) p
      else d
  end.

Definition bubbleUp (d : list edge) (i : nat) : list edge :=
  bubbleUp_loop i d i.

(** [bubbleDown(i)]: the index strictly increases and stays below the
    length, so [length d] rounds are enough. *)
Definition smallest_of (d : list edge) (i : nat) : nat :=
  let n := length d in
  let l := 2 * i + 1 in
  let r := 2 * i + 2 in
  let smallest := i in
  let smallest :=
    if decide (l < n ∧ (wt d l < wt d smallest)%Z) then l else smallest in
  let smallest :=
    if decide (r < n ∧ (wt d r < wt d smallest)%Z) then r else smallest in
  smallest.

Fixpoint bubbleDown_loop (fuel : nat) (d : list edge) (i : nat) : list edge :=
  match fuel with
  | 0 => d
  | S fuel' =>
      let smallest := smallest_of d i in
      if decide (smallest = i) then d
      else bubbleDown_loop fuel' (swap d i smallest) smallest
  end.

Definition bubbleDown (d : list edge) (i : nat) : list edge :=
  bubbleDown_loop (length d) d i.

(** [push(item)] *)
Definition push (h : MinHeap) (item : edge) : MinHeap :=
  let d := data h ++ [item] in
  MkHeap (bubbleUp d (length d - 1)).

(** [pop()]: [None] is the [null] returned on an empty heap. *)
Definition pop (h : MinHeap) : option edge * MinHeap :=
  match data h with
  | [] => (None, h)
  | top :: _ =>
      let end_ := data h !!! (length (data h) - 1) in
      let d := take (length (data h) - 1) (data h) in
      if decide (0 < length d)
      then (Some top, MkHeap (bubbleDown (<[0:=end_]> d) 0))
      else (Some top, MkHeap d)
  end.

(** [get size()] *)
Definition size_of (h : MinHeap) : nat := length (data h).

(** ** Adjacency lists *)

Module Adj.
Record entry : Type := Entry { to : nat; w : Z }.
End Adj.

#[global] Instance entry_eq_dec : EqDecision Adj.entry.
Proof. solve_decision. Defined.

(** [adj[i].push(x)]; [adj[i]] is [undefined] out of range and calling
    [push] on it is a [TypeError]. *)
Definition adj_push (adj : list (list Adj.entry)) (i : nat) (x : Adj.entry)
  : result (list (list Adj.entry)) :=
  match adj !! i with
  | None => Err TypeError
  | Some row => Ok (<[i:=row ++ [x]]> adj)
  end.

Fixpoint buildAdj_loop (adj : list (list Adj.entry)) (edges : list edge)
  : result (list (list Adj.entry)) :=
  match edges with
  | [] => Ok adj
  | e :: rest =>
      adj1 ← adj_push adj (u e) (Adj.Entry (v e) (w e));
      adj2 ← adj_push adj1 (v e) (Adj.Entry (u e) (w e));
      buildAdj_loop adj2 rest
  end.

Definition buildAdj (n : nat) (edges : list edge)
  : result (list (list Adj.entry)) :=
  buildAdj_loop (replicate n []) edges.

(** ** Prim *)

(** [visited] is an array of booleans that is only read for truthiness
    and only written with [true]; it is determined by the set of indices
    that hold [true] (also beyond [n], where the source would grow the
    array), and that set is what the model keeps. *)

(** [for (const e of adj[start]) heap.push({ w: e.w, u: start, v: e.to })] *)
Definition push_row (h : MinHeap) (from : nat) (row : list Adj.entry)
  : MinHeap :=
  foldl (λ h e, push h (Edge from (Adj.to e) (Adj.w e))) h row.

(** [for (const e of adj[v]) if (!visited[e.to]) heap.push(...)] *)
Definition push_unvisited (visited : gset nat) (h : MinHeap) (from : nat)
    (row : list Adj.entry) : MinHeap :=
  foldl (λ h e,
    if decide (Adj.to e ∈ visited) then h
    else push h (Edge from (Adj.to e) (Adj.w e))) h row.

(** The [while] loop, one unit of fuel per test of its condition. *)
Fixpoint prim_loop (fuel : nat) (n : nat) (adj : list (list Adj.entry))
    (visited : gset nat) (h : MinHeap) (acc : list edge) (tot : number)
  : result (list edge * number) :=
  match fuel with
  | 0 => Err OutOfFuel
  | S fuel' =>
      if decide (0 < size_of h ∧ (Z.of_nat (length acc) < Z.of_nat n - 1)%Z)
      then
        match pop h with
        | (None, _) => Err TypeError
        | (Some item, h') =>
            if decide (v item ∈ visited)
            then prim_loop fuel' n adj visited h' acc tot
            else
              let visited' := {[v item]} ∪ visited in
              let acc' := acc ++ [Edge (u item) (v item) (w item)] in
              let tot' := js_add tot (w item) in
              match adj !! v item with
              | None => Err TypeError
              | Some row =>
                  prim_loop fuel' n adj visited'
                    (push_unvisited visited' h' (v item) row) acc' tot'
              end
        end
      else Ok (acc, tot)
  end.

(** Every round pops one entry, and a row of [adj] is pushed at most once
    (when its vertex is first visited), so the loop tests its condition at
    most once more than there are entries in [adj]. *)
Definition prim_fuel (adj : list (list Adj.entry)) : nat :=
  S (length (concat adj)).

Definition primMST (n : nat) (adj : list (list Adj.entry)) (start : nat)
  : result MSTResult :=
  match adj !! start with
  | None => Err TypeError
  | Some row =>
      '(acc, tot) ← prim_loop (prim_fuel adj) n adj {[start]}
                      (push_row new_MinHeap start row) [] 0%Z;
      if decide (Z.of_nat (length acc) = Z.of_nat n - 1)%Z
      then Ok (MkResult acc tot)
      else Err NotConnected
  end.

(** [primMST(n, buildAdj(n, edges), start)], as [main] calls it. *)
Definition primMST_of_edges (n : nat) (edges : list edge) (start : nat)
  : result MSTResult :=
  adj ← buildAdj n edges; primMST n adj start.

(** ** Creating the arrays *)

(** The first statement of [kruskalMST] (through [new DisjointSet(n)]),
    of [buildAdj] and of [primMST] creates arrays of length [n], by
    [Array.from({ length: n }, ...)] or [Array(n)].  Both throw a
    [RangeError] unless the length is below [2 ^ 32], and nothing else of
    the function is executed then.  The definitions [kruskalMST],
    [buildAdj] and [primMST] above describe the calls whose arrays are
    created; these describe every call. *)
Definition array_length (n : nat) : Prop := (Z.of_nat n < 2 ^ 32)%Z.

#[global] Instance array_length_dec n : Decision (array_length n).
Proof. unfold array_length. apply _. Defined.

Definition kruskalMST_call (n : nat) (edges : list edge) : result MSTResult :=
  if decide (array_length n) then kruskalMST n edges else Err RangeError.

Definition buildAdj_call (n : nat) (edges : list edge)
  : result (list (list Adj.entry)) :=
  if decide (array_length n) then buildAdj n edges else Err RangeError.

Definition primMST_call (n : nat) (adj : list (list Adj.entry)) (start : nat)
  : result MSTResult :=
  if decide (array_length n) then primMST n adj start else Err RangeError.

(** [primMST(n, buildAdj(n, edges), start)] *)
Definition primMST_of_edges_call (n : nat) (edges : list edge) (start : nat)
  : result MSTResult :=
  adj ← buildAdj_call n edges; primMST_call n adj start.

(** ** Graphs, connectivity and spanning trees *)

(** An edge list is read as an undirected multigraph: [(u,v,w)] and
    [(v,u,w)] are the same edge. *)
Definition flip (e : edge) : edge := Edge (v e) (u e) (w e).

Definition in_graph (E : list edge) (e : edge) : Prop :=
  e ∈ E ∨ flip e ∈ E.

(** The input layer's checks: vertices in [0, n), no self-loop, weight not
    negative. *)
Definition valid_edge (n : nat) (e : edge) : Prop :=
  u e < n ∧ v e < n ∧ u e ≠ v e ∧ (0 ≤ w e)%Z.

Definition valid_edges (n : nat) (E : list edge) : Prop :=
  Forall (valid_edge n) E.

(** What the algorithms actually need of their input. *)
Definition in_range (n : nat) (E : list edge) : Prop :=
  ∀ e, e ∈ E → u e < n ∧ v e < n.

(** [conn E x y]: [y] is reachable from [x] using only edges of [E], in
    either direction. *)
Inductive conn (E : list edge) : nat → nat → Prop :=
  | conn_refl x : conn E x x
  | conn_edge e : e ∈ E → conn E (u e) (v e)
  | conn_sym x y : conn E x y → conn E y x
  | conn_trans x y z : conn E x y → conn E y z → conn E x z.

(** The edge list connects all [n] vertices. *)
Definition connected (n : nat) (E : list edge) : Prop :=
  ∀ x y, x < n → y < n → conn E x y.

(** No cycle: whichever edge is taken out, its end points are not joined
    by the remaining ones. *)
Definition acyclic (T : list edge) : Prop :=
  ∀ e R, T ≡ₚ e :: R → ¬ conn R (u e) (v e).

Definition spanning_tree (n : nat) (E T : list edge) : Prop :=
  (∀ e, e ∈ T → in_graph E e) ∧ acyclic T ∧ connected n T.

Definition weight (T : list edge) : Z := foldr (λ e s, (w e + s)%Z) 0%Z T.

(** What [total] holds after [total += w] for the edges of [T] in order. *)
Definition js_total (T : list edge) : number :=
  foldl (λ t e, js_add t (w e)) (Num 0) T.

(** No weight is negative. *)
Definition nonneg (T : list edge) : Prop := Forall (λ e, (0 ≤ w e)%Z) T.

(** The call returns edges of total weight [t]; and [t] is what [total]
    holds if it is at most [2 ^ 53]. *)
Definition returns_weight (res : result MSTResult) (t : Z) : Prop :=
  ∃ r, res = Ok r ∧ weight (mst r) = t ∧ ((t ≤ 2 ^ 53)%Z → total r = t).

(** A spanning tree of least total weight. *)
Definition minimum_spanning_tree (n : nat) (E T : list edge) : Prop :=
  spanning_tree n E T ∧ ∀ T', spanning_tree n E T' → (weight T ≤ weight T')%Z.

(** Component labels: a decision procedure for [conn]. *)
Definition relabel (e : edge) (l : nat → nat) : nat → nat :=
  λ x, if decide (l x = l (v e)) then l (u e) else l x.

Definition labels (E : list edge) : nat → nat := foldr relabel id E.

(** [F] can still be completed to a spanning tree that is no heavier than
    any given one. *)
Definition promising (n : nat) (E F : list edge) : Prop :=
  ∀ T, spanning_tree n E T →
    ∃ T', spanning_tree n E T' ∧ F ⊆ T' ∧ (weight T' ≤ weight T)%Z.

(** ** The union-find forest *)

(** [rooted p x r]: following parent pointers from [x] ends in the root
    [r]. *)
Inductive rooted (p : list nat) : nat → nat → Prop :=
  | rooted_self x : p !! x = Some x → rooted p x x
  | rooted_step x y r :
      p !! x = Some y → y ≠ x → rooted p y r → rooted p x r.

(** The same, recording the vertices visited on the way. *)
Inductive chain (p : list nat) : nat → nat → list nat → Prop :=
  | chain_root x : p !! x = Some x → chain p x x [x]
  | chain_step x y r l :
      p !! x = Some y → y ≠ x → chain p y r l → chain p x r (x :: l).

Definition same_set (p : list nat) (x y : nat) : Prop :=
  ∃ r, rooted p x r ∧ rooted p y r.

Definition roots (p : list nat) : list nat :=
  filter (λ x, p !! x = Some x) (seq 0 (length p)).

(** Well-formed union-find states over [n] vertices: the parent pointers
    form a forest. *)
Definition ds_wf (n : nat) (ds : DisjointSet) : Prop :=
  length (parent ds) = n ∧ length (rank ds) = n ∧
  ∀ x, x < n → ∃ r, rooted (parent ds) x r.

(** The partition after merging the sets of [a] and [b]. *)
Definition joined (p : list nat) (a b x y : nat) : Prop :=
  same_set p x y ∨ (same_set p x a ∧ same_set p b y)
                 ∨ (same_set p x b ∧ same_set p a y).

(** Ascending by weight. *)
Definition by_weight (a b : edge) : Prop := (w a ≤ w b)%Z.

(** What the loop of [kruskalMST] maintains: the union-find state [ds]
    represents the components of the forest [F] chosen so far. *)
Definition kruskal_inv (n : nat) (E : list edge) (ds : DisjointSet)
    (F : list edge) : Prop :=
  ds_wf n ds ∧
  (∀ x y, x < n → y < n → same_set (parent ds) x y ↔ conn F x y) ∧
  length (roots (parent ds)) + length F = n ∧
  acyclic F ∧ F ⊆ E ∧ promising n E F.

(** ** Heap order *)

(** [j] is a child of [i] in the array layout of the heap. *)
Definition child (i j : nat) : Prop := j = 2 * i + 1 ∨ j = 2 * i + 2.

Definition heap_ok (d : list edge) : Prop :=
  ∀ i j, j < length d → child i j → (wt d i ≤ wt d j)%Z.

(** Heap order everywhere except between [k] and its parent; the parent
    of [k] is already below the children of [k]. *)
Definition up_ok (d : list edge) (k : nat) : Prop :=
  (∀ i j, j < length d → child i j → j ≠ k → (wt d i ≤ wt d j)%Z) ∧
  (∀ g j, j < length d → child k j → child g k → (wt d g ≤ wt d j)%Z).

(** Heap order everywhere except between [k] and its children. *)
Definition down_ok (d : list edge) (k : nat) : Prop :=
  (∀ i j, j < length d → child i j → i ≠ k → (wt d i ≤ wt d j)%Z) ∧
  (∀ g j, j < length d → child k j → child g k → (wt d g ≤ wt d j)%Z).

(** ** Adjacency lists and Prim's state *)

(** The rows of [adj] list, for every vertex, exactly the edges of [E] at
    that vertex, seen from it. *)
Definition adj_of (n : nat) (E : list edge) (adj : list (list Adj.entry))
  : Prop :=
  length adj = n ∧
  ∀ x row, adj !! x = Some row →
    ∀ t c, Adj.Entry t c ∈ row ↔ in_graph E (Edge x t c).

(** The heap entry made of a row entry. *)
Definition item_of (from : nat) (e : Adj.entry) : edge :=
  Edge from (Adj.to e) (Adj.w e).

(** Entries of [adj] in rows of vertices not visited yet: they bound the
    number of pushes still to come. *)
Fixpoint pending_from (i : nat) (adj : list (list Adj.entry))
    (visited : gset nat) : nat :=
  match adj with
  | [] => 0
  | row :: rest =>
      (if decide (i ∈ visited) then 0 else length row)
      + pending_from (S i) rest visited
  end.

(** What the loop of [primMST] maintains. *)
Definition prim_inv (n : nat) (E : list edge) (start : nat)
    (visited : gset nat) (h : MinHeap) (F : list edge) : Prop :=
  start ∈ visited ∧
  (∀ x, x ∈ visited → x < n) ∧
  (∀ e, e ∈ F → u e ∈ visited ∧ v e ∈ visited ∧ in_graph E e) ∧
  (∀ x, x ∈ visited → conn F start x) ∧
  acyclic F ∧
  size visited = S (length F) ∧
  heap_ok (data h) ∧
  (∀ it, it ∈ data h → u it ∈ visited ∧ in_graph E it) ∧
  (∀ g, in_graph E g → u g ∈ visited → v g ∉ visited → g ∈ data h) ∧
  promising n E F.

(** ** Using the heap and the union-find structure *)

(** A batch of pushes onto a fresh heap. *)
Definition push_all (items : list edge) : MinHeap :=
  foldl push new_MinHeap items.

(** Popping until [pop] returns [null]; [None] if that has not happened
    after [fuel] pops. *)
Fixpoint drain (fuel : nat) (h : MinHeap) : option (list edge) :=
  match fuel with
  | 0 => None
  | S fuel' =>
      match pop h with
      | (None, _) => Some []
      | (Some x, h') => (x ::.) <$> drain fuel' h'
      end
  end.

(** Any sequence of calls on a heap. *)
Inductive heap_op : Type :=
  | Push (x : edge)
  | Pop.

Definition apply_op (h : MinHeap) (op : heap_op) : MinHeap :=
  match op with
  | Push x => push h x
  | Pop => (pop h).2
  end.

Definition run_ops (ops : list heap_op) : MinHeap :=
  foldl apply_op new_MinHeap ops.

(** [union(a, b)] called twice in a row: the two answers. *)
Definition union_twice (ds : DisjointSet) (a b : nat) : result (bool * bool) :=
  '(ds1, r1) ← union ds a b;
  '(ds2, r2) ← union ds1 a b;
  Ok (r1, r2).

(** ** Cycles, literally *)



(** ** The program on a store of arrays *)

(** To say what a call does to the arrays of its caller, the program is
    written once more with every array an object in a store, named by a
    location and passed by reference: the caller's [edges] and [adj] with
    its rows, and the arrays a call creates for itself ([parent], [rank],
    the copy [sorted], [mst], the heap's [data], [visited]).  Every
    statement of the source that changes an array ([a[i] = x], [a.push],
    [a.pop], [a.sort], also inside a destructuring swap) is a write to the
    store at the location of that array, and there is no other write.
    The objects of the source that are not arrays ([{ u, v, w }],
    [{ to, w }], the result) are never assigned to after they are built,
    and stay values. *)
Inductive obj : Type :=
  | NumArray (a : list nat)
  | BoolArray (a : list bool)
  | EdgeArray (a : list edge)
  | RowArray (a : list Adj.entry)
  | AdjArray (rows : list nat).

(** A computation on the store: it ends with a value or a [throw], and
    leaves a store in either case. *)
Definition prog (A : Type) : Type := gmap nat obj → result A * gmap nat obj.

#[global] Instance prog_ret : MRet prog := λ A a σ, (Ok a, σ).
#[global] Instance prog_bind : MBind prog := λ A B f m σ,
  match m σ with
  | (Ok a, σ') => f a σ'
  | (Err e, σ') => (Err e, σ')
  end.

Definition throw {A} (e : error) : prog A := λ σ, (Err e, σ).

(** A new array: an object at a location not in use. *)
Definition new_array (o : obj) : prog nat := λ σ,
  let l := fresh (dom σ) in (Ok l, <[l:=o]> σ).

(** The one way to change an array: replace the object at its location. *)
Definition store (l : nat) (o : obj) : prog unit := λ σ, (Ok (), <[l:=o]> σ).

(** Reading the array at a location. *)
Definition num_array (l : nat) : prog (list nat) := λ σ,
  match σ !! l with
  | Some (NumArray a) => (Ok a, σ)
  | _ => (Err TypeError, σ)
  end.

Definition bool_array (l : nat) : prog (list bool) := λ σ,
  match σ !! l with
  | Some (BoolArray a) => (Ok a, σ)
  | _ => (Err TypeError, σ)
  end.

Definition edge_array (l : nat) : prog (list edge) := λ σ,
  match σ !! l with
  | Some (EdgeArray a) => (Ok a, σ)
  | _ => (Err TypeError, σ)
  end.

Definition row_array (l : nat) : prog (list Adj.entry) := λ σ,
  match σ !! l with
  | Some (RowArray a) => (Ok a, σ)
  | _ => (Err TypeError, σ)
  end.

Definition adj_array (l : nat) : prog (list nat) := λ σ,
  match σ !! l with
  | Some (AdjArray a) => (Ok a, σ)
  | _ => (Err TypeError, σ)
  end.

(** [a.length], [a[i]], [a[i] = x] on the arrays of the union-find
    structure; as in [find] and [union], an index outside the array is
    [OutOfRange]. *)
Definition num_length (l : nat) : prog nat := a ← num_array l; mret (length a).

Definition num_get (l i : nat) : prog nat :=
  a ← num_array l;
  match a !! i with
  | Some x => mret x
  | None => throw OutOfRange
  end.

Definition num_set (l i x : nat) : prog unit :=
  a ← num_array l; store l (NumArray (<[i:=x]> a)).

(** [visited[i]], read for truthiness: a hole or an index beyond the
    array is [undefined]. *)
Definition bool_get (l i : nat) : prog bool :=
  a ← bool_array l; mret (default false (a !! i)).

(** [visited[i] = true]; beyond the end the array grows, with holes. *)
Definition set_true (a : list bool) (i : nat) : list bool :=
  if decide (i < length a) then <[i:=true]> a
  else a ++ replicate (i - length a) false ++ [true].

Definition bool_set (l i : nat) : prog unit :=
  a ← bool_array l; store l (BoolArray (set_true a i)).

(** [a.length], [a[i]], [a[i] = x], [a.push(x)], [a.pop()] on arrays of
    edges.  As with [wt], every index that is read is in range. *)
Definition edge_length (l : nat) : prog nat :=
  a ← edge_array l; mret (length a).

Definition edge_get (l i : nat) : prog edge :=
  a ← edge_array l; mret (a !!! i).

Definition edge_set (l i : nat) (x : edge) : prog unit :=
  a ← edge_array l; store l (EdgeArray (<[i:=x]> a)).

Definition edge_push (l : nat) (x : edge) : prog unit :=
  a ← edge_array l; store l (EdgeArray (a ++ [x])).

Definition edge_pop (l : nat) : prog edge :=
  a ← edge_array l;
  store l (EdgeArray (take (length a - 1) a));;
  mret (a !!! (length a - 1)).

(** [a.sort((a, b) => a.w - b.w)]: in place. *)
Definition sort_ref (l : nat) : prog unit :=
  a ← edge_array l; store l (EdgeArray (sort_by_w a)).

(** [adj[i]], a reference to a row, needed as an array: a [TypeError]
    where it is [undefined]. *)
Definition adj_row (l i : nat) : prog nat :=
  a ← adj_array l;
  match a !! i with
  | Some row => mret row
  | None => throw TypeError
  end.

Definition row_length (l : nat) : prog nat :=
  a ← row_array l; mret (length a).

Definition row_get (l i : nat) : prog Adj.entry :=
  a ← row_array l;
  match a !! i with
  | Some e => mret e
  | None => throw TypeError
  end.

(** *** Union-find *)

(** [new DisjointSet(n)]: its two arrays. *)
Definition new_DisjointSet_ref (n : nat) : prog (nat * nat) :=
  if decide (array_length n) then
    lp ← new_array (NumArray (seq 0 n));
    lr ← new_array (NumArray (replicate n 0));
    mret (lp, lr)
  else throw RangeError.

Fixpoint find_ref (fuel : nat) (lp : nat) (x : nat) : prog nat :=
  match fuel with
  | 0 => throw OutOfFuel
  | S fuel' =>
      p ← num_get lp x;
      if decide (p = x) then mret p
      else
        r ← find_ref fuel' lp p;
        num_set lp x r;;
        mret r
  end.

Definition union_ref (lp lr : nat) (a b : nat) : prog bool :=
  fuel ← num_length lp;
  ra ← find_ref fuel lp a;
  fuel ← num_length lp;
  rb ← find_ref fuel lp b;
  if decide (ra = rb) then mret false
  else
    ka ← num_get lr ra;
    kb ← num_get lr rb;
    if decide (ka < kb) then num_set lp ra rb;; mret true
    else if decide (kb < ka) then num_set lp rb ra;; mret true
    else num_set lp rb ra;; num_set lr ra (ka + 1);; mret true.

(** *** Kruskal *)

(** [for (const { u, v, w } of sorted)]: the iterator reads the length
    and the next element of the array anew in every round. *)
Fixpoint kruskal_loop_ref (fuel : nat) (n lp lr ls lm : nat) (i : nat)
    (tot : number) : prog number :=
  match fuel with
  | 0 => throw OutOfFuel
  | S fuel' =>
      len ← edge_length ls;
      if decide (i < len) then
        e ← edge_get ls i;
        merged ← union_ref lp lr (u e) (v e);
        if merged : bool then
          edge_push lm (Edge (u e) (v e) (w e));;
          let tot' := js_add tot (w e) in
          k ← edge_length lm;
          if decide (Z.of_nat k = Z.of_nat n - 1)%Z then mret tot'
          else kruskal_loop_ref fuel' n lp lr ls lm (S i) tot'
        else kruskal_loop_ref fuel' n lp lr ls lm (S i) tot
      else mret tot
  end.

(** [kruskalMST(n, edges)], with [edges] the location of the caller's
    array.  The result is returned with the contents of its [mst]. *)
Definition kruskalMST_ref (n : nat) (edges : nat) : prog MSTResult :=
  '(lp, lr) ← new_DisjointSet_ref n;
  es ← edge_array edges;
  ls ← new_array (EdgeArray es);
  sort_ref ls;;
  lm ← new_array (EdgeArray []);
  len ← edge_length ls;
  tot ← kruskal_loop_ref (S len) n lp lr ls lm 0 0%Z;
  k ← edge_length lm;
  if decide (Z.of_nat k = Z.of_nat n - 1)%Z then
    acc ← edge_array lm; mret (MkResult acc tot)
  else throw NotConnected.

(** *** The heap *)

(** [[d[i], d[j]] = [d[j], d[i]]]: both elements are read, then [d[i]]
    and [d[j]] are assigned. *)
Definition swap_ref (ld : nat) (i j : nat) : prog unit :=
  x ← edge_get ld j;
  y ← edge_get ld i;
  edge_set ld i x;;
  edge_set ld j y.

Fixpoint bubbleUp_loop_ref (fuel : nat) (ld : nat) (i : nat) : prog unit :=
  match fuel with
  | 0 => mret ()
  | S fuel' =>
      if decide (0 < i) then
        let p := (i - 1) / 2 in
        xp ← edge_get ld p;
        xi ← edge_get ld i;
        if decide (w xp ≤ w xi)%Z then mret ()
        else swap_ref ld p i;; bubbleUp_loop_ref fuel' ld p
      else mret ()
  end.

Definition bubbleUp_ref (ld : nat) (i : nat) : prog unit :=
  bubbleUp_loop_ref i ld i.

Fixpoint bubbleDown_loop_ref (fuel : nat) (ld : nat) (i : nat) : prog unit :=
  match fuel with
  | 0 => mret ()
  | S fuel' =>
      d ← edge_array ld;
      let smallest := smallest_of d i in
      if decide (smallest = i) then mret ()
      else swap_ref ld i smallest;; bubbleDown_loop_ref fuel' ld smallest
  end.

Definition bubbleDown_ref (ld : nat) (i : nat) : prog unit :=
  len ← edge_length ld; bubbleDown_loop_ref len ld i.

Definition push_ref (ld : nat) (item : edge) : prog unit :=
  edge_push ld item;;
  len ← edge_length ld;
  bubbleUp_ref ld (len - 1).

Definition pop_ref (ld : nat) : prog (option edge) :=
  len ← edge_length ld;
  if decide (len = 0) then mret None
  else
    top ← edge_get ld 0;
    end_ ← edge_pop ld;
    len' ← edge_length ld;
    if decide (0 < len') then
      edge_set ld 0 end_;; bubbleDown_ref ld 0;; mret (Some top)
    else mret (Some top).

(** *** Prim *)

(** [for (const e of adj[start]) heap.push({ w: e.w, u: start, v: e.to })],
    on the row at [row]. *)
Fixpoint push_row_ref (fuel : nat) (row ld : nat) (from : nat) (i : nat)
  : prog unit :=
  match fuel with
  | 0 => throw OutOfFuel
  | S fuel' =>
      len ← row_length row;
      if decide (i < len) then
        e ← row_get row i;
        push_ref ld (Edge from (Adj.to e) (Adj.w e));;
        push_row_ref fuel' row ld from (S i)
      else mret ()
  end.

(** [for (const e of adj[v]) if (!visited[e.to]) heap.push(...)] *)
Fixpoint push_unvisited_ref (fuel : nat) (row lv ld : nat) (from : nat)
    (i : nat) : prog unit :=
  match fuel with
  | 0 => throw OutOfFuel
  | S fuel' =>
      len ← row_length row;
      if decide (i < len) then
        e ← row_get row i;
        seen ← bool_get lv (Adj.to e);
        (if seen : bool then mret ()
         else push_ref ld (Edge from (Adj.to e) (Adj.w e)));;
        push_unvisited_ref fuel' row lv ld from (S i)
      else mret ()
  end.

Fixpoint prim_loop_ref (fuel : nat) (n adj lv ld lm : nat) (tot : number)
  : prog number :=
  match fuel with
  | 0 => throw OutOfFuel
  | S fuel' =>
      size ← edge_length ld;
      k ← edge_length lm;
      if decide (0 < size ∧ (Z.of_nat k < Z.of_nat n - 1)%Z) then
        top ← pop_ref ld;
        match top with
        | None => throw TypeError
        | Some item =>
            seen ← bool_get lv (v item);
            if seen : bool then prim_loop_ref fuel' n adj lv ld lm tot
            else
              bool_set lv (v item);;
              edge_push lm (Edge (u item) (v item) (w item));;
              let tot' := js_add tot (w item) in
              row ← adj_row adj (v item);
              len ← row_length row;
              push_unvisited_ref (S len) row lv ld (v item) 0;;
              prim_loop_ref fuel' n adj lv ld lm tot'
        end
      else mret tot
  end.

(** The contents of [adj]: its rows, read through the references. *)
Definition read_row (σ : gmap nat obj) (l : nat) : option (list Adj.entry) :=
  match σ !! l with
  | Some (RowArray row) => Some row
  | _ => None
  end.

Definition read_adj (σ : gmap nat obj) (adj : nat)
  : option (list (list Adj.entry)) :=
  match σ !! adj with
  | Some (AdjArray rows) => mapM (read_row σ) rows
  | _ => None
  end.

(** The fuel of the [while] loop, as in [primMST]: it is counted from
    the contents of [adj] and reads nothing else. *)
Definition prim_fuel_ref (adj : nat) : prog nat := λ σ,
  (Ok (from_option prim_fuel 0 (read_adj σ adj)), σ).

(** [primMST(n, adj, start)], with [adj] the location of the caller's
    array of rows. *)
Definition primMST_ref (n : nat) (adj : nat) (start : nat)
  : prog MSTResult :=
  if decide (array_length n) then
    lv ← new_array (BoolArray (replicate n false));
    ld ← new_array (EdgeArray []);
    lm ← new_array (EdgeArray []);
    bool_set lv start;;
    row ← adj_row adj start;
    len ← row_length row;
    push_row_ref (S len) row ld start 0;;
    fuel ← prim_fuel_ref adj;
    tot ← prim_loop_ref fuel n adj lv ld lm 0%Z;
    k ← edge_length lm;
    if decide (Z.of_nat k = Z.of_nat n - 1)%Z then
      acc ← edge_array lm; mret (MkResult acc tot)
    else throw NotConnected
  else throw RangeError.

(** Two stores that hold the same objects except at the locations [W]. *)
Definition agree_outside (W : list nat) (σ σ' : gmap nat obj) : Prop :=
  ∀ l, l ∉ W → σ' !! l = σ !! l.

(** The arrays of a call of [kruskalMST] in the store. *)
Definition kruskal_store (lp lr ls lm : nat) (ds : DisjointSet)
    (sorted acc : list edge) (σ : gmap nat obj) : Prop :=
  σ !! lp = Some (NumArray (parent ds)) ∧
  σ !! lr = Some (NumArray (rank ds)) ∧
  σ !! ls = Some (EdgeArray sorted) ∧
  σ !! lm = Some (EdgeArray acc).

(** The arrays of a call of [primMST] in the store. *)
Definition prim_store (lv ld lm : nat) (vis : list bool) (d acc : list edge)
    (σ : gmap nat obj) : Prop :=
  σ !! lv = Some (BoolArray vis) ∧
  σ !! ld = Some (EdgeArray d) ∧
  σ !! lm = Some (EdgeArray acc).

(** The caller's [adj] in the store: an array of references to the
    rows. *)
Definition adj_store (la : nat) (locs : list nat)
    (rows : list (list Adj.entry)) (σ : gmap nat obj) : Prop :=
  σ !! la = Some (AdjArray locs) ∧
  Forall2 (λ l row, σ !! l = Some (RowArray row)) locs rows.

(** What Prim's loop needs to know of [visited]: which indices hold
    [true]. *)
Definition marks (a : list bool) (V : gset nat) : Prop :=
  ∀ i, default false (a !! i) = true ↔ i ∈ V.

(** ** The examples of the specification *)

Definition example_edges : list edge :=
  [Edge 0 1 1; Edge 1 2 2; Edge 2 3 3; Edge 0 3 10].

Definition example_mst : list edge :=
  [Edge 0 1 1; Edge 1 2 2; Edge 2 3 3].

Definition disconnected_edges : list edge := [Edge 0 1 5].


(** ** Path compression, in closed form *)

(** Every vertex of the path [l] re-pointed at [r]. *)
Definition compress (p : list nat) (l : list nat) (r : nat) : list nat :=
  foldr (λ y q, <[y:=r]> q) p l.

(** ** Union by rank *)

(** The states a [DisjointSet] goes through: created by the constructor,
    then changed by calls of [find] and [union] that return. *)
Inductive reachable (n : nat) : DisjointSet → Prop :=
  | reach_new : reachable n (new_DisjointSet n)
  | reach_find ds x ds' r :
      reachable n ds → find (find_fuel ds) ds x = Ok (ds', r) →
      reachable n ds'
  | reach_union ds a b ds' res :
      reachable n ds → union ds a b = Ok (ds', res) → reachable n ds'.

(** Ranks strictly increase along parent pointers. *)
Definition rank_ok (ds : DisjointSet) : Prop :=
  ∀ x p, parent ds !! x = Some p → p ≠ x →
    rank ds !!! x < rank ds !!! p.

(** A root of rank [k] has at least [2 ^ k] vertices in its set. *)
Definition size_ok (ds : DisjointSet) : Prop :=
  ∀ r, parent ds !! r = Some r →
    ∃ l, NoDup l ∧ (∀ x, x ∈ l → rooted (parent ds) x r) ∧
      2 ^ (rank ds !!! r) ≤ length l.

(** Two edge lists that describe the same undirected graph: each edge of
    one occurs in the other, in either direction.  Order, direction and
    repetition of edges do not matter. *)
Definition same_graph (E E' : list edge) : Prop :=
  Forall (in_graph E') E ∧ Forall (in_graph E) E'.

(** The row of vertex [x]: one entry per end of an edge at [x], in the
    order of the edge list (a self-loop at [x] gives two). *)
Definition entries_at (x : nat) (e : edge) : list Adj.entry :=
  (if decide (u e = x) then [Adj.Entry (v e) (w e)] else []) ++
  (if decide (v e = x) then [Adj.Entry (u e) (w e)] else []).

Definition row_of (E : list edge) (x : nat) : list Adj.entry :=
  E ≫= entries_at x.

(** ** Prim on any adjacency array *)

(** The edge is an entry of [adj]: its [v] and [w] stand in the row of
    its [u]. *)
Definition from_adj (adj : list (list Adj.entry)) (e : edge) : Prop :=
  ∃ row, adj !! u e = Some row ∧ Adj.Entry (v e) (w e) ∈ row.

(** Some entry of [adj] names a vertex that has no row. *)
Definition dangling (adj : list (list Adj.entry)) : Prop :=
  ∃ a row b c, adj !! a = Some row ∧ Adj.Entry b c ∈ row ∧ adj !! b = None.

(** A tree grown from [start], in the order of discovery: every edge
    leaves [start] or a vertex reached by an earlier edge, and reaches a
    vertex not reached before. *)
Inductive grown (start : nat) : list edge → Prop :=
  | grown_nil : grown start []
  | grown_snoc acc e :
      grown start acc →
      u e = start ∨ u e ∈ (v <$> acc) →
      v e ≠ start → v e ∉ (v <$> acc) →
      grown start (acc ++ [e]).

(** ** The input loop of [main] *)

(** [main] reads its input line by line through [rl.question]; [trim],
    [toLowerCase], [split] and [parseInt] are the runtime's.  The model
    starts from what they deliver: for each line whether it reads "done",
    and otherwise its fields, each with the value [parseInt] gives for it
    ([None] when that is not an integer: [NaN] or an infinity). *)
Inductive line : Type :=
  | Done
  | Fields (fs : list (option Z)).

#[global] Instance line_eq_dec : EqDecision line.
Proof. solve_decision. Defined.

(** What [main] does with a line: one of its five messages, or
    [edges.push({ u, v, w })]. *)
Inductive reply : Type :=
  | InvalidLine
  | IntegersOnly
  | VertexRange
  | NoSelfLoops
  | NonNegative
  | Accepted (e : edge).

(** The checks of the loop body, in the order of the source. *)
Definition check_line (n : Z) (fs : list (option Z)) : reply :=
  match fs with
  | [Some a; Some b; Some c] =>
      if decide (a < 0 ∨ n ≤ a ∨ b < 0 ∨ n ≤ b)%Z then VertexRange
      else if decide (a = b) then NoSelfLoops
      else if decide (c < 0)%Z then NonNegative
      else Accepted (Edge (Z.to_nat a) (Z.to_nat b) c)
  | [_; _; _] => IntegersOnly
  | _ => InvalidLine
  end.

(** The [while (true)] loop over the lines: [None] when the input ends
    before a line reads "done" (the prompt is never answered). *)
Fixpoint read_edges (n : Z) (lines : list line) (edges : list edge)
  : option (list edge) :=
  match lines with
  | [] => None
  | Done :: _ => Some edges
  | Fields fs :: rest =>
      match check_line n fs with
      | Accepted e => read_edges n rest (edges ++ [e])
      | _ => read_edges n rest edges
      end
  end.

(** How a run of [main] ends. *)
Inductive outcome : Type :=
  | InvalidVertexCount
  | Unanswered
  | NoEdges
  | PrintedResult (kruskal : bool) (r : MSTResult)
  | PrintedError (e : error).

(** [main]: [pn] is [parseInt] of the first answer, [lines] are the
    answers to the edge prompt, and [choice] tells whether the last
    answer was "1" (Kruskal) or anything else (Prim, from vertex 0). *)
Definition main (pn : option Z) (lines : list line) (choice : bool)
  : outcome :=
  match pn with
  | None => InvalidVertexCount
  | Some n =>
      if decide (n ≤ 0)%Z then InvalidVertexCount
      else
        match read_edges n lines [] with
        | None => Unanswered
        | Some [] => NoEdges
        | Some edges =>
            let result :=
              if choice then kruskalMST_call (Z.to_nat n) edges
              else primMST_of_edges_call (Z.to_nat n) edges 0 in
            match result with
            | Ok r => PrintedResult choice r
            | Err e => PrintedError e
            end
        end
  end.

(** The edge a line contributes, if any. *)
Definition accepted (n : Z) (l : line) : option edge :=
  match l with
  | Done => None
  | Fields fs =>
      match check_line n fs with
      | Accepted e => Some e
      | _ => None
      end
  end.

(** * Graph theory *)

Section connectivity.
Implicit Types (E A B T R : list edge) (e f g : edge) (x y z a b : nat).

#[local] Hint Constructors conn : core.

Lemma conn_sub A B x y :
  (∀ e, e ∈ A → conn B (u e) (v e)) → conn A x y → conn B x y.
Proof. intros HAB. induction 1; eauto. Qed.

Lemma conn_mono A B x y : A ⊆ B → conn A x y → conn B x y.
Proof. intros HAB. apply conn_sub. intros e He. apply conn_edge, HAB, He. Qed.

Lemma conn_perm A B x y : A ≡ₚ B → conn A x y ↔ conn B x y.
Proof.
  intros HAB; split; apply conn_mono; intros e; by rewrite HAB.
Qed.

#[global] Instance conn_proper : Proper ((≡ₚ) ==> (=) ==> (=) ==> iff) conn.
Proof. intros A B HAB x ? <- y ? <-. by apply conn_perm. Qed.

Lemma conn_nil x y : conn [] x y → x = y.
Proof.
  induction 1 as [|e He| |]; try congruence.
  by apply elem_of_nil in He.
Qed.

Lemma conn_flip A e : e ∈ A → conn A (v e) (u e).
Proof. auto. Qed.

Lemma conn_in_graph E e : in_graph E e → conn E (u e) (v e).
Proof. intros [He|He]; [auto|]. apply (conn_flip _ _ He). Qed.

(** Adding one edge joins exactly the two classes of its end points. *)
Lemma conn_cons_inv e A x y :
  conn (e :: A) x y →
  conn A x y ∨ (conn A x (u e) ∧ conn A (v e) y)
             ∨ (conn A x (v e) ∧ conn A (u e) y).
Proof.
  induction 1 as [x|g Hg|x y _ IH|x y z _ IH1 _ IH2].
  - auto.
  - apply elem_of_cons in Hg as [->|Hg]; auto.
  - destruct IH as [?|[[??]|[??]]]; auto.
  - destruct IH1 as [?|[[??]|[??]]], IH2 as [?|[[??]|[??]]]; eauto 6.
Qed.

Lemma conn_cons e A x y :
  conn (e :: A) x y ↔
  conn A x y ∨ (conn A x (u e) ∧ conn A (v e) y)
             ∨ (conn A x (v e) ∧ conn A (u e) y).
Proof.
  split; [apply conn_cons_inv|].
  assert (A ⊆ e :: A) as Hsub by (intros g; set_solver).
  assert (conn (e :: A) (u e) (v e)) as He by (apply conn_edge; set_solver).
  intros [H|[[H1 H2]|[H1 H2]]].
  - by eapply conn_mono.
  - apply (conn_mono _ _ _ _ Hsub) in H1, H2. eauto.
  - apply (conn_mono _ _ _ _ Hsub) in H1, H2. eauto.
Qed.

Lemma labels_conn E x y : labels E x = labels E y ↔ conn E x y.
Proof.
  revert x y. induction E as [|e E IH]; intros x y; simpl.
  - split; [intros ->; auto|apply conn_nil].
  - rewrite conn_cons, <-!IH. unfold relabel.
    repeat case_decide; split; intros; try congruence;
      intuition congruence.
Qed.

#[global] Instance conn_dec E x y : Decision (conn E x y).
Proof.
  refine (cast_if (decide (labels E x = labels E y)));
    abstract (by rewrite <-labels_conn).
Defined.

End connectivity.

Section numbers.
Implicit Types (s x y : Z) (E F : list edge) (e : edge).

(** Integers of magnitude up to [2 ^ 53] are binary64 values. *)
Lemma to_double_exact s : (Z.abs s ≤ 2 ^ 53)%Z → to_double s = Num s.
Proof.
  intros Hs. destruct (decide (Z.abs s = 2 ^ 53)%Z) as [Heq|Hne].
  - assert (s = 2 ^ 53 ∨ s = - 2 ^ 53)%Z as [-> | ->] by lia; by vm_compute.
  - unfold to_double. set (a := Z.abs s) in *.
    assert (0 ≤ a < 2 ^ 53)%Z as Ha by (unfold a; lia).
    assert (Z.max 0 (Z.log2 a - 52) = 0)%Z as ->.
    { destruct (decide (a = 0%Z)) as [Hz | Hz]; [by rewrite Hz|].
      assert (Z.log2 a < 53)%Z; [|lia]. apply Z.log2_lt_pow2; lia. }
    assert (round_even a 0 = a) as ->.
    { unfold round_even. change (2 ^ 0)%Z with 1%Z.
      rewrite Z.div_1_r, Z.mod_1_r, Z.mul_1_r. by rewrite decide_True by lia. }
    assert (2 ^ 53 < 2 ^ 1024)%Z as Hbig by (by vm_compute).
    rewrite decide_True by lia. f_equal. unfold a. lia.
Qed.

(** Beyond [2 ^ 53] an addition rounds, so the order of the additions
    matters; from [2 ^ 1024] on the sum is an infinity. *)
Example js_total_rounds :
  js_total [Edge 0 1 (2 ^ 53); Edge 1 2 1; Edge 2 3 1] = Num (2 ^ 53) ∧
  js_total [Edge 1 2 1; Edge 2 3 1; Edge 0 1 (2 ^ 53)] = Num (2 ^ 53 + 2) ∧
  js_add (Num (2 ^ 53)) 3 = Num (2 ^ 53 + 4) ∧
  js_add (Num (2 ^ 1023)) (2 ^ 1023) = Infinity.
Proof. by vm_compute. Qed.

Lemma js_total_snoc F e : js_total (F ++ [e]) = js_add (js_total F) (w e).
Proof. unfold js_total. by rewrite foldl_app. Qed.

Lemma weight_snoc F e : weight (F ++ [e]) = (weight F + w e)%Z.
Proof. induction F; simpl; lia. Qed.

Lemma nonneg_weight F : nonneg F → (0 ≤ weight F)%Z.
Proof. induction 1; simpl; lia. Qed.

(** As long as no weight is negative and the sum stays within [2 ^ 53],
    every addition is exact and [total] is the sum of the weights. *)
Lemma js_total_exact F :
  nonneg F → (weight F ≤ 2 ^ 53)%Z → js_total F = Num (weight F).
Proof.
  induction F as [|e F IH] using rev_ind; [done|].
  intros [HF He%Forall_inv]%Forall_app Hle.
  rewrite weight_snoc in Hle. pose proof (nonneg_weight F HF). simpl in He.
  rewrite js_total_snoc, weight_snoc, IH by (done || lia). simpl.
  apply to_double_exact. lia.
Qed.

Lemma nonneg_subseteq E F : nonneg E → F ⊆ E → nonneg F.
Proof.
  intros HE Hsub. apply Forall_forall. intros e He.
  by apply (proj1 (Forall_forall _ _) HE), Hsub.
Qed.

Lemma nonneg_in_graph E F :
  nonneg E → (∀ e, e ∈ F → in_graph E e) → nonneg F.
Proof.
  intros HE Hsub. apply Forall_forall. intros e He.
  destruct (Hsub e He) as [Hin|Hin];
    by apply (proj1 (Forall_forall _ _) HE) in Hin.
Qed.

Lemma kruskalMST_call_eq n E :
  array_length n → kruskalMST_call n E = kruskalMST n E.
Proof. intros Hn. unfold kruskalMST_call. by rewrite decide_True. Qed.

Lemma buildAdj_call_eq n E :
  array_length n → buildAdj_call n E = buildAdj n E.
Proof. intros Hn. unfold buildAdj_call. by rewrite decide_True. Qed.

Lemma primMST_call_eq n adj start :
  array_length n → primMST_call n adj start = primMST n adj start.
Proof. intros Hn. unfold primMST_call. by rewrite decide_True. Qed.

Lemma primMST_of_edges_call_eq n E start :
  array_length n → primMST_of_edges_call n E start = primMST_of_edges n E start.
Proof.
  intros Hn. unfold primMST_of_edges_call, primMST_of_edges.
  rewrite buildAdj_call_eq by done. destruct (buildAdj n E); [|done].
  simpl. by apply primMST_call_eq.
Qed.

End numbers.

Section forests.
Implicit Types (E A B T R F : list edge) (e f g : edge) (x y z a b : nat).

#[local] Hint Constructors conn : core.

Lemma weight_perm A B : A ≡ₚ B → weight A = weight B.
Proof. induction 1; simpl; lia. Qed.

#[global] Instance weight_proper : Proper ((≡ₚ) ==> (=)) weight.
Proof. intros A B. apply weight_perm. Qed.

Lemma weight_app A B : weight (A ++ B) = (weight A + weight B)%Z.
Proof. induction A; simpl; lia. Qed.

Lemma flip_flip e : flip (flip e) = e.
Proof. by destruct e. Qed.

Lemma edge_eta e : Edge (u e) (v e) (w e) = e.
Proof. by destruct e. Qed.

(** Two lists with the same first element removed, or the heads sit at
    different places. *)
Lemma perm_cons_cases e T g R :
  e :: T ≡ₚ g :: R →
  (e = g ∧ T ≡ₚ R) ∨ (∃ R', R ≡ₚ e :: R' ∧ T ≡ₚ g :: R').
Proof.
  intros HP. destruct (decide (e = g)) as [->|Hne].
  - left. split; [done|]. by apply Permutation_cons_inv in HP.
  - right. assert (g ∈ T) as [R' HR']%elem_of_Permutation.
    { assert (g ∈ e :: T) as Hg by (rewrite HP; set_solver).
      set_solver. }
    exists R'. split; [|done].
    rewrite HR', Permutation_swap in HP.
    by apply Permutation_cons_inv in HP.
Qed.

Lemma acyclic_nil : acyclic [].
Proof. intros e R HP. by apply Permutation_nil_cons in HP. Qed.

Lemma acyclic_perm A B : A ≡ₚ B → acyclic A → acyclic B.
Proof. intros HAB HA e R HP. apply HA. by rewrite HAB. Qed.

#[global] Instance acyclic_proper : Proper ((≡ₚ) ==> iff) acyclic.
Proof. intros A B HAB. split; apply acyclic_perm; done. Qed.

(** A forest grows by an edge exactly when the edge joins two of its
    trees. *)
Lemma acyclic_cons e T :
  acyclic (e :: T) ↔ ¬ conn T (u e) (v e) ∧ acyclic T.
Proof.
  split.
  - intros Hac. split; [by apply Hac|].
    intros g R HP HR. apply (Hac g (e :: R)).
    + by rewrite HP, Permutation_swap.
    + eapply conn_mono; [|done]. set_solver.
  - intros [Hne Hac] g R [[<- HP]|(R' & HR & HT)]%perm_cons_cases.
    + by rewrite <-HP.
    + rewrite HR. intros [H|[[H1 H2]|[H1 H2]]]%conn_cons_inv.
      * by apply (Hac g R').
      * apply Hne. rewrite HT. apply conn_cons. eauto 7.
      * apply Hne. rewrite HT. apply conn_cons. eauto 7.
Qed.

Lemma acyclic_snoc T e :
  acyclic (T ++ [e]) ↔ ¬ conn T (u e) (v e) ∧ acyclic T.
Proof. rewrite <-acyclic_cons. apply acyclic_proper.
  by rewrite Permutation_app_comm. Qed.

Lemma acyclic_NoDup T : acyclic T → NoDup T.
Proof.
  induction T as [|e T IH]; [constructor|].
  intros [Hne Hac]%acyclic_cons. constructor; [|by apply IH].
  intros He. apply Hne. by apply conn_edge.
Qed.



(** A set of vertices closed under the edges of [A] is closed under
    [conn A]. *)
Lemma conn_cut A (S : nat → Prop) x y :
  (∀ e, e ∈ A → S (u e) ↔ S (v e)) → conn A x y → S x ↔ S y.
Proof. intros HA. induction 1; [done|by apply HA|by symmetry|by etrans]. Qed.

(** Walking from the part of the list that does not join [a] and [b]
    towards the whole list, some edge is the first to join them. *)
Lemma first_joining_edge L A a b :
  ¬ conn A a b → conn (L ++ A) a b →
  ∃ L1 f L2, L = L1 ++ f :: L2 ∧
    ¬ conn (L2 ++ A) a b ∧ conn (f :: L2 ++ A) a b.
Proof.
  intros HA. induction L as [|g L IH]; simpl; [done|]. intros Hc.
  destruct (decide (conn (L ++ A) a b)) as [Hc'|Hc'].
  - destruct (IH Hc') as (L1 & f & L2 & -> & ? & ?).
    by exists (g :: L1), f, L2.
  - by exists [], g, L.
Qed.

(** The exchange step: in a tree that joins [a] and [b], every set [P] of
    edges that fails to join them misses an edge whose removal separates
    [a] from [b], one on each side. *)
Lemma exchange T (P : edge → Prop) `{!∀ e, Decision (P e)} a b :
  acyclic T → conn T a b → ¬ conn (filter P T) a b →
  ∃ f R, T ≡ₚ f :: R ∧ ¬ P f ∧ ¬ conn R a b ∧
    ((conn R a (u f) ∧ conn R (v f) b) ∨ (conn R a (v f) ∧ conn R (u f) b)).
Proof.
  intros Hac Hc HP.
  destruct (first_joining_edge (filter (λ e, ¬ P e) T) (filter P T) a b)
    as (L1 & f & L2 & HL & Hn & Hj); [done| |].
  { eapply conn_perm; [|done].
    by rewrite Permutation_app_comm, filter_app_complement. }
  assert (f ∈ filter (λ e, ¬ P e) T) as [HPf HfT]%list_elem_of_filter.
  { rewrite HL. set_solver. }
  apply elem_of_Permutation in HfT as [R HR].
  exists f, R. split; [done|]. split; [done|].
  assert (f ∉ L2 ++ filter P T) as Hf.
  { intros Hf. apply Hn. eapply conn_mono; [|done]. set_solver. }
  assert (L2 ++ filter P T ⊆ R) as Hsub.
  { intros g Hg. assert (g ∈ f :: R) as Hg'.
    { rewrite <-HR. apply elem_of_app in Hg as [Hg|Hg].
      - assert (g ∈ filter (λ e, ¬ P e) T) as Hg' by (rewrite HL; set_solver).
        by apply list_elem_of_filter in Hg' as [_ ?].
      - by apply list_elem_of_filter in Hg as [_ ?]. }
    apply elem_of_cons in Hg' as [->|?]; done. }
  assert ((conn R a (u f) ∧ conn R (v f) b) ∨
          (conn R a (v f) ∧ conn R (u f) b)) as Hside.
  { apply conn_cons_inv in Hj as [?|[[??]|[??]]]; [done| |].
    - left. split; by eapply conn_mono.
    - right. split; by eapply conn_mono. }
  split; [|done]. intros Hab. apply (Hac f R HR).
  destruct Hside as [[??]|[??]]; eauto 6.
Qed.

Lemma in_graph_flip E e : in_graph E (flip e) ↔ in_graph E e.
Proof. unfold in_graph. rewrite flip_flip. tauto. Qed.

(** The cut property, in the form both algorithms use: a lightest edge
    across a cut that the forest [F] does not cross keeps [F] promising. *)
Lemma cut_step n E F e (S : nat → Prop) `{!∀ x, Decision (S x)} :
  promising n E F →
  in_graph E e → u e < n → v e < n →
  ¬ (S (u e) ↔ S (v e)) →
  (∀ g, g ∈ F → S (u g) ↔ S (v g)) →
  (∀ g, in_graph E g → ¬ (S (u g) ↔ S (v g)) → (w e ≤ w g)%Z) →
  promising n E (F ++ [e]).
Proof.
  intros Hprom HeE Hu Hv Hcross HF Hmin T HT.
  destruct (Hprom T HT) as (T' & (HT'E & Hac & Hconn) & HFT' & HwT').
  destruct (decide (e ∈ T')) as [HeT'|HeT'].
  { exists T'. split; [done|]. split; [set_solver|done]. }
  destruct (exchange T' (λ g, S (u g) ↔ S (v g)) (u e) (v e))
    as (f & R & HR & Hf & HnR & Hside); [done|by apply Hconn| |].
  { intros Hc. apply Hcross. eapply conn_cut; [|done].
    by intros g [? _]%list_elem_of_filter. }
  assert (f ∈ T') as HfT' by (rewrite HR; set_solver).
  exists (e :: R). split; [split; [|split]|split].
  - intros g [->|Hg]%elem_of_cons; [done|]. apply HT'E. rewrite HR. set_solver.
  - apply acyclic_cons. split; [done|].
    rewrite HR in Hac. by apply acyclic_cons in Hac as [_ ?].
  - intros x y Hx Hy. eapply conn_sub; [|by apply (Hconn x y)].
    intros g Hg. rewrite HR in Hg. apply elem_of_cons in Hg as [->|Hg].
    + assert (conn (e :: R) (u e) (v e)) by (apply conn_edge; set_solver).
      assert (R ⊆ e :: R) as Hsub by set_solver.
      destruct Hside as [[H1 H2]|[H1 H2]];
        apply (conn_mono _ _ _ _ Hsub) in H1, H2; eauto 7.
    + apply conn_edge. set_solver.
  - intros g [Hg| ->%list_elem_of_singleton]%elem_of_app; [|set_solver].
    assert (g ∈ f :: R) as [->|?]%elem_of_cons; [|by apply HF in Hg|set_solver].
    rewrite <-HR. by apply HFT'.
  - rewrite HR in HwT'. simpl in *.
    assert (w e ≤ w f)%Z by (apply Hmin; [by apply HT'E|done]). lia.
Qed.

Lemma promising_nil n E : promising n E [].
Proof. intros T HT. exists T. split; [done|]. split; [set_solver|lia]. Qed.

(** A promising forest that already is a spanning tree is a minimum
    spanning tree. *)
Lemma in_graph_range n E e : in_range n E → in_graph E e → u e < n ∧ v e < n.
Proof. intros HE [He|He]; apply HE in He; simpl in He; tauto. Qed.

Lemma promising_spanning n E F :
  in_range n E → promising n E F → spanning_tree n E F →
  minimum_spanning_tree n E F.
Proof.
  intros Hrange Hprom HF. split; [done|]. intros T HT.
  destruct (Hprom T HT) as (T' & (HT'E & Hac & _) & Hsub & Hw).
  destruct HF as (_ & HacF & HcF).
  destruct (submseteq_Permutation F T') as [K HK].
  { apply NoDup_submseteq; [by apply acyclic_NoDup|done]. }
  destruct K as [|g K].
  - rewrite app_nil_r in HK. by rewrite <-HK.
  - exfalso. apply (Hac g (F ++ K)).
    + by rewrite HK, Permutation_middle.
    + assert (g ∈ T') as HgT' by (rewrite HK; set_solver).
      destruct (in_graph_range n E g Hrange (HT'E g HgT')).
      eapply conn_mono; [|by apply HcF]. set_solver.
Qed.

(** Two minimum spanning trees of one graph weigh the same. *)
Lemma minimum_spanning_tree_weight n E T1 T2 :
  minimum_spanning_tree n E T1 → minimum_spanning_tree n E T2 →
  weight T1 = weight T2.
Proof.
  intros [H1 M1] [H2 M2]. specialize (M1 _ H2). specialize (M2 _ H1). lia.
Qed.

End forests.

(** * Union-find *)

Section union_find.
Implicit Types (p : list nat) (ds : DisjointSet) (x y z r a b : nat).

Lemma rooted_root p x r : rooted p x r → p !! r = Some r.
Proof. induction 1; auto. Qed.

Lemma rooted_lt p x r : rooted p x r → x < length p ∧ r < length p.
Proof.
  induction 1 as [x Hx|x y r Hx _ _ [_ IH]].
  - apply lookup_lt_Some in Hx. lia.
  - apply lookup_lt_Some in Hx. lia.
Qed.

Lemma rooted_fun p x r r' : rooted p x r → rooted p x r' → r = r'.
Proof.
  induction 1 as [x Hx|x y r Hx Hne _ IH]; inversion 1; subst;
    try congruence.
  apply IH. congruence.
Qed.

Lemma rooted_root_self p r x : p !! r = Some r → rooted p r x → x = r.
Proof. intros Hr Hx. eapply rooted_fun; [done|]. by constructor. Qed.

Lemma chain_rooted p x r l : chain p x r l → rooted p x r.
Proof. induction 1; [by constructor|by econstructor]. Qed.

Lemma rooted_chain p x r : rooted p x r → ∃ l, chain p x r l.
Proof.
  induction 1 as [x Hx|x y r Hx Hne _ [l IH]].
  - exists [x]. by constructor.
  - exists (x :: l). by econstructor.
Qed.

Lemma chain_fun p x r l r' l' : chain p x r l → chain p x r' l' → l = l'.
Proof.
  intros H. revert r' l'.
  induction H as [x Hx|x y r l Hx Hne _ IH]; inversion 1; subst;
    try congruence.
  f_equal. eapply IH. by replace y with y0 by congruence.
Qed.

Lemma chain_suffix p x r l y :
  chain p x r l → y ∈ l → ∃ l', chain p y r l' ∧ length l' ≤ length l.
Proof.
  induction 1 as [x Hx|x z r l Hx Hne Hc IH].
  - intros ->%list_elem_of_singleton. exists [x]. split; [by constructor|done].
  - intros [->|Hy]%elem_of_cons.
    + exists (x :: l). split; [by econstructor|done].
    + destruct (IH Hy) as (l' & ? & ?). exists l'. split; [done|simpl; lia].
Qed.

Lemma chain_NoDup p x r l : chain p x r l → NoDup l.
Proof.
  induction 1 as [x Hx|x z r l Hx Hne Hc IH].
  - apply NoDup_singleton.
  - constructor; [|done]. intros Hin.
    destruct (chain_suffix _ _ _ _ _ Hc Hin) as (l' & Hc' & Hlen).
    assert (l' = x :: l) as -> by (eapply chain_fun; [done|by econstructor]).
    simpl in Hlen. lia.
Qed.

Lemma chain_lt p x r l y : chain p x r l → y ∈ l → y < length p.
Proof.
  induction 1 as [x Hx|x z r l Hx Hne Hc IH].
  - intros ->%list_elem_of_singleton. by apply lookup_lt_Some in Hx.
  - intros [->|Hy]%elem_of_cons; [by apply lookup_lt_Some in Hx|auto].
Qed.

(** A chain visits no vertex twice, so it is no longer than the array. *)
Lemma chain_length p x r l : chain p x r l → length l ≤ length p.
Proof.
  intros Hc. rewrite <-(length_seq (length p) 0).
  apply submseteq_length, NoDup_submseteq; [by eapply chain_NoDup|].
  intros y Hy. apply elem_of_seq. split; [lia|].
  simpl. by eapply chain_lt.
Qed.

(** Path compression re-points [x] at its own root: no root changes. *)
Lemma rooted_compress p x r z rz :
  rooted p x r → rooted (<[x:=r]> p) z rz ↔ rooted p z rz.
Proof.
  intros Hx. destruct (decide (x = r)) as [->|Hne].
  { by rewrite list_insert_id by by eapply rooted_root. }
  pose proof (rooted_lt _ _ _ Hx) as [Hxlt _].
  pose proof (rooted_root _ _ _ Hx) as Hr.
  assert (rooted (<[x:=r]> p) x r) as Hx'.
  { eapply rooted_step; [by apply list_lookup_insert_eq|done|].
    apply rooted_self. by rewrite list_lookup_insert_ne. }
  split.
  - induction 1 as [z Hz|z y rz Hz Hzy _ IH].
    + destruct (decide (z = x)) as [->|Hzx].
      * rewrite list_lookup_insert_eq in Hz by done. congruence.
      * rewrite list_lookup_insert_ne in Hz by done. by constructor.
    + destruct (decide (z = x)) as [->|Hzx].
      * rewrite list_lookup_insert_eq in Hz by done.
        assert (y = r) as -> by congruence.
        by rewrite (rooted_root_self _ _ _ Hr IH).
      * rewrite list_lookup_insert_ne in Hz by done. by econstructor.
  - induction 1 as [z Hz|z y rz Hz Hzy Hy IH].
    + destruct (decide (z = x)) as [->|Hzx].
      * exfalso. apply Hne. eapply rooted_fun; [by constructor|done].
      * apply rooted_self. by rewrite list_lookup_insert_ne.
    + destruct (decide (z = x)) as [->|Hzx].
      * assert (rz = r) as ->; [|done].
        apply (rooted_fun p x); [by econstructor|done].
      * eapply rooted_step; [|done..]. by rewrite list_lookup_insert_ne.
Qed.

(** Linking the root [c] below the root [r] moves the vertices of [c]'s
    tree to [r] and leaves the others alone. *)
Lemma rooted_link p c r z rz :
  p !! c = Some c → p !! r = Some r → c ≠ r →
  rooted (<[c:=r]> p) z rz ↔
  ∃ rz0, rooted p z rz0 ∧ rz = (if decide (rz0 = c) then r else rz0).
Proof.
  intros Hc Hr Hne. pose proof (lookup_lt_Some _ _ _ Hc) as Hclt. split.
  - induction 1 as [z Hz|z y rz Hz Hzy _ (rz0 & IH & ->)].
    + destruct (decide (z = c)) as [->|Hzc].
      * rewrite list_lookup_insert_eq in Hz by done. congruence.
      * rewrite list_lookup_insert_ne in Hz by done.
        exists z. split; [by constructor|]. by rewrite decide_False.
    + destruct (decide (z = c)) as [->|Hzc].
      * rewrite list_lookup_insert_eq in Hz by done.
        assert (y = r) as -> by congruence.
        rewrite (rooted_root_self _ _ _ Hr IH).
        exists c. split; [by constructor|].
        repeat case_decide; congruence.
      * rewrite list_lookup_insert_ne in Hz by done.
        exists rz0. split; [by econstructor|done].
  - intros (rz0 & Hz & ->).
    induction Hz as [z Hz|z y rz0 Hz Hzy _ IH].
    + case_decide as Hzc; [subst z|].
      * eapply rooted_step; [by apply list_lookup_insert_eq|done|].
        apply rooted_self. by rewrite list_lookup_insert_ne.
      * apply rooted_self. by rewrite list_lookup_insert_ne.
    + eapply rooted_step; [|done..].
      rewrite list_lookup_insert_ne; [done|]. congruence.
Qed.

Lemma root_iff p z : p !! z = Some z ↔ rooted p z z.
Proof.
  split; [by constructor|]. by apply rooted_root.
Qed.

Lemma same_set_iff p x y rx ry :
  rooted p x rx → rooted p y ry → same_set p x y ↔ rx = ry.
Proof.
  intros Hx Hy. split.
  - intros (r & Hx' & Hy').
    rewrite (rooted_fun _ _ _ _ Hx Hx'). symmetry.
    apply (rooted_fun _ _ _ _ Hy Hy').
  - intros <-. by exists rx.
Qed.

Lemma same_set_refl p x r : rooted p x r → same_set p x x.
Proof. intros Hx. by exists r. Qed.

Lemma same_set_sym p x y : same_set p x y → same_set p y x.
Proof. intros (r & ? & ?). by exists r. Qed.

Lemma same_set_trans p x y z : same_set p x y → same_set p y z → same_set p x z.
Proof.
  intros (r & Hx & Hy) (r' & Hy' & Hz).
  rewrite <-(rooted_fun _ _ _ _ Hy Hy') in Hz. by exists r.
Qed.

Lemma filter_iff_in {A} (P Q : A → Prop)
    `{!∀ i, Decision (P i)} `{!∀ i, Decision (Q i)} (l : list A) :
  (∀ i, i ∈ l → P i ↔ Q i) → filter P l = filter Q l.
Proof.
  induction l as [|i l IH]; intros HPQ; [done|].
  rewrite !filter_cons, IH by (intros; apply HPQ; set_solver).
  assert (P i ↔ Q i) by (apply HPQ; set_solver).
  repeat case_decide; tauto.
Qed.

(** Counting the indices below [n] that satisfy a predicate, when the
    predicate is switched off at one index. *)
Lemma filter_seq_switch (P Q : nat → Prop)
    `{!∀ i, Decision (P i)} `{!∀ i, Decision (Q i)} n c :
  c < n → P c → ¬ Q c → (∀ i, i ≠ c → P i ↔ Q i) →
  length (filter P (seq 0 n)) = S (length (filter Q (seq 0 n))).
Proof.
  intros Hc HP HQ HPQ. induction n as [|n IH]; [lia|].
  rewrite seq_S, !filter_app, !length_app. simpl.
  destruct (decide (c = n)) as [->|Hcn].
  - rewrite (filter_cons_True P), (filter_cons_False Q) by done. simpl.
    rewrite (filter_iff_in P Q); [lia|].
    intros i [_ Hi]%elem_of_seq. apply HPQ. lia.
  - rewrite IH by lia. rewrite !filter_cons, !filter_nil.
    specialize (HPQ n). repeat case_decide; simpl; try lia; naive_solver.
Qed.

Lemma roots_same p p' :
  length p' = length p → (∀ z rz, rooted p' z rz ↔ rooted p z rz) →
  roots p' = roots p.
Proof.
  intros Hlen Heq. unfold roots. rewrite Hlen.
  apply list_filter_iff. intros z. by rewrite !root_iff.
Qed.

Lemma roots_link p c r :
  p !! c = Some c → c ≠ r →
  length (roots p) = S (length (roots (<[c:=r]> p))).
Proof.
  intros Hc Hne. pose proof (lookup_lt_Some _ _ _ Hc) as Hclt.
  unfold roots. rewrite length_insert.
  apply (filter_seq_switch _ _ _ c); [done..| |].
  - rewrite list_lookup_insert_eq by done. congruence.
  - intros i Hi. by rewrite list_lookup_insert_ne.
Qed.

(** [find] returns the root, and compresses the path without changing
    any root. *)
Lemma find_chain ds x r l fuel :
  chain (parent ds) x r l → length l ≤ fuel →
  ∃ ds', find fuel ds x = Ok (ds', r) ∧
    rank ds' = rank ds ∧
    length (parent ds') = length (parent ds) ∧
    ∀ z rz, rooted (parent ds') z rz ↔ rooted (parent ds) z rz.
Proof.
  intros Hc. revert fuel.
  induction Hc as [x Hx|x y r l Hx Hne Hc IH]; intros [|fuel] Hfuel;
    simpl in *; try lia.
  - exists ds. by rewrite Hx, decide_True.
  - destruct (IH fuel) as (ds' & Hf & Hrk & Hlen & Heq); [lia|].
    rewrite Hx, decide_False, Hf by done. simpl.
    eexists. split; [done|]. split; [done|].
    split; [simpl; by rewrite length_insert|]. simpl.
    intros z rz. rewrite rooted_compress; [done|].
    apply Heq. econstructor; [done..|]. by eapply chain_rooted.
Qed.

Lemma find_rooted ds x r :
  rooted (parent ds) x r →
  ∃ ds', find (find_fuel ds) ds x = Ok (ds', r) ∧
    rank ds' = rank ds ∧
    length (parent ds') = length (parent ds) ∧
    ∀ z rz, rooted (parent ds') z rz ↔ rooted (parent ds) z rz.
Proof.
  intros [l Hl]%rooted_chain. eapply find_chain; [done|].
  by eapply chain_length.
Qed.

Lemma ds_wf_new n : ds_wf n (new_DisjointSet n).
Proof.
  split; [apply length_seq|]. split; [apply length_replicate|].
  intros x Hx. exists x. apply rooted_self. simpl.
  by rewrite lookup_seq_lt.
Qed.

Lemma same_set_new n x y :
  x < n → y < n → same_set (parent (new_DisjointSet n)) x y ↔ x = y.
Proof.
  intros Hx Hy. apply same_set_iff; apply rooted_self; simpl;
    by rewrite lookup_seq_lt.
Qed.

Lemma roots_new n : length (roots (parent (new_DisjointSet n))) = n.
Proof.
  unfold roots. simpl. rewrite length_seq.
  rewrite (filter_iff_in _ (λ _, True)).
  - rewrite <-(length_seq n 0) at 2. f_equal.
    induction (seq 0 n) as [|i l IH]; [done|].
    by rewrite filter_cons_True, IH.
  - intros i [_ Hi]%elem_of_seq. split; [done|]. intros _.
    by rewrite lookup_seq_lt.
Qed.

Lemma link_spec n p a b ra rb c r :
  length p = n → (∀ x, x < n → ∃ r', rooted p x r') →
  rooted p a ra → rooted p b rb → ra ≠ rb →
  (c = ra ∧ r = rb) ∨ (c = rb ∧ r = ra) →
  (∀ x, x < n → ∃ r', rooted (<[c:=r]> p) x r') ∧
  (∀ x y, x < n → y < n → same_set (<[c:=r]> p) x y ↔ joined p a b x y) ∧
  length (roots p) = S (length (roots (<[c:=r]> p))).
Proof.
  intros Hlen Hall Ha Hb Hne Hcr.
  assert (p !! c = Some c ∧ p !! r = Some r ∧ c ≠ r) as (Hc & Hr & Hcr').
  { pose proof (rooted_root _ _ _ Ha). pose proof (rooted_root _ _ _ Hb).
    destruct Hcr as [[-> ->]|[-> ->]]; auto. }
  split; [|split].
  - intros x [rx Hx]%Hall. eexists. apply rooted_link; eauto.
  - intros x y [rx Hx]%Hall [ry Hy]%Hall.
    assert (∀ z rz, rooted p z rz →
      rooted (<[c:=r]> p) z (if decide (rz = c) then r else rz)) as Hl.
    { intros z rz Hz. apply rooted_link; eauto. }
    rewrite (same_set_iff _ _ _ _ _ (Hl _ _ Hx) (Hl _ _ Hy)).
    unfold joined.
    rewrite (same_set_iff _ _ _ _ _ Hx Hy), (same_set_iff _ _ _ _ _ Hx Ha),
      (same_set_iff _ _ _ _ _ Hb Hy), (same_set_iff _ _ _ _ _ Hx Hb),
      (same_set_iff _ _ _ _ _ Ha Hy).
    destruct Hcr as [[-> ->]|[-> ->]]; repeat case_decide; naive_solver.
  - by apply roots_link.
Qed.

(** [union] succeeds on a well-formed state, answers whether the two
    sets were distinct, merges them, and removes one root if they were. *)
Lemma union_spec n ds a b :
  ds_wf n ds → a < n → b < n →
  ∃ ds' res, union ds a b = Ok (ds', res) ∧
    ds_wf n ds' ∧
    (res = false ↔ same_set (parent ds) a b) ∧
    (∀ x y, x < n → y < n →
       same_set (parent ds') x y ↔ joined (parent ds) a b x y) ∧
    length (roots (parent ds)) =
      length (roots (parent ds')) + (if res then 1 else 0).
Proof.
  intros (Hlen & Hrk & Hall) Ha Hb. unfold union.
  destruct (Hall a Ha) as [ra Hra].
  destruct (find_rooted ds a ra Hra) as (ds1 & -> & Hrk1 & Hlen1 & Heq1).
  simpl. destruct (Hall b Hb) as [rb Hrb].
  destruct (find_rooted ds1 b rb) as (ds2 & -> & Hrk2 & Hlen2 & Heq2);
    [by apply Heq1|].
  simpl.
  assert (∀ z rz, rooted (parent ds2) z rz ↔ rooted (parent ds) z rz) as Heq.
  { intros z rz. by rewrite Heq2, Heq1. }
  assert (∀ x y, same_set (parent ds2) x y ↔ same_set (parent ds) x y) as Hss.
  { intros x y. unfold same_set. by setoid_rewrite Heq. }
  assert (length (parent ds2) = n) as Hlen' by congruence.
  assert (length (rank ds2) = n) as Hrk' by congruence.
  assert (∀ x, x < n → ∃ r, rooted (parent ds2) x r) as Hall'.
  { intros x [r Hx]%Hall. exists r. by apply Heq. }
  assert (∀ x y, joined (parent ds2) a b x y ↔ joined (parent ds) a b x y)
    as Hj.
  { intros x y. unfold joined. by rewrite !Hss. }
  clear Heq1 Heq2 Hrk1 Hrk2 Hlen1 Hlen2.
  destruct (decide (ra = rb)) as [<-|Hne].
  - exists ds2, false. split; [done|]. split; [done|].
    assert (same_set (parent ds) a b) as Hab by by exists ra.
    split; [done|]. split.
    + intros x y _ _. rewrite Hss. unfold joined. split; [auto|].
      intros [?|[[??]|[??]]]; [done|..];
        eauto using same_set_trans, same_set_sym.
    + rewrite (roots_same (parent ds2) (parent ds)); [lia|congruence|done].
  - assert (ra < n ∧ rb < n) as [Hran Hrbn].
    { apply rooted_lt in Hra, Hrb. lia. }
    destruct (lookup_lt_is_Some_2 (rank ds2) ra) as [ka Hka]; [lia|].
    destruct (lookup_lt_is_Some_2 (rank ds2) rb) as [kb Hkb]; [lia|].
    rewrite Hka, Hkb.
    assert (∀ c r, (c = ra ∧ r = rb) ∨ (c = rb ∧ r = ra) →
      ∀ rk, length rk = n →
      let ds' := MkDS (<[c:=r]> (parent ds2)) rk in
      ds_wf n ds' ∧
      (true = false ↔ same_set (parent ds) a b) ∧
      (∀ x y, x < n → y < n →
         same_set (parent ds') x y ↔ joined (parent ds) a b x y) ∧
      length (roots (parent ds)) = length (roots (parent ds')) + 1) as Hcase.
    { intros c r Hcr rk Hrklen.
      destruct (link_spec n (parent ds2) a b ra rb c r)
        as (Hall2 & Hss2 & Hroots); [done|done|by apply Heq..|done|done|].
      simpl. split; [|split; [|split]].
      - unfold ds_wf. simpl. by rewrite length_insert.
      - split; [done|]. intros Hab. exfalso. apply Hne.
        by apply (same_set_iff (parent ds) a b).
      - intros x y Hx Hy. by rewrite Hss2, Hj.
      - rewrite (roots_same (parent ds2) (parent ds)) by (congruence || done).
        lia. }
    repeat case_decide.
    + eexists _, true. split; [done|]. apply (Hcase ra rb); auto.
    + eexists _, true. split; [done|]. apply (Hcase rb ra); auto.
    + eexists _, true. split; [done|].
      apply (Hcase rb ra); [auto|]. simpl. by rewrite length_insert.
Qed.

End union_find.

(** * Kruskal *)

Section kruskal.
Implicit Types (E F L T : list edge) (e f g : edge) (ds : DisjointSet).

#[local] Hint Constructors conn : core.

Lemma insert_by_w_perm e L : insert_by_w e L ≡ₚ e :: L.
Proof.
  induction L as [|x L IH]; simpl; [done|].
  case_decide; [done|]. by rewrite IH, Permutation_swap.
Qed.

Lemma sort_by_w_perm L : sort_by_w L ≡ₚ L.
Proof.
  induction L as [|x L IH]; simpl; [done|].
  by rewrite insert_by_w_perm, IH.
Qed.

Lemma insert_by_w_sorted e L :
  StronglySorted by_weight L → StronglySorted by_weight (insert_by_w e L).
Proof.
  induction 1 as [|x L HL IH Hx]; simpl.
  - repeat constructor.
  - case_decide as Hex.
    + constructor; [by constructor|]. constructor; [done|].
      eapply Forall_impl; [done|]. unfold by_weight. intros; simpl in *; lia.
    + constructor; [done|]. rewrite insert_by_w_perm.
      constructor; [|done]. unfold by_weight. lia.
Qed.

Lemma sort_by_w_sorted L : StronglySorted by_weight (sort_by_w L).
Proof.
  induction L as [|x L IH]; simpl; [constructor|].
  by apply insert_by_w_sorted.
Qed.

Lemma kruskal_inv_init n E :
  kruskal_inv n E (new_DisjointSet n) [].
Proof.
  split; [apply ds_wf_new|]. split; [|split; [|split; [|split]]].
  - intros x y Hx Hy. rewrite same_set_new by done.
    split; [intros ->; auto|apply conn_nil].
  - rewrite roots_new. simpl. lia.
  - apply acyclic_nil.
  - set_solver.
  - apply promising_nil.
Qed.

(** One round of the loop. *)
Lemma kruskal_step n E ds F e rest :
  in_range n E → kruskal_inv n E ds F →
  e ∈ E → StronglySorted by_weight (e :: rest) →
  (∀ g, g ∈ E → g ∈ e :: rest ∨ conn F (u g) (v g)) →
  ∃ ds' merged, union ds (u e) (v e) = Ok (ds', merged) ∧
    let F' := if merged then F ++ [e] else F in
    kruskal_inv n E ds' F' ∧
    (∀ g, g ∈ E → g ∈ rest ∨ conn F' (u g) (v g)).
Proof.
  intros Hrange (Hwf & Hrep & Hcount & Hac & Hsub & Hprom) He Hsorted Hdone.
  destruct (Hrange e He) as [Hu Hv].
  destruct (union_spec n ds (u e) (v e) Hwf Hu Hv)
    as (ds' & merged & Hunion & Hwf' & Hres & Hss & Hroots).
  exists ds', merged. split; [done|].
  destruct merged; simpl.
  - assert (¬ conn F (u e) (v e)) as Hne.
    { rewrite <-Hrep by done. intros Hs. by apply Hres in Hs. }
    assert (F ⊆ F ++ [e]) as HFF by set_solver.
    split; [split; [done|split; [|split; [|split; [|split]]]]|].
    + intros x y Hx Hy. rewrite Hss by done. unfold joined.
      rewrite !Hrep by done.
      rewrite (conn_perm (F ++ [e]) (e :: F)) by by rewrite Permutation_app_comm.
      by rewrite conn_cons.
    + rewrite length_app. simpl. lia.
    + by apply acyclic_snoc.
    + set_solver.
    + apply (cut_step n E F e (λ x, conn F (u e) x)); try done.
      * by left.
      * intros Hc. apply Hne, Hc. auto.
      * intros g Hg. split; eauto.
      * intros g Hg Hcross.
        assert (∃ g0, g0 ∈ E ∧ w g0 = w g ∧
                  (conn F (u g0) (v g0) → conn F (u g) (v g))) as
          (g0 & Hg0 & <- & Himp).
        { destruct Hg as [Hg|Hg]; [by exists g|].
          exists (flip g). split; [done|]. split; [done|]. simpl. auto. }
        destruct (Hdone g0 Hg0) as [Hin|Hc].
        -- apply elem_of_cons in Hin as [->|Hin]; [done|].
           apply StronglySorted_inv in Hsorted as [_ Hall].
           rewrite Forall_forall in Hall. by apply Hall.
        -- exfalso. apply Hcross. apply Himp in Hc. split; eauto.
    + intros g Hg. destruct (Hdone g Hg) as [[->|?]%elem_of_cons|Hc].
      * right. apply conn_edge. set_solver.
      * by left.
      * right. by eapply conn_mono.
  - assert (conn F (u e) (v e)) as Hc.
    { apply Hrep; [done..|]. by apply Hres. }
    split; [split; [done|split; [|split; [lia|done]]]|].
    + intros x y Hx Hy. rewrite Hss by done. unfold joined.
      rewrite !Hrep by done. split; [|auto].
      intros [?|[[??]|[??]]]; eauto.
    + intros g Hg. destruct (Hdone g Hg) as [[->|?]%elem_of_cons|?]; auto.
Qed.

Lemma kruskal_loop_spec n E L : in_range n E → ∀ ds F,
  kruskal_inv n E ds F → L ⊆ E → StronglySorted by_weight L →
  (∀ g, g ∈ E → g ∈ L ∨ conn F (u g) (v g)) →
  ∃ ds' F', kruskal_loop n ds F (js_total F) L = Ok (F', js_total F') ∧
    kruskal_inv n E ds' F' ∧
    (Z.of_nat (length F') = (Z.of_nat n - 1)%Z ∨
     ∀ g, g ∈ E → conn F' (u g) (v g)).
Proof.
  intros Hrange. induction L as [|e L IH]; intros ds F Hinv Hsub Hsorted Hdone.
  - exists ds, F. split; [done|]. split; [done|]. right.
    intros g Hg. destruct (Hdone g Hg) as [Hin|?]; [|done].
    by apply elem_of_nil in Hin.
  - destruct (kruskal_step n E ds F e L) as (ds' & merged & Hu & Hinv' & Hdone');
      [done|done|set_solver|done|done|].
    simpl. rewrite Hu. simpl. rewrite edge_eta.
    pose proof (js_total_snoc F e) as Hw.
    destruct merged; simpl in *.
    + case_decide as Hlen.
      * exists ds', (F ++ [e]). rewrite Hw. auto.
      * rewrite <-Hw. apply IH; [done|set_solver| |done].
        by apply StronglySorted_inv in Hsorted as [? _].
    + apply IH; [done|set_solver| |done].
      by apply StronglySorted_inv in Hsorted as [? _].
Qed.

(** One root is left exactly when the chosen forest connects all
    vertices. *)
Lemma roots_one n ds F :
  0 < n → ds_wf n ds →
  (∀ x y, x < n → y < n → same_set (parent ds) x y ↔ conn F x y) →
  length (roots (parent ds)) = 1 ↔ connected n F.
Proof.
  intros Hn (Hlen & _ & Hall) Hrep.
  assert (∀ x r, rooted (parent ds) x r → r ∈ roots (parent ds)) as Hin.
  { intros x r Hx. apply list_elem_of_filter. split; [by eapply rooted_root|].
    apply elem_of_seq. apply rooted_lt in Hx. lia. }
  split.
  - intros Hone x y Hx Hy. apply Hrep; [done..|].
    destruct (Hall x Hx) as [rx Hrx], (Hall y Hy) as [ry Hry].
    destruct (roots (parent ds)) as [|r0 [|??]] eqn:Hroots; try done.
    apply Hin in Hrx as Hrx', Hry as Hry'.
    apply list_elem_of_singleton in Hrx', Hry'. subst. by exists r0.
  - intros Hconn. destruct (Hall 0 Hn) as [r0 Hr0].
    assert (∀ r, r ∈ roots (parent ds) → r = r0) as Hall0.
    { intros r [Hr [_ Hrn]%elem_of_seq]%list_elem_of_filter.
      assert (same_set (parent ds) r 0) as Hs.
      { apply Hrep; [lia|lia|]. apply Hconn; lia. }
      apply (same_set_iff _ _ _ r r0) in Hs; [done|by constructor|done]. }
    assert (NoDup (roots (parent ds))) as Hnd.
    { apply NoDup_filter, NoDup_seq. }
    apply Hin in Hr0.
    destruct (roots (parent ds)) as [|r1 [|r2 l]]; [set_solver|done|].
    exfalso. apply NoDup_cons in Hnd as [Hnd _]. apply Hnd.
    rewrite (Hall0 r1), (Hall0 r2) by set_solver. set_solver.
Qed.

Lemma connected_mono n A B : A ⊆ B → connected n A → connected n B.
Proof. intros HAB HA x y Hx Hy. eapply conn_mono; [done|]. by apply HA. Qed.

(** What [kruskalMST] returns, in terms of the forest its loop ends
    with. *)
Lemma kruskalMST_cases n E :
  0 < n → in_range n E →
  (connected n E ∧
   ∃ F, kruskalMST n E = Ok (MkResult F (js_total F)) ∧
     length F = n - 1 ∧ F ⊆ E ∧ minimum_spanning_tree n E F) ∨
  (¬ connected n E ∧ kruskalMST n E = Err NotConnected).
Proof.
  intros Hn Hrange.
  destruct (kruskal_loop_spec n E (sort_by_w E) Hrange (new_DisjointSet n) [])
    as (ds & F & Hloop & Hinv & Hend).
  { apply kruskal_inv_init. }
  { intros g. by rewrite sort_by_w_perm. }
  { apply sort_by_w_sorted. }
  { intros g Hg. left. by rewrite sort_by_w_perm. }
  unfold kruskalMST, kruskal_sorted.
  change (js_total []) with (Num 0) in Hloop. rewrite Hloop. simpl.
  destruct Hinv as (Hwf & Hrep & Hcount & Hac & Hsub & Hprom).
  pose proof (roots_one n ds F Hn Hwf Hrep) as Hone.
  assert (connected n E ↔ connected n F) as HEF.
  { split; [|by apply connected_mono].
    intros Hconn. destruct Hend as [Hlen|Hall]; [apply Hone; lia|].
    intros x y Hx Hy. eapply conn_sub; [|by apply Hconn]. done. }
  destruct (decide (length (roots (parent ds)) = 1)) as [Hroots|Hroots].
  - left. apply Hone in Hroots as HcF. split; [by apply HEF|]. exists F.
    rewrite decide_True by lia. split; [done|]. split; [lia|].
    split; [done|]. apply promising_spanning; [done..|].
    split; [|done]. intros e He. left. by apply Hsub.
  - right. split; [by rewrite HEF, <-Hone|].
    rewrite decide_False; [done|lia].
Qed.

End kruskal.

(** * The binary heap *)

Section heap.
Implicit Types (d : list edge) (h : MinHeap) (i j k : nat) (x : edge).

Lemma parent_child j : 0 < j → child ((j - 1) / 2) j.
Proof.
  intros Hj. unfold child. pose proof (Nat.div_mod (j - 1) 2).
  pose proof (Nat.mod_upper_bound (j - 1) 2). lia.
Qed.

Lemma child_parent i j : child i j → (j - 1) / 2 = i ∧ 0 < j.
Proof.
  intros Hc. assert (0 < j) as Hj by (unfold child in Hc; lia).
  pose proof (parent_child j Hj). unfold child in *. lia.
Qed.

Lemma length_swap d i j : length (swap d i j) = length d.
Proof. unfold swap. by rewrite !length_insert. Qed.

Lemma wt_swap d i j k :
  i < length d → j < length d →
  wt (swap d i j) k =
    if decide (k = j) then wt d i
    else if decide (k = i) then wt d j else wt d k.
Proof.
  intros Hi Hj. unfold wt, swap.
  rewrite !list_lookup_total_insert, !length_insert.
  repeat case_decide; try done; intuition (subst; try lia; try done).
Qed.

Lemma insert_lookup_perm {A} `{!Inhabited A} (l : list A) j (a : A) :
  j < length l → (l !!! j) :: <[j:=a]> l ≡ₚ a :: l.
Proof.
  revert j. induction l as [|b l IH]; intros [|j] Hj; simpl in *; try lia.
  - apply Permutation_swap.
  - change ((b :: l) !!! S j) with (l !!! j).
    rewrite <-(Permutation_swap a b), <-(IH j) by lia. apply Permutation_swap.
Qed.

Lemma swap_perm d i j : i < length d → j < length d → swap d i j ≡ₚ d.
Proof.
  unfold swap. revert i j.
  induction d as [|a d IH]; intros [|i] [|j] Hi Hj; simpl in *; try lia.
  - done.
  - by apply insert_lookup_perm; lia.
  - by apply insert_lookup_perm; lia.
  - f_equiv. apply IH; lia.
Qed.

Lemma bubbleUp_loop_S fuel d i :
  bubbleUp_loop (S fuel) d i =
    if decide (0 < i) then
      if decide (wt d ((i - 1) / 2) ≤ wt d i)%Z then d
      else bubbleUp_loop fuel (swap d ((i - 1) / 2) i) ((i - 1) / 2)
    else d.
Proof. done. Qed.

(** [bubbleUp] restores the heap order when only the entry at [i] may be
    lighter than its parent. *)
Lemma bubbleUp_loop_ok fuel d i :
  i ≤ fuel → i < length d → up_ok d i →
  heap_ok (bubbleUp_loop fuel d i) ∧ bubbleUp_loop fuel d i ≡ₚ d.
Proof.
  revert d i. induction fuel as [|fuel IH]; intros d i Hfuel Hi [Hup1 Hup2].
  - simpl. split; [|done]. intros a b Hb Hab. apply Hup1; [done..|].
    unfold child in Hab. lia.
  - rewrite bubbleUp_loop_S. case_decide as Hpos.
    + pose proof (parent_child i Hpos) as Hp.
      set (p := (i - 1) / 2) in *. clearbody p.
      assert (p < i) as Hpi by (unfold child in Hp; lia).
      case_decide as Hle.
      * split; [|done]. intros a b Hb Hab.
        destruct (decide (b = i)) as [->|Hbi]; [|by apply Hup1].
        assert (a = p) as -> by (unfold child in *; lia). done.
      * destruct (IH (swap d p i) p) as [Hok Hperm].
        { lia. }
        { rewrite length_swap. lia. }
        { split.
          - intros a b Hb Hab Hbp. rewrite length_swap in Hb.
            rewrite !wt_swap by lia.
            pose proof (Hup1 a b Hb Hab).
            pose proof (Hup1 p b Hb).
            pose proof (Hup2 p b Hb).
            unfold child in *. repeat case_decide; subst; lia.
          - intros g b Hb Hpb Hgp. rewrite length_swap in Hb.
            rewrite !wt_swap by lia.
            pose proof (Hup1 g p).
            pose proof (Hup1 p b Hb).
            unfold child in *. repeat case_decide; subst; lia. }
        split; [done|]. rewrite Hperm. apply swap_perm; lia.
    + split; [|done]. intros a b Hb Hab. apply Hup1; [done..|].
      unfold child in Hab. lia.
Qed.

(** The fuel of [bubbleUp] never cuts the loop short: with [i] rounds or
    more the result is the same, and [bubbleUp] satisfies the equation of
    the [while] loop. *)
Lemma bubbleUp_loop_fuel f1 f2 d i :
  i ≤ f1 → i ≤ f2 → bubbleUp_loop f1 d i = bubbleUp_loop f2 d i.
Proof.
  revert f2 d i. induction f1 as [|f1 IH]; intros f2 d i H1 H2.
  - assert (i = 0) as -> by lia. destruct f2; [done|].
    rewrite bubbleUp_loop_S. by rewrite decide_False by lia.
  - destruct f2 as [|f2].
    + assert (i = 0) as -> by lia.
      rewrite bubbleUp_loop_S. by rewrite decide_False by lia.
    + rewrite !bubbleUp_loop_S. repeat case_decide; try done.
      pose proof (parent_child i ltac:(done)) as Hp.
      apply IH; unfold child in Hp; lia.
Qed.

Lemma bubbleUp_unfold d i :
  bubbleUp d i =
    if decide (0 < i) then
      if decide (wt d ((i - 1) / 2) ≤ wt d i)%Z then d
      else bubbleUp (swap d ((i - 1) / 2) i) ((i - 1) / 2)
    else d.
Proof.
  unfold bubbleUp. destruct i as [|i]; [done|].
  rewrite bubbleUp_loop_S. repeat case_decide; try done.
  pose proof (parent_child (S i) ltac:(done)) as Hp.
  apply bubbleUp_loop_fuel; unfold child in Hp; lia.
Qed.

Lemma bubbleUp_ok d i :
  i < length d → up_ok d i → heap_ok (bubbleUp d i) ∧ bubbleUp d i ≡ₚ d.
Proof. intros. by apply bubbleUp_loop_ok. Qed.

Lemma smallest_of_spec d i :
  (smallest_of d i = i ∧
   ∀ j, j < length d → child i j → (wt d i ≤ wt d j)%Z) ∨
  (child i (smallest_of d i) ∧ smallest_of d i < length d ∧
   (wt d (smallest_of d i) < wt d i)%Z ∧
   ∀ j, j < length d → child i j → (wt d (smallest_of d i) ≤ wt d j)%Z).
Proof.
  unfold smallest_of, child. cbv zeta.
  repeat case_decide.
  - right. repeat split; [lia..|]. intros j ? [->| ->]; lia.
  - right. repeat split; [lia..|]. intros j ? [->| ->]; lia.
  - right. repeat split; [lia..|]. intros j ? [->| ->]; lia.
  - left. split; [done|]. intros j ? [->| ->]; lia.
Qed.

Lemma bubbleDown_loop_S fuel d i :
  bubbleDown_loop (S fuel) d i =
    if decide (smallest_of d i = i) then d
    else bubbleDown_loop fuel (swap d i (smallest_of d i)) (smallest_of d i).
Proof. done. Qed.

(** [bubbleDown] restores the heap order when only the entry at [i] may
    be heavier than its children. *)
Lemma bubbleDown_loop_ok fuel d i :
  length d ≤ fuel + i → i < length d → down_ok d i →
  heap_ok (bubbleDown_loop fuel d i) ∧ bubbleDown_loop fuel d i ≡ₚ d.
Proof.
  revert d i. induction fuel as [|fuel IH]; intros d i Hfuel Hi [Hd1 Hd2];
    [lia|].
  rewrite bubbleDown_loop_S.
  destruct (smallest_of_spec d i) as [[-> Hmin]|(Hc & Hs & Hlt & Hmin)].
  - rewrite decide_True by done. split; [|done]. intros a b Hb Hab.
    destruct (decide (a = i)) as [->|Hai]; [by apply Hmin|by apply Hd1].
  - set (s := smallest_of d i) in *. clearbody s.
    assert (i < s) as His by (unfold child in Hc; lia).
    rewrite decide_False by lia.
    destruct (IH (swap d i s) s) as [Hok Hperm].
    { rewrite length_swap. lia. }
    { by rewrite length_swap. }
    { split.
      - intros a b Hb Hab Has. rewrite length_swap in Hb.
        rewrite !wt_swap by lia.
        pose proof (Hd1 a b Hb Hab).
        pose proof (Hmin b Hb).
        pose proof (Hd2 a s Hs Hc).
        unfold child in *. repeat case_decide; subst; lia.
      - intros g b Hb Hsb Hgs. rewrite length_swap in Hb.
        rewrite !wt_swap by lia.
        pose proof (Hd1 s b Hb Hsb).
        unfold child in *. repeat case_decide; subst; lia. }
    split; [done|]. rewrite Hperm. apply swap_perm; lia.
Qed.

Lemma smallest_of_cases d i :
  smallest_of d i = i ∨
  (i < smallest_of d i ∧ smallest_of d i < length d).
Proof.
  destruct (smallest_of_spec d i) as [[? _]|(Hc & ? & _)]; [by left|].
  right. unfold child in Hc. lia.
Qed.

(** Likewise for [bubbleDown]. *)
Lemma bubbleDown_loop_fuel f1 f2 d i :
  length d ≤ f1 + i → length d ≤ f2 + i →
  bubbleDown_loop f1 d i = bubbleDown_loop f2 d i.
Proof.
  revert f2 d i. induction f1 as [|f1 IH]; intros [|f2] d i H1 H2;
    rewrite ?bubbleDown_loop_S;
    destruct (smallest_of_cases d i) as [Heq|[? ?]];
    rewrite ?(decide_True _ _ Heq); try done; try lia.
  rewrite !decide_False by lia. apply IH; rewrite length_swap; lia.
Qed.

Lemma bubbleDown_unfold d i :
  bubbleDown d i =
    if decide (smallest_of d i = i) then d
    else bubbleDown (swap d i (smallest_of d i)) (smallest_of d i).
Proof.
  unfold bubbleDown. destruct (smallest_of_cases d i) as [Heq|[? ?]].
  - rewrite decide_True by done. destruct (length d); [done|].
    rewrite bubbleDown_loop_S. by rewrite decide_True.
  - rewrite decide_False by lia. rewrite length_swap.
    destruct (length d) as [|k] eqn:Hlen; [lia|].
    rewrite bubbleDown_loop_S, decide_False by lia.
    apply bubbleDown_loop_fuel; rewrite length_swap; lia.
Qed.

Lemma bubbleDown_ok d i :
  i < length d → down_ok d i →
  heap_ok (bubbleDown d i) ∧ bubbleDown d i ≡ₚ d.
Proof. intros. apply bubbleDown_loop_ok; [lia|done..]. Qed.

Lemma heap_ok_nil : heap_ok [].
Proof. intros i j Hj. simpl in Hj. lia. Qed.

Lemma wt_lookup d i x : d !! i = Some x → wt d i = w x.
Proof. intros Hx. unfold wt. by rewrite (list_lookup_total_correct _ _ _ Hx). Qed.

(** The root of a heap is a lightest entry. *)
Lemma heap_root_min d i : heap_ok d → i < length d → (wt d 0 ≤ wt d i)%Z.
Proof.
  intros Hok. induction (lt_wf i) as [i _ IH]. intros Hi.
  destruct (decide (i = 0)) as [->|Hne]; [done|].
  pose proof (parent_child i ltac:(lia)) as Hp.
  set (p := (i - 1) / 2) in *. clearbody p.
  assert (p < i) by (unfold child in Hp; lia).
  etrans; [apply (IH p); lia|]. by apply Hok.
Qed.

Lemma push_ok h x :
  heap_ok (data h) →
  heap_ok (data (push h x)) ∧ data (push h x) ≡ₚ x :: data h.
Proof.
  intros Hok. unfold push. simpl.
  rewrite length_app. simpl.
  replace (length (data h) + 1 - 1) with (length (data h)) by lia.
  destruct (bubbleUp_ok (data h ++ [x]) (length (data h))) as [Hok' Hperm].
  { rewrite length_app. simpl. lia. }
  { split.
    - intros i j Hj Hij Hne. rewrite length_app in Hj. simpl in Hj.
      assert (i < j) by (unfold child in Hij; lia).
      unfold wt. rewrite !lookup_total_app_l by lia. apply Hok; [lia|done].
    - intros g j Hj Hkj. rewrite length_app in Hj. simpl in Hj.
      unfold child in *. lia. }
  split; [done|]. by rewrite Hperm, Permutation_app_comm.
Qed.

Lemma pop_nil : pop (MkHeap []) = (None, MkHeap []).
Proof. done. Qed.

Lemma pop_singleton x : pop (MkHeap [x]) = (Some x, MkHeap []).
Proof. done. Qed.

Lemma pop_snoc top t x :
  pop (MkHeap (top :: t ++ [x])) =
    (Some top, MkHeap (bubbleDown (x :: t) 0)).
Proof.
  unfold pop. simpl data. cbv zeta.
  assert (length (top :: t ++ [x]) - 1 = length (top :: t)) as ->.
  { simpl. rewrite length_app. simpl. lia. }
  change (top :: t ++ [x]) with ((top :: t) ++ [x]).
  rewrite (list_lookup_total_middle (top :: t) [] x) by done.
  rewrite (take_app_length (top :: t) [x]).
  rewrite decide_True by (simpl; lia). done.
Qed.

(** [pop] on a heap: the empty signal exactly on the empty heap, and
    otherwise a lightest entry, leaving a heap of the other entries. *)
Lemma pop_ok h :
  heap_ok (data h) →
  match pop h with
  | (None, h') => data h = [] ∧ h' = h
  | (Some x, h') =>
      heap_ok (data h') ∧ data h ≡ₚ x :: data h' ∧
      ∀ y, y ∈ data h → (w x ≤ w y)%Z
  end.
Proof.
  destruct h as [d]. simpl. intros Hok.
  assert (∀ top l y, d = top :: l → y ∈ d → (w top ≤ w y)%Z) as Hmin.
  { intros top l y -> [i Hi]%list_elem_of_lookup.
    rewrite <-(wt_lookup _ _ _ Hi).
    change (w top) with (wt (top :: l) 0).
    apply heap_root_min; [done|]. by eapply lookup_lt_Some. }
  destruct d as [|top d]; [done|].
  destruct d as [|y d _] using rev_ind.
  - rewrite pop_singleton. simpl. split; [apply heap_ok_nil|].
    split; [done|]. intros y Hy. by apply (Hmin top [] y).
  - rewrite pop_snoc. simpl.
    destruct (bubbleDown_ok (y :: d) 0) as [Hok' Hperm].
    { simpl. lia. }
    { split.
      - intros i j Hj Hij Hi.
        assert (i < j) by (unfold child in Hij; lia).
        assert (wt (y :: d) i = wt (top :: d ++ [y]) i) as ->.
        { destruct i; [done|]. unfold wt. simpl in *.
          change ((y :: d) !!! S i) with (d !!! i).
          change ((top :: d ++ [y]) !!! S i) with ((d ++ [y]) !!! i).
          rewrite lookup_total_app_l by lia. done. }
        assert (wt (y :: d) j = wt (top :: d ++ [y]) j) as ->.
        { destruct j; [lia|]. unfold wt. simpl in *.
          change ((y :: d) !!! S j) with (d !!! j).
          change ((top :: d ++ [y]) !!! S j) with ((d ++ [y]) !!! j).
          rewrite lookup_total_app_l by lia. done. }
        apply Hok; [|done]. simpl in *. rewrite length_app. simpl. lia.
      - intros g j _ _ Hg. unfold child in Hg. lia. }
    split; [done|]. split.
    + rewrite Hperm. f_equiv. by rewrite Permutation_app_comm.
    + intros z Hz. by apply (Hmin top (d ++ [y]) z).
Qed.

Lemma push_all_ok items :
  heap_ok (data (push_all items)) ∧ data (push_all items) ≡ₚ items.
Proof.
  unfold push_all.
  assert (∀ h, heap_ok (data h) →
    heap_ok (data (foldl push h items)) ∧
    data (foldl push h items) ≡ₚ items ++ data h) as Hgen.
  { induction items as [|x items IH]; intros h Hok; simpl; [done|].
    destruct (push_ok h x Hok) as [Hok' Hperm].
    destruct (IH _ Hok') as [? Hperm']. split; [done|].
    by rewrite Hperm', Hperm, Permutation_middle. }
  destruct (Hgen new_MinHeap heap_ok_nil) as [? Hperm]. split; [done|].
  simpl in Hperm. by rewrite app_nil_r in Hperm.
Qed.

(** Popping a heap until it is empty takes one pop per entry and one
    more, and yields the entries in ascending order of weight. *)
Lemma drain_ok fuel h :
  heap_ok (data h) → length (data h) < fuel →
  ∃ out, drain fuel h = Some out ∧ out ≡ₚ data h ∧
    StronglySorted by_weight out.
Proof.
  revert h. induction fuel as [|fuel IH]; intros h Hok Hfuel; [lia|].
  simpl. pose proof (pop_ok h Hok) as Hpop.
  destruct (pop h) as [[x|] h'].
  - destruct Hpop as (Hok' & Hperm & Hmin).
    destruct (IH h' Hok') as (out & -> & Hout & Hsorted).
    { rewrite Hperm in Hfuel. simpl in Hfuel. lia. }
    exists (x :: out). split; [done|]. split; [by rewrite Hperm, Hout|].
    constructor; [done|]. apply Forall_forall. intros y Hy.
    apply Hmin. rewrite Hperm, <-Hout. apply elem_of_cons. by right.
  - destruct Hpop as [-> _]. exists []. split; [done|]. split; [done|].
    constructor.
Qed.

Lemma run_ops_ok ops : heap_ok (data (run_ops ops)).
Proof.
  unfold run_ops.
  assert (∀ h, heap_ok (data h) → heap_ok (data (foldl apply_op h ops)))
    as Hgen.
  { induction ops as [|op ops IH]; intros h Hok; simpl; [done|].
    apply IH. destruct op as [x|]; simpl.
    - by apply push_ok.
    - pose proof (pop_ok h Hok) as Hpop.
      destruct (pop h) as [[x|] h']; simpl.
      + by destruct Hpop.
      + by destruct Hpop as [_ ->]. }
  apply Hgen, heap_ok_nil.
Qed.

End heap.

(** * Prim *)

Section prim.
Implicit Types (E F : list edge) (e g : edge) (h : MinHeap)
  (adj : list (list Adj.entry)) (row : list Adj.entry) (V : gset nat).

#[local] Hint Constructors conn : core.

Lemma in_graph_cons E e g :
  in_graph (e :: E) g ↔ g = e ∨ flip g = e ∨ in_graph E g.
Proof. unfold in_graph. rewrite !elem_of_cons. tauto. Qed.

Lemma in_graph_nil g : ¬ in_graph [] g.
Proof. unfold in_graph. rewrite !elem_of_nil. tauto. Qed.

Lemma buildAdj_loop_spec n E adj0 :
  in_range n E → length adj0 = n →
  ∃ adj, buildAdj_loop adj0 E = Ok adj ∧ length adj = n ∧
    ∀ x row, adj !! x = Some row →
      ∃ row0, adj0 !! x = Some row0 ∧
        ∀ t c, Adj.Entry t c ∈ row ↔
          Adj.Entry t c ∈ row0 ∨ in_graph E (Edge x t c).
Proof.
  revert adj0. induction E as [|e E IH]; intros adj0 Hrange Hlen.
  - exists adj0. split; [done|]. split; [done|]. intros x row Hx.
    exists row. split; [done|]. intros t c. pose proof (in_graph_nil (Edge x t c)).
    tauto.
  - destruct (Hrange e) as [Hu Hv]; [set_solver|].
    simpl. unfold adj_push at 2.
    destruct (lookup_lt_is_Some_2 adj0 (u e)) as [ru Hru]; [lia|].
    rewrite Hru. simpl. unfold adj_push.
    destruct (lookup_lt_is_Some_2 (<[u e:=ru ++ [Adj.Entry (v e) (w e)]]> adj0)
                (v e)) as [rv Hrv]; [rewrite length_insert; lia|].
    rewrite Hrv. simpl.
    destruct (IH (<[v e:=rv ++ [Adj.Entry (u e) (w e)]]>
                   (<[u e:=ru ++ [Adj.Entry (v e) (w e)]]> adj0)))
      as (adj & -> & Hlen' & Hrows).
    { intros g Hg. apply Hrange. set_solver. }
    { by rewrite !length_insert. }
    exists adj. split; [done|]. split; [done|]. intros x row Hx.
    destruct (Hrows x row Hx) as (row1 & Hx1 & Hrow1).
    assert (x < n) as Hxn.
    { apply lookup_lt_Some in Hx1. by rewrite !length_insert, Hlen in Hx1. }
    destruct (lookup_lt_is_Some_2 adj0 x) as [row0 Hx0]; [lia|].
    exists row0. split; [done|]. intros t c. rewrite Hrow1, in_graph_cons.
    assert (Adj.Entry t c ∈ row1 ↔
      Adj.Entry t c ∈ row0 ∨ Edge x t c = e ∨ flip (Edge x t c) = e) as ->;
      [|tauto].
    assert (∀ a b, Adj.Entry t c = Adj.Entry a b ↔ t = a ∧ c = b) as Hent.
    { intros a b. split; [by intros [= -> ->]|by intros [-> ->]]. }
    assert (Edge x t c = e ↔ x = u e ∧ t = v e ∧ c = w e) as ->.
    { destruct e; simpl. split; [by intros [= -> -> ->]|by intros (-> & -> & ->)]. }
    assert (flip (Edge x t c) = e ↔ x = v e ∧ t = u e ∧ c = w e) as ->.
    { destruct e; simpl. unfold flip; simpl.
      split; [by intros [= -> -> ->]|by intros (-> & -> & ->)]. }
    destruct (decide (x = v e)) as [->|Hxv].
    + rewrite list_lookup_insert_eq in Hx1 by (rewrite length_insert; lia).
      injection Hx1 as <-. rewrite elem_of_app, list_elem_of_singleton, Hent.
      destruct (decide (v e = u e)) as [Heq|Hne].
      * rewrite Heq in *. rewrite list_lookup_insert_eq in Hrv by lia.
        injection Hrv as <-.
        rewrite elem_of_app, list_elem_of_singleton, Hent.
        assert (ru = row0) as -> by congruence. tauto.
      * rewrite list_lookup_insert_ne in Hrv by done.
        assert (rv = row0) as -> by congruence. intuition congruence.
    + rewrite list_lookup_insert_ne in Hx1 by done.
      destruct (decide (x = u e)) as [->|Hxu].
      * rewrite list_lookup_insert_eq in Hx1 by lia.
        injection Hx1 as <-. rewrite elem_of_app, list_elem_of_singleton, Hent.
        assert (ru = row0) as -> by congruence. intuition congruence.
      * rewrite list_lookup_insert_ne in Hx1 by done.
        assert (row1 = row0) as -> by congruence. intuition congruence.
Qed.

(** [buildAdj] succeeds on an edge list in range and lists every edge at
    both of its end points. *)
Lemma buildAdj_spec n E :
  in_range n E → ∃ adj, buildAdj n E = Ok adj ∧ adj_of n E adj.
Proof.
  intros Hrange.
  destruct (buildAdj_loop_spec n E (replicate n []) Hrange)
    as (adj & Hb & Hlen & Hrows); [apply length_replicate|].
  exists adj. split; [done|]. split; [done|]. intros x row Hx t c.
  destruct (Hrows x row Hx) as (row0 & [-> _]%lookup_replicate_1 & ->).
  rewrite elem_of_nil. tauto.
Qed.

Lemma push_unvisited_ok V h from row :
  heap_ok (data h) →
  heap_ok (data (push_unvisited V h from row)) ∧
  data (push_unvisited V h from row) ≡ₚ
    (item_of from <$> filter (λ a, Adj.to a ∉ V) row) ++ data h.
Proof.
  unfold push_unvisited. revert h.
  induction row as [|a row IH]; intros h Hok; simpl; [done|].
  rewrite filter_cons. case_decide as Hin.
  - rewrite decide_False by tauto. by apply IH.
  - rewrite decide_True by done.
    destruct (push_ok h (item_of from a) Hok) as [Hok' Hperm].
    destruct (IH _ Hok') as [Hok'' Hperm'].
    split; [done|]. rewrite Hperm', Hperm. simpl.
    by rewrite Permutation_middle.
Qed.

Lemma push_row_unvisited h from row :
  push_row h from row = push_unvisited ∅ h from row.
Proof.
  unfold push_row, push_unvisited. revert h.
  induction row as [|a row IH]; intros h; simpl; [done|].
  rewrite decide_False by set_solver. apply IH.
Qed.

Lemma push_row_ok h from row :
  heap_ok (data h) →
  heap_ok (data (push_row h from row)) ∧
  data (push_row h from row) ≡ₚ (item_of from <$> row) ++ data h.
Proof.
  intros Hok. rewrite push_row_unvisited.
  destruct (push_unvisited_ok ∅ h from row Hok) as [? Hperm].
  split; [done|]. rewrite Hperm. do 2 f_equiv.
  clear. induction row as [|a row IH]; [done|].
  rewrite filter_cons_True by set_solver. by rewrite IH.
Qed.

Lemma pending_from_empty i adj :
  pending_from i adj ∅ = length (concat adj).
Proof.
  revert i. induction adj as [|row adj IH]; intros i; simpl; [done|].
  rewrite decide_False by set_solver. rewrite length_app, IH. lia.
Qed.

Lemma pending_from_skip i adj V x :
  x < i → pending_from i adj ({[x]} ∪ V) = pending_from i adj V.
Proof.
  revert i. induction adj as [|row adj IH]; intros i Hx; simpl; [done|].
  rewrite IH by lia. f_equal.
  destruct (decide (i ∈ V)).
  - rewrite !decide_True; set_solver.
  - rewrite !decide_False; [done..|]. intros [?%elem_of_singleton|?]%elem_of_union; [lia|done].
Qed.

(** Visiting a vertex takes its row out of the pending entries. *)
Lemma pending_from_visit i adj V x row :
  adj !! x = Some row → i + x ∉ V →
  pending_from i adj V = pending_from i adj ({[i + x]} ∪ V) + length row.
Proof.
  revert i x. induction adj as [|r adj IH]; intros i x Hrow Hx; [done|].
  destruct x as [|x]; simpl in *.
  - injection Hrow as ->. rewrite Nat.add_0_r in *.
    rewrite pending_from_skip by lia.
    rewrite decide_False by done. rewrite decide_True by set_solver. lia.
  - replace (i + S x) with (S i + x) in * by lia.
    rewrite (IH (S i) x) by done.
    destruct (decide (i ∈ V)).
    + rewrite decide_True by set_solver. lia.
    + rewrite decide_False; [lia|].
      intros [?%elem_of_singleton|?]%elem_of_union; [lia|done].
Qed.

Lemma prim_loop_S fuel n adj V h F tot :
  prim_loop (S fuel) n adj V h F tot =
    if decide (0 < size_of h ∧ (Z.of_nat (length F) < Z.of_nat n - 1)%Z)
    then
      match pop h with
      | (None, _) => Err TypeError
      | (Some item, h') =>
          if decide (v item ∈ V)
          then prim_loop fuel n adj V h' F tot
          else
            match adj !! v item with
            | None => Err TypeError
            | Some row =>
                prim_loop fuel n adj ({[v item]} ∪ V)
                  (push_unvisited ({[v item]} ∪ V) h' (v item) row)
                  (F ++ [Edge (u item) (v item) (w item)])
                  (js_add tot (w item))
            end
      end
    else Ok (F, tot).
Proof. done. Qed.

(** A popped entry that leads to a visited vertex is dropped. *)
Lemma prim_inv_stale n E start V h h' F item :
  prim_inv n E start V h F →
  heap_ok (data h') → data h ≡ₚ item :: data h' → v item ∈ V →
  prim_inv n E start V h' F.
Proof.
  intros (H1 & H2 & H3 & H4 & H5 & H6 & H7 & H8 & H9 & H10) Hok Hperm Hv.
  do 7 (split; [done|]). split; [|split; [|done]].
  - intros it Hit. apply H8. rewrite Hperm. apply elem_of_cons. by right.
  - intros g Hg Hu Hnv. specialize (H9 g Hg Hu Hnv). rewrite Hperm in H9.
    apply elem_of_cons in H9 as [->|?]; done.
Qed.

(** A popped lightest entry that leads to a new vertex extends the
    tree. *)
Lemma prim_inv_grow n E adj start V h h' F item row :
  in_range n E → adj_of n E adj →
  prim_inv n E start V h F →
  heap_ok (data h') → data h ≡ₚ item :: data h' →
  (∀ y, y ∈ data h → (w item ≤ w y)%Z) →
  v item ∉ V → adj !! v item = Some row →
  prim_inv n E start ({[v item]} ∪ V)
    (push_unvisited ({[v item]} ∪ V) h' (v item) row) (F ++ [item]).
Proof.
  intros Hrange [Hlen Hadj]
    (H1 & H2 & H3 & H4 & H5 & H6 & H7 & H8 & H9 & H10) Hok Hperm Hmin Hv Hrow.
  assert (item ∈ data h) as Hitem.
  { rewrite Hperm. apply elem_of_cons. by left. }
  destruct (H8 item Hitem) as [HuV HitemE].
  destruct (in_graph_range n E item Hrange HitemE) as [Hun Hvn].
  destruct (push_unvisited_ok ({[v item]} ∪ V) h' (v item) row Hok)
    as [Hok' Hperm'].
  assert (∀ g, g ∈ F → u g ∈ V ↔ v g ∈ V) as HFV.
  { intros g Hg. destruct (H3 g Hg) as (? & ? & _). tauto. }
  assert (F ⊆ F ++ [item]) as HFF.
  { intros g Hg. apply elem_of_app. by left. }
  assert (∀ x, x ∈ V → x ∈ {[v item]} ∪ V) as HVV.
  { intros x Hx. apply elem_of_union. by right. }
  assert (v item ∈ {[v item]} ∪ V) as HvV.
  { apply elem_of_union. left. by apply elem_of_singleton. }
  split; [by apply HVV|]. split; [|split; [|split; [|split; [|split;
    [|split; [|split; [|split]]]]]]].
  - intros x [->%elem_of_singleton|Hx]%elem_of_union; auto.
  - intros e [He| ->%list_elem_of_singleton]%elem_of_app.
    + destruct (H3 e He) as (? & ? & ?). auto.
    + auto.
  - intros x [->%elem_of_singleton|Hx]%elem_of_union.
    + apply conn_trans with (u item).
      * eapply conn_mono; [done|]. by apply H4.
      * apply conn_edge. apply elem_of_app. right.
        by apply list_elem_of_singleton.
    + eapply conn_mono; [done|]. by apply H4.
  - apply acyclic_snoc. split; [|done]. intros Hc.
    apply Hv. by apply (conn_cut F (λ x, x ∈ V) _ _ HFV Hc).
  - rewrite size_union, size_singleton, H6, length_app.
    + simpl. lia.
    + apply disjoint_singleton_l. done.
  - done.
  - intros it. rewrite Hperm'. intros [Hit|Hit]%elem_of_app.
    + apply list_elem_of_fmap in Hit as (a & -> & [Ha Har]%list_elem_of_filter).
      split; [done|]. destruct a as [t c]. by apply (Hadj _ _ Hrow).
    + destruct (H8 it) as [? ?]; [|by auto].
      rewrite Hperm. apply elem_of_cons. by right.
  - intros g Hg Hu Hnv. rewrite Hperm'. apply elem_of_app.
    apply elem_of_union in Hu as [Hu%elem_of_singleton|Hu].
    + left. apply list_elem_of_fmap. exists (Adj.Entry (v g) (w g)). split.
      * unfold item_of. simpl. rewrite <-Hu. by destruct g.
      * apply list_elem_of_filter. split; [done|].
        apply (Hadj _ _ Hrow). rewrite <-Hu. by rewrite edge_eta.
    + right. assert (g ∈ data h) as Hgh.
      { apply H9; [done..|]. intros HgV. by apply Hnv, HVV. }
      rewrite Hperm in Hgh. apply elem_of_cons in Hgh as [->|?]; done.
  - apply (cut_step n E F item (λ x, x ∈ V)); try done.
    + tauto.
    + intros g Hg Hcross.
      destruct (decide (u g ∈ V)) as [Hu|Hu].
      * apply Hmin, H9; [done..|tauto].
      * assert (v g ∈ V) as Hvg.
        { destruct (decide (v g ∈ V)); [done|tauto]. }
        change (w g) with (w (flip g)). apply Hmin, H9; [|done..].
        by apply in_graph_flip.
Qed.

(** The loop ends within its fuel, in a state where the heap is empty or
    enough edges are chosen. *)
Lemma prim_loop_spec n E adj start :
  in_range n E → adj_of n E adj → ∀ fuel V h F,
  prim_inv n E start V h F →
  length (data h) + pending_from 0 adj V < fuel →
  ∃ V' h' F', prim_loop fuel n adj V h F (js_total F) = Ok (F', js_total F') ∧
    prim_inv n E start V' h' F' ∧
    (data h' = [] ∨ ¬ (Z.of_nat (length F') < Z.of_nat n - 1)%Z).
Proof.
  intros Hrange Hadj. induction fuel as [|fuel IH]; intros V h F Hinv Hfuel;
    [lia|].
  rewrite prim_loop_S. case_decide as Hcond.
  - destruct Hcond as [Hsize _]. unfold size_of in Hsize.
    assert (heap_ok (data h)) as Hok by apply Hinv.
    pose proof (pop_ok h Hok) as Hpop.
    destruct (pop h) as [[item|] h'].
    2: { destruct Hpop as [Hnil _]. rewrite Hnil in Hsize. simpl in Hsize. lia. }
    destruct Hpop as (Hok' & Hperm & Hmin).
    assert (length (data h) = S (length (data h'))) as Hlen.
    { by rewrite Hperm. }
    case_decide as Hv.
    + apply IH; [by eapply prim_inv_stale|lia].
    + assert (item ∈ data h) as Hitem by (rewrite Hperm; set_solver).
      assert (v item < n) as Hvn.
      { destruct Hinv as (_ & _ & _ & _ & _ & _ & _ & H8 & _).
        destruct (H8 item Hitem) as [_ HE].
        by destruct (in_graph_range n E item Hrange HE). }
      destruct (lookup_lt_is_Some_2 adj (v item)) as [row Hrow].
      { destruct Hadj as [-> _]. done. }
      rewrite Hrow, edge_eta.
      rewrite <-js_total_snoc. apply IH; [by eapply prim_inv_grow|].
      destruct (push_unvisited_ok ({[v item]} ∪ V) h' (v item) row Hok')
        as [_ Hperm'].
      rewrite Hperm', length_app, length_fmap.
      pose proof (length_filter (λ a, Adj.to a ∉ {[v item]} ∪ V) row).
      pose proof (pending_from_visit 0 adj V (v item) row Hrow Hv).
      simpl in *. lia.
  - exists V, h, F. split; [done|]. split; [done|].
    unfold size_of in Hcond. destruct (data h); [by left|].
    right. simpl in Hcond. intros ?. apply Hcond. split; [lia|done].
Qed.

Lemma prim_inv_init n E adj start row :
  adj_of n E adj → start < n → adj !! start = Some row →
  prim_inv n E start {[start]} (push_row new_MinHeap start row) [].
Proof.
  intros [Hlen Hadj] Hstart Hrow.
  destruct (push_row_ok new_MinHeap start row heap_ok_nil) as [Hok Hperm].
  simpl in Hperm. rewrite app_nil_r in Hperm.
  split; [by apply elem_of_singleton|]. split; [|split; [|split; [|split; [|split;
    [|split; [|split; [|split]]]]]]].
  - intros x ->%elem_of_singleton. done.
  - intros e He. by apply elem_of_nil in He.
  - intros x ->%elem_of_singleton. constructor.
  - apply acyclic_nil.
  - by rewrite size_singleton.
  - done.
  - intros it. rewrite Hperm.
    intros (a & -> & Ha)%list_elem_of_fmap.
    split; [by apply elem_of_singleton|].
    destruct a as [t c]. by apply (Hadj _ _ Hrow).
  - intros g Hg Hu%elem_of_singleton Hnv. rewrite Hperm.
    apply list_elem_of_fmap. exists (Adj.Entry (v g) (w g)). split.
    + unfold item_of. simpl. rewrite <-Hu. by destruct g.
    + apply (Hadj _ _ Hrow). rewrite <-Hu. by rewrite edge_eta.
  - apply promising_nil.
Qed.

(** All vertices are visited exactly when the count says so. *)
Lemma visited_all n V :
  (∀ x, x ∈ V → x < n) → size V = n ↔ ∀ x, x < n → x ∈ V.
Proof.
  intros Hsub.
  assert (V ⊆ set_seq 0 n) as Hsub'.
  { intros x Hx. apply elem_of_set_seq. apply Hsub in Hx. lia. }
  split.
  - intros Hsize x Hx.
    rewrite (set_subseteq_size_eq V (set_seq 0 n)); [|done|].
    + apply elem_of_set_seq. lia.
    + by rewrite size_set_seq, Hsize.
  - intros Hall. apply Nat.le_antisymm.
    + rewrite <-(size_set_seq (C := gset nat) 0 n). by apply subseteq_size.
    + rewrite <-(size_set_seq (C := gset nat) 0 n). apply subseteq_size.
      intros x [_ Hx]%elem_of_set_seq. apply Hall. lia.
Qed.

(** What [primMST] returns on the adjacency lists of a graph. *)
Lemma primMST_cases n E adj start :
  in_range n E → adj_of n E adj → start < n →
  (connected n E ∧
   ∃ F, primMST n adj start = Ok (MkResult F (js_total F)) ∧
     length F = n - 1 ∧ minimum_spanning_tree n E F) ∨
  (¬ connected n E ∧ primMST n adj start = Err NotConnected).
Proof.
  intros Hrange Hadj Hstart. unfold primMST.
  destruct (lookup_lt_is_Some_2 adj start) as [row Hrow].
  { destruct Hadj as [-> _]. done. }
  rewrite Hrow.
  pose proof (prim_inv_init n E adj start row Hadj Hstart Hrow) as Hinit.
  destruct (prim_loop_spec n E adj start Hrange Hadj (prim_fuel adj)
              {[start]} (push_row new_MinHeap start row) [] Hinit)
    as (V & h & F & Hloop & Hinv & Hend).
  { destruct (push_row_ok new_MinHeap start row heap_ok_nil) as [_ Hperm].
    rewrite Hperm, length_app, length_fmap. simpl.
    pose proof (pending_from_visit 0 adj ∅ start row Hrow) as Hp.
    rewrite pending_from_empty in Hp. simpl in Hp.
    replace ({[start]} ∪ ∅ : gset nat) with ({[start]} : gset nat) in Hp
      by set_solver.
    unfold prim_fuel. rewrite Hp by set_solver. lia. }
  change (js_total []) with (Num 0) in Hloop. rewrite Hloop. simpl.
  destruct Hinv as (H1 & H2 & H3 & H4 & H5 & H6 & H7 & H8 & H9 & H10).
  pose proof (visited_all n V H2) as Hall.
  assert (size V ≤ n) as Hle.
  { rewrite <-(size_set_seq (C := gset nat) 0 n). apply subseteq_size.
    intros x Hx. apply elem_of_set_seq. apply H2 in Hx. lia. }
  assert ((∀ x, x < n → x ∈ V) → connected n F) as HVF.
  { intros HV x y Hx Hy. apply conn_trans with start.
    - apply conn_sym, H4, HV, Hx.
    - apply H4, HV, Hy. }
  assert (connected n F → connected n E) as HFE.
  { intros HF x y Hx Hy. eapply conn_sub; [|by apply HF].
    intros e He. apply conn_in_graph. by apply H3. }
  assert (connected n E → ∀ x, x < n → x ∈ V) as HEV.
  { intros HE. destruct Hend as [Hnil|Hlen]; [|apply Hall; lia].
    intros x Hx.
    apply (conn_cut E (λ x, x ∈ V) start x); [|by apply HE|done].
    intros e He.
    assert (∀ g, in_graph E g → u g ∈ V → v g ∈ V) as Hclosed.
    { intros g Hg Hu. destruct (decide (v g ∈ V)) as [|Hnv]; [done|].
      specialize (H9 g Hg Hu Hnv). rewrite Hnil in H9.
      by apply elem_of_nil in H9. }
    split; [apply Hclosed; by left|].
    apply (Hclosed (flip e)). right. by rewrite flip_flip. }
  destruct (decide (size V = n)) as [Hsize|Hsize].
  - left. pose proof (proj1 Hall Hsize) as HV. split; [by apply HFE, HVF|].
    exists F. rewrite decide_True by lia. split; [done|]. split; [lia|].
    apply promising_spanning; [done..|]. split; [|split; [done|by apply HVF]].
    intros e He. by apply H3.
  - right. split; [|rewrite decide_False; [done|lia]].
    intros HE. apply Hsize, Hall. by apply HEV.
Qed.

End prim.

(** * The program on a store *)

Section store.
Implicit Types (σ : gmap nat obj) (l lp lr ls lm ld lv : nat).

Lemma bind_run {A B} (m : prog A) (f : A → prog B) σ r σ' :
  m σ = (r, σ') →
  (m ≫= f) σ = match r with Ok a => f a σ' | Err e => (Err e, σ') end.
Proof. intros Hm. unfold mbind, prog_bind. by rewrite Hm. Qed.

Lemma num_array_run σ l a :
  σ !! l = Some (NumArray a) → num_array l σ = (Ok a, σ).
Proof. intros Hl. unfold num_array. by rewrite Hl. Qed.

Lemma num_length_run σ l a :
  σ !! l = Some (NumArray a) → num_length l σ = (Ok (length a), σ).
Proof.
  intros Hl. unfold num_length. by rewrite (bind_run _ _ _ _ _ (num_array_run _ _ _ Hl)).
Qed.

Lemma num_get_run σ l a i :
  σ !! l = Some (NumArray a) →
  num_get l i σ =
    (match a !! i with Some x => Ok x | None => Err OutOfRange end, σ).
Proof.
  intros Hl. unfold num_get.
  rewrite (bind_run _ _ _ _ _ (num_array_run _ _ _ Hl)).
  by destruct (a !! i).
Qed.

Lemma num_set_run σ l a i x :
  σ !! l = Some (NumArray a) →
  num_set l i x σ = (Ok (), <[l:=NumArray (<[i:=x]> a)]> σ).
Proof.
  intros Hl. unfold num_set.
  by rewrite (bind_run _ _ _ _ _ (num_array_run _ _ _ Hl)).
Qed.

(** [find] on the store does what [find] does, and writes to the array
    [parent] only. *)
Lemma find_ref_spec lp : ∀ fuel ds x σ,
  σ !! lp = Some (NumArray (parent ds)) →
  ∃ p',
    find_ref fuel lp x σ =
      (match find fuel ds x with Ok (_, r) => Ok r | Err e => Err e end,
       <[lp:=NumArray p']> σ) ∧
    ∀ ds' r, find fuel ds x = Ok (ds', r) → ds' = MkDS p' (rank ds).
Proof.
  induction fuel as [|fuel IH]; intros ds x σ Hlp.
  - exists (parent ds). by rewrite insert_id.
  - simpl. rewrite (bind_run _ _ _ _ _ (num_get_run _ _ _ x Hlp)).
    destruct (parent ds !! x) as [p|] eqn:Hx.
    2: { exists (parent ds). by rewrite insert_id. }
    case_decide as Hp.
    { exists (parent ds). rewrite insert_id by done. split; [done|].
      intros ? ? [= <- <-]. by destruct ds. }
    destruct (IH ds p σ Hlp) as (p1 & Hrun & Hds).
    rewrite (bind_run _ _ _ _ _ Hrun).
    destruct (find fuel ds p) as [[ds1 r]|e]; simpl.
    2: { by exists p1. }
    rewrite (Hds ds1 r eq_refl). simpl.
    assert (<[lp:=NumArray p1]> σ !! lp = Some (NumArray p1)) as Hl1
      by apply lookup_insert_eq.
    rewrite (bind_run _ _ _ _ _ (num_set_run _ _ _ x r Hl1)).
    rewrite insert_insert_eq.
    exists (<[x:=r]> p1). split; [done|]. by intros ? ? [= <- <-].
Qed.

Lemma union_ref_spec lp lr ds a b σ :
  lp ≠ lr →
  σ !! lp = Some (NumArray (parent ds)) →
  σ !! lr = Some (NumArray (rank ds)) →
  ∃ ds',
    union_ref lp lr a b σ =
      (match union ds a b with Ok (_, m) => Ok m | Err e => Err e end,
       <[lr:=NumArray (rank ds')]> (<[lp:=NumArray (parent ds')]> σ)) ∧
    ∀ ds1 m, union ds a b = Ok (ds1, m) → ds1 = ds'.
Proof.
  intros Hne Hlp Hlr. unfold union_ref, union, find_fuel.
  assert (∀ p k σ0, σ0 !! lr = Some (NumArray k) →
    <[lr:=NumArray k]> (<[lp:=NumArray p]> σ0) = <[lp:=NumArray p]> σ0)
    as Hid.
  { intros p k σ0 H0. apply insert_id. by rewrite lookup_insert_ne. }
  rewrite (bind_run _ _ _ _ _ (num_length_run _ _ _ Hlp)).
  destruct (find_ref_spec lp (length (parent ds)) ds a σ Hlp)
    as (p1 & Hrun1 & Hds1).
  rewrite (bind_run _ _ _ _ _ Hrun1).
  destruct (find (length (parent ds)) ds a) as [[ds1 ra]|e]; simpl.
  2: { exists (MkDS p1 (rank ds)). by rewrite Hid. }
  rewrite (Hds1 ds1 ra eq_refl). simpl. clear Hds1 Hrun1.
  set (σ1 := <[lp:=NumArray p1]> σ).
  assert (σ1 !! lp = Some (NumArray p1)) as Hlp1 by apply lookup_insert_eq.
  rewrite (bind_run _ _ _ _ _ (num_length_run _ _ _ Hlp1)).
  destruct (find_ref_spec lp (length p1) (MkDS p1 (rank ds)) b σ1 Hlp1)
    as (p2 & Hrun2 & Hds2).
  rewrite (bind_run _ _ _ _ _ Hrun2).
  destruct (find (length p1) (MkDS p1 (rank ds)) b) as [[ds2 rb]|e]; simpl.
  2: { exists (MkDS p2 (rank ds)). unfold σ1.
       by rewrite insert_insert_eq, Hid. }
  rewrite (Hds2 ds2 rb eq_refl). simpl. clear Hds2 Hrun2.
  unfold σ1. rewrite insert_insert_eq. clear σ1 Hlp1.
  set (σ2 := <[lp:=NumArray p2]> σ).
  assert (σ2 !! lp = Some (NumArray p2)) as Hlp2 by apply lookup_insert_eq.
  assert (σ2 !! lr = Some (NumArray (rank ds))) as Hlr2.
  { unfold σ2. by rewrite lookup_insert_ne. }
  case_decide as Hab.
  { exists (MkDS p2 (rank ds)). simpl. fold σ2.
    rewrite insert_id by done. split; [done|]. by intros ? ? [= <- <-]. }
  rewrite (bind_run _ _ _ _ _ (num_get_run _ _ _ ra Hlr2)).
  destruct (rank ds !! ra) as [ka|] eqn:Hka.
  2: { exists (MkDS p2 (rank ds)). simpl. fold σ2. by rewrite insert_id. }
  rewrite (bind_run _ _ _ _ _ (num_get_run _ _ _ rb Hlr2)).
  destruct (rank ds !! rb) as [kb|] eqn:Hkb.
  2: { exists (MkDS p2 (rank ds)). simpl. fold σ2. by rewrite insert_id. }
  repeat case_decide.
  - rewrite (bind_run _ _ _ _ _ (num_set_run _ _ _ ra rb Hlp2)).
    exists (set_parent (MkDS p2 (rank ds)) ra rb). simpl.
    unfold σ2. rewrite insert_insert_eq, Hid by done.
    split; [done|]. by intros ? ? [= <- <-].
  - rewrite (bind_run _ _ _ _ _ (num_set_run _ _ _ rb ra Hlp2)).
    exists (set_parent (MkDS p2 (rank ds)) rb ra). simpl.
    unfold σ2. rewrite insert_insert_eq, Hid by done.
    split; [done|]. by intros ? ? [= <- <-].
  - rewrite (bind_run _ _ _ _ _ (num_set_run _ _ _ rb ra Hlp2)).
    unfold σ2. rewrite insert_insert_eq.
    assert (<[lp:=NumArray (<[rb:=ra]> p2)]> σ !! lr
              = Some (NumArray (rank ds))) as Hlr3.
    { by rewrite lookup_insert_ne. }
    rewrite (bind_run _ _ _ _ _ (num_set_run _ _ _ ra (ka + 1) Hlr3)).
    exists (set_rank (set_parent (MkDS p2 (rank ds)) rb ra) ra (ka + 1)).
    simpl. split; [done|]. by intros ? ? [= <- <-].
Qed.

Lemma agree_outside_refl W σ : agree_outside W σ σ.
Proof. by intros l _. Qed.

Lemma agree_outside_trans W σ1 σ2 σ3 :
  agree_outside W σ1 σ2 → agree_outside W σ2 σ3 → agree_outside W σ1 σ3.
Proof. intros H12 H23 l Hl. by rewrite H23, H12. Qed.

Lemma agree_outside_insert W σ l o :
  l ∈ W → agree_outside W σ (<[l:=o]> σ).
Proof.
  intros Hl k Hk. apply lookup_insert_ne. intros ->. done.
Qed.

Lemma agree_outside_mono W W' σ σ' :
  W ⊆ W' → agree_outside W σ σ' → agree_outside W' σ σ'.
Proof. intros HW H l Hl. apply H. intros ?. apply Hl. by apply HW. Qed.

Lemma edge_array_run σ l a :
  σ !! l = Some (EdgeArray a) → edge_array l σ = (Ok a, σ).
Proof. intros Hl. unfold edge_array. by rewrite Hl. Qed.

Lemma edge_length_run σ l a :
  σ !! l = Some (EdgeArray a) → edge_length l σ = (Ok (length a), σ).
Proof.
  intros Hl. unfold edge_length.
  by rewrite (bind_run _ _ _ _ _ (edge_array_run _ _ _ Hl)).
Qed.

Lemma edge_get_run σ l a i :
  σ !! l = Some (EdgeArray a) → edge_get l i σ = (Ok (a !!! i), σ).
Proof.
  intros Hl. unfold edge_get.
  by rewrite (bind_run _ _ _ _ _ (edge_array_run _ _ _ Hl)).
Qed.

Lemma edge_set_run σ l a i x :
  σ !! l = Some (EdgeArray a) →
  edge_set l i x σ = (Ok (), <[l:=EdgeArray (<[i:=x]> a)]> σ).
Proof.
  intros Hl. unfold edge_set.
  by rewrite (bind_run _ _ _ _ _ (edge_array_run _ _ _ Hl)).
Qed.

Lemma edge_push_run σ l a x :
  σ !! l = Some (EdgeArray a) →
  edge_push l x σ = (Ok (), <[l:=EdgeArray (a ++ [x])]> σ).
Proof.
  intros Hl. unfold edge_push.
  by rewrite (bind_run _ _ _ _ _ (edge_array_run _ _ _ Hl)).
Qed.

Lemma edge_pop_run σ l a :
  σ !! l = Some (EdgeArray a) →
  edge_pop l σ =
    (Ok (a !!! (length a - 1)), <[l:=EdgeArray (take (length a - 1) a)]> σ).
Proof.
  intros Hl. unfold edge_pop.
  by rewrite (bind_run _ _ _ _ _ (edge_array_run _ _ _ Hl)).
Qed.

Lemma sort_ref_run σ l a :
  σ !! l = Some (EdgeArray a) →
  sort_ref l σ = (Ok (), <[l:=EdgeArray (sort_by_w a)]> σ).
Proof.
  intros Hl. unfold sort_ref.
  by rewrite (bind_run _ _ _ _ _ (edge_array_run _ _ _ Hl)).
Qed.

Lemma new_array_run σ o :
  ∃ l, new_array o σ = (Ok l, <[l:=o]> σ) ∧ σ !! l = None.
Proof.
  exists (fresh (dom σ)). split; [done|].
  apply not_elem_of_dom, is_fresh.
Qed.

Lemma kruskal_store_union lp lr ls lm ds ds' s acc σ :
  NoDup [lp; lr; ls; lm] →
  kruskal_store lp lr ls lm ds s acc σ →
  kruskal_store lp lr ls lm ds' s acc
    (<[lr:=NumArray (rank ds')]> (<[lp:=NumArray (parent ds')]> σ)).
Proof.
  intros Hnd (Hp & Hr & Hs & Hm).
  apply NoDup_cons in Hnd as [H1 Hnd]. apply NoDup_cons in Hnd as [H2 Hnd].
  apply NoDup_cons in Hnd as [H3 _].
  assert (lp ≠ lr ∧ lp ≠ ls ∧ lp ≠ lm ∧ lr ≠ ls ∧ lr ≠ lm ∧ ls ≠ lm)
    as (? & ? & ? & ? & ? & ?) by set_solver.
  unfold kruskal_store. by simplify_map_eq.
Qed.

Lemma kruskal_store_push lp lr ls lm ds s acc acc' σ :
  NoDup [lp; lr; ls; lm] →
  kruskal_store lp lr ls lm ds s acc σ →
  kruskal_store lp lr ls lm ds s acc' (<[lm:=EdgeArray acc']> σ).
Proof.
  intros Hnd (Hp & Hr & Hs & Hm).
  apply NoDup_cons in Hnd as [H1 Hnd]. apply NoDup_cons in Hnd as [H2 Hnd].
  apply NoDup_cons in Hnd as [H3 _].
  assert (lp ≠ lr ∧ lp ≠ ls ∧ lp ≠ lm ∧ lr ≠ ls ∧ lr ≠ lm ∧ ls ≠ lm)
    as (? & ? & ? & ? & ? & ?) by set_solver.
  unfold kruskal_store. by simplify_map_eq.
Qed.

(** The loop of [kruskalMST] on the store computes what [kruskal_loop]
    computes on the rest of [sorted], and writes to [parent], [rank] and
    [mst] only. *)
Lemma kruskal_loop_ref_spec n lp lr ls lm s :
  NoDup [lp; lr; ls; lm] →
  ∀ fuel i ds acc tot σ,
    kruskal_store lp lr ls lm ds s acc σ →
    length s - i < fuel →
    ∃ ds' acc' σ',
      kruskal_loop_ref fuel n lp lr ls lm i tot σ =
        (match kruskal_loop n ds acc tot (drop i s) with
         | Ok (_, t) => Ok t
         | Err e => Err e
         end, σ') ∧
      kruskal_store lp lr ls lm ds' s acc' σ' ∧
      agree_outside [lp; lr; ls; lm] σ σ' ∧
      ∀ a t, kruskal_loop n ds acc tot (drop i s) = Ok (a, t) → a = acc'.
Proof.
  intros Hnd.
  assert (lp ≠ lr) as Hplr.
  { apply NoDup_cons in Hnd as [H1 _]. set_solver. }
  induction fuel as [|fuel IH]; intros i ds acc tot σ Hst Hfuel; [lia|].
  pose proof Hst as (Hp & Hr & Hs & Hm). simpl.
  rewrite (bind_run _ _ _ _ _ (edge_length_run _ _ _ Hs)).
  case_decide as Hi.
  2: { rewrite drop_ge by lia. simpl. exists ds, acc, σ.
       split; [done|]. split; [done|]. split; [apply agree_outside_refl|].
       by intros ? ? [= <- <-]. }
  destruct (lookup_lt_is_Some_2 s i Hi) as [e He].
  rewrite (drop_S _ _ _ He). simpl.
  rewrite (bind_run _ _ _ _ _ (edge_get_run _ _ _ i Hs)).
  rewrite (list_lookup_total_correct _ _ _ He).
  destruct (union_ref_spec lp lr ds (u e) (v e) σ Hplr Hp Hr)
    as (ds1 & Hrun & Hds1).
  rewrite (bind_run _ _ _ _ _ Hrun).
  set (σ1 := <[lr:=NumArray (rank ds1)]> (<[lp:=NumArray (parent ds1)]> σ))
    in *.
  assert (kruskal_store lp lr ls lm ds1 s acc σ1) as Hst1.
  { by apply (kruskal_store_union _ _ _ _ ds). }
  assert (agree_outside [lp; lr; ls; lm] σ σ1) as Hag1.
  { eapply agree_outside_trans; apply agree_outside_insert; set_solver. }
  destruct (union ds (u e) (v e)) as [[dsU merged]|err]; simpl.
  2: { exists ds1, acc, σ1. done. }
  rewrite (Hds1 dsU merged eq_refl). clear Hds1 Hrun.
  destruct merged.
  - destruct Hst1 as (Hp1 & Hr1 & Hs1 & Hm1).
    rewrite (bind_run _ _ _ _ _ (edge_push_run _ _ _ _ Hm1)).
    set (acc1 := acc ++ [Edge (u e) (v e) (w e)]).
    set (σ2 := <[lm:=EdgeArray acc1]> σ1).
    assert (kruskal_store lp lr ls lm ds1 s acc1 σ2) as Hst2.
    { by apply kruskal_store_push with acc. }
    assert (agree_outside [lp; lr; ls; lm] σ σ2) as Hag2.
    { eapply agree_outside_trans; [done|].
      apply agree_outside_insert. set_solver. }
    pose proof Hst2 as (_ & _ & _ & Hm2).
    rewrite (bind_run _ _ _ _ _ (edge_length_run _ _ _ Hm2)).
    case_decide as Hfull.
    + exists ds1, acc1, σ2. split; [done|]. split; [done|]. split; [done|].
      by intros ? ? [= <- <-].
    + destruct (IH (S i) ds1 acc1 (js_add tot (w e)) σ2 Hst2)
        as (ds' & acc' & σ' & Hrun' & Hst' & Hag' & Hacc'); [lia|].
      exists ds', acc', σ'. split; [done|]. split; [done|].
      split; [by eapply agree_outside_trans|done].
  - destruct (IH (S i) ds1 acc tot σ1 Hst1)
      as (ds' & acc' & σ' & Hrun' & Hst' & Hag' & Hacc'); [lia|].
    exists ds', acc', σ'. split; [done|]. split; [done|].
    split; [by eapply agree_outside_trans|done].
Qed.

Lemma ret_bind {A B} (a : A) (f : A → prog B) σ : (mret a ≫= f) σ = f a σ.
Proof. done. Qed.

Lemma throw_bind {A B} (e : error) (f : A → prog B) σ :
  (throw e ≫= f) σ = (Err e, σ).
Proof. done. Qed.

Lemma new_DisjointSet_ref_run n σ :
  array_length n →
  ∃ lp lr,
    new_DisjointSet_ref n σ =
      (Ok (lp, lr),
       <[lr:=NumArray (replicate n 0)]> (<[lp:=NumArray (seq 0 n)]> σ)) ∧
    σ !! lp = None ∧ σ !! lr = None ∧ lp ≠ lr.
Proof.
  intros Hlim. unfold new_DisjointSet_ref. rewrite decide_True by done.
  destruct (new_array_run σ (NumArray (seq 0 n))) as (lp & Hrun & Hlp).
  rewrite (bind_run _ _ _ _ _ Hrun). clear Hrun.
  destruct (new_array_run (<[lp:=NumArray (seq 0 n)]> σ)
              (NumArray (replicate n 0))) as (lr & Hrun & Hlr).
  rewrite (bind_run _ _ _ _ _ Hrun). clear Hrun.
  apply lookup_insert_None in Hlr as [Hlr Hne].
  by exists lp, lr.
Qed.

(** [kruskalMST] on the store returns what [kruskalMST] returns on the
    contents of [edges], and leaves every object of the caller as it
    was. *)
Lemma kruskalMST_ref_spec n edges es σ :
  σ !! edges = Some (EdgeArray es) →
  ∃ σ', kruskalMST_ref n edges σ = (kruskalMST_call n es, σ') ∧
    ∀ l, l ∈ dom σ → σ' !! l = σ !! l.
Proof.
  intros Hes. unfold kruskalMST_ref, kruskalMST_call.
  case_decide as Hlim.
  2: { exists σ. unfold new_DisjointSet_ref. by rewrite decide_False. }
  destruct (new_DisjointSet_ref_run n σ Hlim)
    as (lp & lr & Hrun & Hlp & Hlr0 & Hplr).
  rewrite (bind_run _ _ _ _ _ Hrun). clear Hrun.
  set (σ1 := <[lp:=NumArray (seq 0 n)]> σ).
  set (σ2 := <[lr:=NumArray (replicate n 0)]> σ1). simpl.
  assert (σ2 !! edges = Some (EdgeArray es)) as Hes2.
  { unfold σ2, σ1. rewrite !lookup_insert_ne; [done|congruence..]. }
  rewrite (bind_run _ _ _ _ _ (edge_array_run _ _ _ Hes2)).
  destruct (new_array_run σ2 (EdgeArray es)) as (ls & Hrun & Hls).
  rewrite (bind_run _ _ _ _ _ Hrun). clear Hrun.
  set (σ3 := <[ls:=EdgeArray es]> σ2).
  assert (lr ≠ ls ∧ lp ≠ ls ∧ σ !! ls = None) as (Hrls & Hpls & Hls0).
  { unfold σ2, σ1 in Hls.
    apply lookup_insert_None in Hls as [Hls ?].
    apply lookup_insert_None in Hls as [Hls ?]. done. }
  assert (σ3 !! ls = Some (EdgeArray es)) as Hs3 by apply lookup_insert_eq.
  rewrite (bind_run _ _ _ _ _ (sort_ref_run _ _ _ Hs3)).
  unfold σ3. rewrite insert_insert_eq. clear σ3 Hs3.
  set (σ3 := <[ls:=EdgeArray (sort_by_w es)]> σ2).
  destruct (new_array_run σ3 (EdgeArray [])) as (lm & Hrun & Hlm).
  rewrite (bind_run _ _ _ _ _ Hrun). clear Hrun.
  set (σ4 := <[lm:=EdgeArray []]> σ3).
  assert (ls ≠ lm ∧ lr ≠ lm ∧ lp ≠ lm ∧ σ !! lm = None)
    as (Hslm & Hrlm & Hplm & Hlm0).
  { unfold σ3, σ2, σ1 in Hlm.
    apply lookup_insert_None in Hlm as [Hlm ?].
    apply lookup_insert_None in Hlm as [Hlm ?].
    apply lookup_insert_None in Hlm as [Hlm ?]. done. }
  assert (NoDup [lp; lr; ls; lm]) as Hnd.
  { repeat (apply NoDup_cons; split; [set_solver|]). apply NoDup_nil_2. }
  assert (kruskal_store lp lr ls lm (new_DisjointSet n) (sort_by_w es) [] σ4)
    as Hst.
  { unfold kruskal_store, σ4, σ3, σ2, σ1. simpl. by simplify_map_eq. }
  pose proof Hst as (_ & _ & Hs4 & _).
  rewrite (bind_run _ _ _ _ _ (edge_length_run _ _ _ Hs4)).
  destruct (kruskal_loop_ref_spec n lp lr ls lm (sort_by_w es) Hnd
              (S (length (sort_by_w es))) 0 (new_DisjointSet n) [] 0%Z σ4 Hst)
    as (ds' & acc' & σ' & Hrun & Hst' & Hag & Hacc); [lia|].
  rewrite (bind_run _ _ _ _ _ Hrun). clear Hrun.
  assert (∀ l, l ∈ dom σ → σ' !! l = σ !! l) as Hframe.
  { intros l [o Hl]%elem_of_dom. rewrite Hag.
    - unfold σ4, σ3, σ2, σ1. rewrite !lookup_insert_ne; [done|congruence..].
    - intros Hin. repeat apply elem_of_cons in Hin as [->|Hin]; try congruence.
      by apply elem_of_nil in Hin. }
  unfold kruskalMST, kruskal_sorted. rewrite drop_0 in *.
  destruct (kruskal_loop n (new_DisjointSet n) [] 0%Z (sort_by_w es))
    as [[acc tot]|err]; simpl; [|by exists σ'].
  rewrite <-(Hacc acc tot eq_refl) in *.
  destruct Hst' as (_ & _ & _ & Hm').
  rewrite (bind_run _ _ _ _ _ (edge_length_run _ _ _ Hm')).
  case_decide; [|by exists σ'].
  rewrite (bind_run _ _ _ _ _ (edge_array_run _ _ _ Hm')).
  by exists σ'.
Qed.

(** The heap on the store does what the heap does, and writes to the
    array [data] only. *)
Lemma swap_ref_run σ ld d i j :
  σ !! ld = Some (EdgeArray d) →
  swap_ref ld i j σ = (Ok (), <[ld:=EdgeArray (swap d i j)]> σ).
Proof.
  intros Hd. unfold swap_ref.
  rewrite (bind_run _ _ _ _ _ (edge_get_run _ _ _ j Hd)).
  rewrite (bind_run _ _ _ _ _ (edge_get_run _ _ _ i Hd)).
  rewrite (bind_run _ _ _ _ _ (edge_set_run _ _ _ i (d !!! j) Hd)).
  erewrite edge_set_run by apply lookup_insert_eq.
  by rewrite insert_insert_eq.
Qed.

Lemma bubbleUp_loop_ref_S fuel ld i :
  bubbleUp_loop_ref (S fuel) ld i =
    if decide (0 < i) then
      xp ← edge_get ld ((i - 1) / 2);
      xi ← edge_get ld i;
      if decide (w xp ≤ w xi)%Z then mret ()
      else swap_ref ld ((i - 1) / 2) i;;
           bubbleUp_loop_ref fuel ld ((i - 1) / 2)
    else mret ().
Proof. done. Qed.

Lemma bubbleUp_loop_ref_run ld : ∀ fuel d i σ,
  σ !! ld = Some (EdgeArray d) →
  bubbleUp_loop_ref fuel ld i σ =
    (Ok (), <[ld:=EdgeArray (bubbleUp_loop fuel d i)]> σ).
Proof.
  induction fuel as [|fuel IH]; intros d i σ Hd.
  - simpl. by rewrite insert_id.
  - rewrite bubbleUp_loop_ref_S, bubbleUp_loop_S.
    case_decide; [|by rewrite insert_id].
    rewrite (bind_run _ _ _ _ _ (edge_get_run _ _ _ _ Hd)).
    rewrite (bind_run _ _ _ _ _ (edge_get_run _ _ _ _ Hd)).
    unfold wt. case_decide; [by rewrite insert_id|].
    rewrite (bind_run _ _ _ _ _ (swap_ref_run _ _ _ _ _ Hd)).
    erewrite IH by apply lookup_insert_eq.
    by rewrite insert_insert_eq.
Qed.

Lemma bubbleDown_loop_ref_run ld : ∀ fuel d i σ,
  σ !! ld = Some (EdgeArray d) →
  bubbleDown_loop_ref fuel ld i σ =
    (Ok (), <[ld:=EdgeArray (bubbleDown_loop fuel d i)]> σ).
Proof.
  induction fuel as [|fuel IH]; intros d i σ Hd.
  - simpl. by rewrite insert_id.
  - rewrite bubbleDown_loop_S.
    change (bubbleDown_loop_ref (S fuel) ld i) with
      (d ← edge_array ld;
       if decide (smallest_of d i = i) then mret ()
       else swap_ref ld i (smallest_of d i);;
            bubbleDown_loop_ref fuel ld (smallest_of d i)).
    rewrite (bind_run _ _ _ _ _ (edge_array_run _ _ _ Hd)).
    case_decide; [by rewrite insert_id|].
    rewrite (bind_run _ _ _ _ _ (swap_ref_run _ _ _ _ _ Hd)).
    erewrite IH by apply lookup_insert_eq.
    by rewrite insert_insert_eq.
Qed.

Lemma push_ref_run σ ld d item :
  σ !! ld = Some (EdgeArray d) →
  push_ref ld item σ =
    (Ok (), <[ld:=EdgeArray (data (push (MkHeap d) item))]> σ).
Proof.
  intros Hd. unfold push_ref, push, bubbleUp_ref, bubbleUp.
  rewrite (bind_run _ _ _ _ _ (edge_push_run _ _ _ item Hd)).
  rewrite (bind_run _ _ _ _ _
             (edge_length_run _ ld _ (lookup_insert_eq _ _ _))).
  erewrite bubbleUp_loop_ref_run by apply lookup_insert_eq.
  by rewrite insert_insert_eq.
Qed.

Lemma pop_ref_run σ ld d :
  σ !! ld = Some (EdgeArray d) →
  pop_ref ld σ =
    (Ok (pop (MkHeap d)).1, <[ld:=EdgeArray (data (pop (MkHeap d)).2)]> σ).
Proof.
  intros Hd. unfold pop_ref.
  rewrite (bind_run _ _ _ _ _ (edge_length_run _ _ _ Hd)).
  destruct d as [|top d']; [simpl; by rewrite insert_id|].
  set (d := top :: d') in *.
  rewrite decide_False by (unfold d; simpl; lia).
  change (pop (MkHeap d)) with
    (let end_ := d !!! (length d - 1) in
     let d1 := take (length d - 1) d in
     if decide (0 < length d1)
     then (Some top, MkHeap (bubbleDown (<[0:=end_]> d1) 0))
     else (Some top, MkHeap d1)).
  cbv zeta.
  rewrite (bind_run _ _ _ _ _ (edge_get_run _ _ _ 0 Hd)).
  rewrite (bind_run _ _ _ _ _ (edge_pop_run _ _ _ Hd)).
  set (d1 := take (length d - 1) d).
  set (σ1 := <[ld:=EdgeArray d1]> σ).
  assert (σ1 !! ld = Some (EdgeArray d1)) as Hd1 by apply lookup_insert_eq.
  rewrite (bind_run _ _ _ _ _ (edge_length_run _ _ _ Hd1)).
  change (d !!! 0) with top.
  case_decide; [|done].
  rewrite (bind_run _ _ _ _ _ (edge_set_run _ _ _ 0 _ Hd1)).
  unfold σ1. rewrite insert_insert_eq.
  set (d2 := <[0:=d !!! (length d - 1)]> d1).
  assert (bubbleDown_ref ld 0 (<[ld:=EdgeArray d2]> σ) =
    (Ok (), <[ld:=EdgeArray (bubbleDown d2 0)]> σ)) as Hbd.
  { unfold bubbleDown_ref, bubbleDown.
    rewrite (bind_run _ _ _ _ _
               (edge_length_run _ ld _ (lookup_insert_eq _ _ _))).
    erewrite bubbleDown_loop_ref_run by apply lookup_insert_eq.
    by rewrite insert_insert_eq. }
  by rewrite (bind_run _ _ _ _ _ Hbd).
Qed.

(** [visited] *)
Lemma bool_get_run σ l a i :
  σ !! l = Some (BoolArray a) →
  bool_get l i σ = (Ok (default false (a !! i)), σ).
Proof. intros Hl. unfold bool_get, mbind, prog_bind, bool_array. by rewrite Hl. Qed.

Lemma bool_set_run σ l a i :
  σ !! l = Some (BoolArray a) →
  bool_set l i σ = (Ok (), <[l:=BoolArray (set_true a i)]> σ).
Proof. intros Hl. unfold bool_set, mbind, prog_bind, bool_array. by rewrite Hl. Qed.

Lemma set_true_lookup a i j :
  default false (set_true a i !! j) =
    if decide (j = i) then true else default false (a !! j).
Proof.
  unfold set_true. case_decide as Hi.
  - case_decide as Hj.
    + subst. by rewrite list_lookup_insert_eq.
    + by rewrite list_lookup_insert_ne.
  - destruct (decide (j < length a)) as [Hlt|Hge].
    + rewrite lookup_app_l by done. rewrite decide_False by lia. done.
    + rewrite lookup_app_r by lia. rewrite (lookup_ge_None_2 a j) by lia.
      destruct (decide (j - length a < i - length a)) as [Hlt|Hge'].
      * rewrite lookup_app_l by (by rewrite length_replicate).
        rewrite lookup_replicate_2 by done. rewrite decide_False by lia. done.
      * rewrite lookup_app_r by (rewrite length_replicate; lia).
        rewrite length_replicate.
        destruct (decide (j = i)) as [->|Hne].
        { by replace (i - length a - (i - length a)) with 0 by lia. }
        rewrite lookup_ge_None_2 by (simpl; lia). done.
Qed.

Lemma marks_set_true a V i : marks a V → marks (set_true a i) ({[i]} ∪ V).
Proof.
  intros Hm j. rewrite set_true_lookup, elem_of_union, elem_of_singleton.
  case_decide; [by split; auto|]. split.
  - intros Hj. right. by apply Hm.
  - intros [?|Hj]; [done|]. by apply Hm.
Qed.

Lemma marks_replicate n : marks (replicate n false) ∅.
Proof.
  intros i. split; [|by intros ?%elem_of_empty].
  destruct (replicate n false !! i) as [b|] eqn:Hb; [|done].
  by apply lookup_replicate in Hb as [-> _].
Qed.

Lemma marks_decide a V i :
  marks a V →
  default false (a !! i) = if decide (i ∈ V) then true else false.
Proof.
  intros Hm. case_decide as Hi; [by apply Hm|].
  destruct (default false (a !! i)) eqn:Hb; [|done].
  exfalso. by apply Hi, Hm.
Qed.

(** The rows of [adj] *)
Lemma row_length_run σ l a :
  σ !! l = Some (RowArray a) → row_length l σ = (Ok (length a), σ).
Proof. intros Hl. unfold row_length, mbind, prog_bind, row_array. by rewrite Hl. Qed.

Lemma row_get_run σ l a i e :
  σ !! l = Some (RowArray a) → a !! i = Some e →
  row_get l i σ = (Ok e, σ).
Proof.
  intros Hl He. unfold row_get, mbind, prog_bind, row_array.
  by rewrite Hl, He.
Qed.

Lemma adj_row_run σ l a i :
  σ !! l = Some (AdjArray a) →
  adj_row l i σ =
    (match a !! i with Some r => Ok r | None => Err TypeError end, σ).
Proof.
  intros Hl. unfold adj_row, mbind, prog_bind, adj_array. rewrite Hl.
  by destruct (a !! i).
Qed.

Lemma heap_eta h : MkHeap (data h) = h.
Proof. by destruct h. Qed.

(** The two [for ... of] loops over a row push what [push_row] and
    [push_unvisited] push, and write to the heap's array only. *)
Lemma push_row_ref_run lrow ld from row :
  lrow ≠ ld →
  ∀ fuel i d σ,
    σ !! lrow = Some (RowArray row) → σ !! ld = Some (EdgeArray d) →
    length row - i < fuel →
    push_row_ref fuel lrow ld from i σ =
      (Ok (),
       <[ld:=EdgeArray (data (push_row (MkHeap d) from (drop i row)))]> σ).
Proof.
  intros Hne. induction fuel as [|fuel IH]; intros i d σ Hrow Hd Hfuel; [lia|].
  simpl push_row_ref.
  rewrite (bind_run _ _ _ _ _ (row_length_run _ _ _ Hrow)).
  case_decide as Hi.
  2: { rewrite drop_ge by lia. simpl. by rewrite insert_id. }
  destruct (lookup_lt_is_Some_2 row i Hi) as [e He].
  rewrite (drop_S _ _ _ He).
  rewrite (bind_run _ _ _ _ _ (row_get_run _ _ _ _ _ Hrow He)).
  rewrite (bind_run _ _ _ _ _ (push_ref_run _ _ _ _ Hd)).
  rewrite (IH (S i) (data (push (MkHeap d) (Edge from (Adj.to e) (Adj.w e)))));
    [|by rewrite lookup_insert_ne|apply lookup_insert_eq|lia].
  rewrite insert_insert_eq, heap_eta. done.
Qed.

Lemma push_unvisited_ref_run lrow lv ld from row vis V :
  lrow ≠ ld → lv ≠ ld → marks vis V →
  ∀ fuel i d σ,
    σ !! lrow = Some (RowArray row) → σ !! lv = Some (BoolArray vis) →
    σ !! ld = Some (EdgeArray d) →
    length row - i < fuel →
    push_unvisited_ref fuel lrow lv ld from i σ =
      (Ok (),
       <[ld:=EdgeArray
               (data (push_unvisited V (MkHeap d) from (drop i row)))]> σ).
Proof.
  intros Hne Hne' Hm.
  induction fuel as [|fuel IH]; intros i d σ Hrow Hv Hd Hfuel; [lia|].
  simpl push_unvisited_ref.
  rewrite (bind_run _ _ _ _ _ (row_length_run _ _ _ Hrow)).
  case_decide as Hi.
  2: { rewrite drop_ge by lia. simpl. by rewrite insert_id. }
  destruct (lookup_lt_is_Some_2 row i Hi) as [e He].
  rewrite (drop_S _ _ _ He).
  rewrite (bind_run _ _ _ _ _ (row_get_run _ _ _ _ _ Hrow He)).
  rewrite (bind_run _ _ _ _ _ (bool_get_run _ _ _ _ Hv)).
  rewrite (marks_decide _ _ _ Hm).
  unfold push_unvisited. simpl foldl. fold (push_unvisited V).
  case_decide as Hseen; cbv iota.
  - rewrite ret_bind. by apply IH; [..|lia].
  - rewrite (bind_run _ _ _ _ _ (push_ref_run _ _ _ _ Hd)).
    rewrite (IH (S i) (data (push (MkHeap d) (Edge from (Adj.to e) (Adj.w e)))));
      [|by rewrite lookup_insert_ne..|apply lookup_insert_eq|lia].
    rewrite insert_insert_eq, heap_eta. done.
Qed.

Lemma distinct3 lv ld lm :
  NoDup [lv; ld; lm] → lv ≠ ld ∧ lv ≠ lm ∧ ld ≠ lm.
Proof.
  intros Hnd. apply NoDup_cons in Hnd as [H1 Hnd].
  apply NoDup_cons in Hnd as [H2 _]. set_solver.
Qed.

Lemma prim_store_vis lv ld lm vis vis' d acc σ :
  NoDup [lv; ld; lm] → prim_store lv ld lm vis d acc σ →
  prim_store lv ld lm vis' d acc (<[lv:=BoolArray vis']> σ).
Proof.
  intros (? & ? & ?)%distinct3 (Hv & Hd & Hm).
  unfold prim_store. by simplify_map_eq.
Qed.

Lemma prim_store_data lv ld lm vis d d' acc σ :
  NoDup [lv; ld; lm] → prim_store lv ld lm vis d acc σ →
  prim_store lv ld lm vis d' acc (<[ld:=EdgeArray d']> σ).
Proof.
  intros (? & ? & ?)%distinct3 (Hv & Hd & Hm).
  unfold prim_store. by simplify_map_eq.
Qed.

Lemma prim_store_mst lv ld lm vis d acc acc' σ :
  NoDup [lv; ld; lm] → prim_store lv ld lm vis d acc σ →
  prim_store lv ld lm vis d acc' (<[lm:=EdgeArray acc']> σ).
Proof.
  intros (? & ? & ?)%distinct3 (Hv & Hd & Hm).
  unfold prim_store. by simplify_map_eq.
Qed.

Lemma prim_loop_ref_S fuel n la lv ld lm tot :
  prim_loop_ref (S fuel) n la lv ld lm tot =
    (size ← edge_length ld;
     k ← edge_length lm;
     if decide (0 < size ∧ (Z.of_nat k < Z.of_nat n - 1)%Z) then
       top ← pop_ref ld;
       match top with
       | None => throw TypeError
       | Some item =>
           seen ← bool_get lv (v item);
           if seen : bool then prim_loop_ref fuel n la lv ld lm tot
           else
             bool_set lv (v item);;
             edge_push lm (Edge (u item) (v item) (w item));;
             row ← adj_row la (v item);
             len ← row_length row;
             push_unvisited_ref (S len) row lv ld (v item) 0;;
             prim_loop_ref fuel n la lv ld lm (js_add tot (w item))
       end
     else mret tot).
Proof. done. Qed.

(** The [while] loop of [primMST] on the store computes what [prim_loop]
    computes, reads [adj] and its rows, and writes to [visited], the
    heap's array and [mst] only. *)
Lemma prim_loop_ref_spec n la lv ld lm locs rows σ0 :
  NoDup [lv; ld; lm] →
  adj_store la locs rows σ0 →
  la ∉ [lv; ld; lm] → (∀ l, l ∈ locs → l ∉ [lv; ld; lm]) →
  ∀ fuel vis V d acc tot σ,
    agree_outside [lv; ld; lm] σ0 σ →
    prim_store lv ld lm vis d acc σ → marks vis V →
    ∃ vis' d' acc' σ',
      prim_loop_ref fuel n la lv ld lm tot σ =
        (match prim_loop fuel n rows V (MkHeap d) acc tot with
         | Ok (_, t) => Ok t
         | Err e => Err e
         end, σ') ∧
      prim_store lv ld lm vis' d' acc' σ' ∧
      agree_outside [lv; ld; lm] σ0 σ' ∧
      ∀ a t, prim_loop fuel n rows V (MkHeap d) acc tot = Ok (a, t) →
        a = acc'.
Proof.
  intros Hnd [Hla Hrows] Hla' Hlocs.
  pose proof (distinct3 _ _ _ Hnd) as (Hvd & Hvm & Hdm).
  assert (∀ l o σ, l ∈ [lv; ld; lm] → agree_outside [lv; ld; lm] σ0 σ →
    agree_outside [lv; ld; lm] σ0 (<[l:=o]> σ)) as Hins.
  { intros l o σ Hl Hag. eapply agree_outside_trans; [done|].
    by apply agree_outside_insert. }
  induction fuel as [|fuel IH]; intros vis V d acc tot σ Hag Hst Hm.
  { exists vis, d, acc, σ. done. }
  pose proof Hst as (Hv & Hd & Hacc).
  rewrite prim_loop_ref_S, prim_loop_S. unfold size_of. simpl data.
  rewrite (bind_run _ _ _ _ _ (edge_length_run _ _ _ Hd)).
  rewrite (bind_run _ _ _ _ _ (edge_length_run _ _ _ Hacc)).
  case_decide as Hcond.
  2: { exists vis, d, acc, σ. split; [done|]. split; [done|]. split; [done|].
       by intros ? ? [= <- <-]. }
  rewrite (bind_run _ _ _ _ _ (pop_ref_run _ _ _ Hd)).
  destruct (pop (MkHeap d)) as [[item|] h'] eqn:Hpop;
    cbv beta iota; cbn [fst snd]; cbv beta iota.
  2: { eexists vis, _, acc, _. split; [done|].
       split; [by eapply prim_store_data|]. split; [|done].
       apply Hins; [set_solver|done]. }
  set (σ1 := <[ld:=EdgeArray (data h')]> σ).
  assert (prim_store lv ld lm vis (data h') acc σ1) as Hst1.
  { by eapply prim_store_data. }
  assert (agree_outside [lv; ld; lm] σ0 σ1) as Hag1.
  { apply Hins; [set_solver|done]. }
  pose proof Hst1 as (Hv1 & Hd1 & Hacc1).
  rewrite (bind_run _ _ _ _ _ (bool_get_run _ _ _ _ Hv1)).
  rewrite (marks_decide _ _ _ Hm).
  case_decide as Hseen; cbv iota.
  { rewrite <-(heap_eta h'). by apply (IH vis). }
  rewrite (bind_run _ _ _ _ _ (bool_set_run _ _ _ _ Hv1)).
  set (vis2 := set_true vis (v item)).
  set (σ2 := <[lv:=BoolArray vis2]> σ1).
  assert (prim_store lv ld lm vis2 (data h') acc σ2) as Hst2.
  { by eapply prim_store_vis. }
  assert (agree_outside [lv; ld; lm] σ0 σ2) as Hag2.
  { apply Hins; [set_solver|done]. }
  pose proof Hst2 as (Hv2 & Hd2 & Hacc2).
  rewrite (bind_run _ _ _ _ _ (edge_push_run _ _ _ _ Hacc2)).
  set (acc3 := acc ++ [Edge (u item) (v item) (w item)]).
  set (σ3 := <[lm:=EdgeArray acc3]> σ2).
  assert (prim_store lv ld lm vis2 (data h') acc3 σ3) as Hst3.
  { by eapply prim_store_mst. }
  assert (agree_outside [lv; ld; lm] σ0 σ3) as Hag3.
  { apply Hins; [set_solver|done]. }
  pose proof Hst3 as (Hv3 & Hd3 & Hacc3).
  assert (σ3 !! la = Some (AdjArray locs)) as Hla3 by (by rewrite Hag3).
  rewrite (bind_run _ _ _ _ _ (adj_row_run _ _ _ (v item) Hla3)).
  destruct (locs !! v item) as [lrow|] eqn:Hlrow.
  2: { assert (rows !! v item = None) as ->.
       { apply lookup_ge_None. rewrite <-(Forall2_length _ _ _ Hrows).
         by apply lookup_ge_None. }
       by exists vis2, (data h'), acc3, σ3. }
  destruct (Forall2_lookup_l _ _ _ _ _ Hrows Hlrow) as (row & -> & Hrow).
  assert (lrow ∉ [lv; ld; lm]) as Hlrow'.
  { apply Hlocs. by eapply list_elem_of_lookup_2. }
  assert (σ3 !! lrow = Some (RowArray row)) as Hrow3 by (by rewrite Hag3).
  rewrite (bind_run _ _ _ _ _ (row_length_run _ _ _ Hrow3)).
  assert (lrow ≠ ld) as Hrd by set_solver.
  rewrite (bind_run _ _ _ _ _
    (push_unvisited_ref_run lrow lv ld (v item) row vis2 ({[v item]} ∪ V)
       Hrd Hvd (marks_set_true _ _ _ Hm) (S (length row)) 0 (data h') σ3
       Hrow3 Hv3 Hd3 ltac:(lia))).
  rewrite drop_0, heap_eta.
  set (h4 := push_unvisited ({[v item]} ∪ V) h' (v item) row).
  set (σ4 := <[ld:=EdgeArray (data h4)]> σ3).
  assert (prim_store lv ld lm vis2 (data h4) acc3 σ4) as Hst4.
  { by eapply prim_store_data. }
  assert (agree_outside [lv; ld; lm] σ0 σ4) as Hag4.
  { apply Hins; [set_solver|done]. }
  rewrite <-(heap_eta h4).
  apply (IH vis2); [done|done|by apply marks_set_true].
Qed.

Lemma read_adj_store σ la rows :
  read_adj σ la = Some rows ↔ ∃ locs, adj_store la locs rows σ.
Proof.
  assert (∀ l row, read_row σ l = Some row ↔ σ !! l = Some (RowArray row))
    as Hrow.
  { intros l row. unfold read_row.
    destruct (σ !! l) as [[]|]; split; congruence. }
  unfold read_adj, adj_store. split.
  - destruct (σ !! la) as [[| | | |locs]|]; try done.
    intros HM%mapM_Some. exists locs. split; [done|].
    eapply Forall2_impl; [done|]. intros l row. by apply Hrow.
  - intros (locs & -> & HF). apply mapM_Some.
    eapply Forall2_impl; [done|]. intros l row. by apply Hrow.
Qed.

Lemma adj_store_agree W la locs rows σ σ' :
  adj_store la locs rows σ → agree_outside W σ σ' →
  la ∉ W → (∀ l, l ∈ locs → l ∉ W) →
  adj_store la locs rows σ'.
Proof.
  intros [Hla Hrows] Hag Hla' Hlocs. split; [by rewrite Hag|].
  apply Forall2_same_length_lookup. split; [by eapply Forall2_length|].
  intros i l row Hl Hrow. rewrite Hag.
  - destruct (Forall2_lookup_l _ _ _ _ _ Hrows Hl) as (row' & Hrow' & ?).
    congruence.
  - apply Hlocs. by eapply list_elem_of_lookup_2.
Qed.

(** [primMST] on the store returns what [primMST] returns on the contents
    of [adj], and leaves every object of the caller as it was. *)
Lemma primMST_ref_spec n la start rows σ :
  read_adj σ la = Some rows →
  ∃ σ', primMST_ref n la start σ = (primMST_call n rows start, σ') ∧
    ∀ l, l ∈ dom σ → σ' !! l = σ !! l.
Proof.
  intros (locs & Hadj)%read_adj_store. pose proof Hadj as [Hla Hrows].
  unfold primMST_ref, primMST_call.
  case_decide as Hlim; [|by exists σ].
  destruct (new_array_run σ (BoolArray (replicate n false)))
    as (lv & Hrun & Hlv).
  rewrite (bind_run _ _ _ _ _ Hrun). clear Hrun.
  set (σ1 := <[lv:=BoolArray (replicate n false)]> σ).
  destruct (new_array_run σ1 (EdgeArray [])) as (ld & Hrun & Hld).
  rewrite (bind_run _ _ _ _ _ Hrun). clear Hrun.
  set (σ2 := <[ld:=EdgeArray []]> σ1).
  destruct (new_array_run σ2 (EdgeArray [])) as (lm & Hrun & Hlm).
  rewrite (bind_run _ _ _ _ _ Hrun). clear Hrun.
  set (σ3 := <[lm:=EdgeArray []]> σ2).
  assert (lv ≠ ld ∧ σ !! ld = None) as [Hvd Hld0].
  { unfold σ1 in Hld. by apply lookup_insert_None in Hld as [? ?]. }
  assert (ld ≠ lm ∧ lv ≠ lm ∧ σ !! lm = None) as (Hdm & Hvm & Hlm0).
  { unfold σ2, σ1 in Hlm. apply lookup_insert_None in Hlm as [Hlm ?].
    by apply lookup_insert_None in Hlm as [? ?]. }
  assert (NoDup [lv; ld; lm]) as Hnd.
  { repeat (apply NoDup_cons; split; [set_solver|]). apply NoDup_nil_2. }
  assert (∀ l, is_Some (σ !! l) → l ∉ [lv; ld; lm]) as Hold.
  { intros l [o Hl] Hin.
    repeat apply elem_of_cons in Hin as [->|Hin]; try congruence.
    by apply elem_of_nil in Hin. }
  assert (la ∉ [lv; ld; lm]) as Hla' by (by apply Hold).
  assert (∀ l, l ∈ locs → l ∉ [lv; ld; lm]) as Hlocs.
  { intros l [i Hi]%list_elem_of_lookup_1. apply Hold.
    destruct (Forall2_lookup_l _ _ _ _ _ Hrows Hi) as (row & _ & ->). done. }
  assert (agree_outside [lv; ld; lm] σ σ3) as Hag3.
  { unfold σ3, σ2, σ1.
    repeat (eapply agree_outside_trans;
            [|apply agree_outside_insert; set_solver]).
    apply agree_outside_refl. }
  assert (prim_store lv ld lm (replicate n false) [] [] σ3) as Hst3.
  { unfold prim_store, σ3, σ2, σ1. by simplify_map_eq. }
  pose proof Hst3 as (Hv3 & _ & _).
  rewrite (bind_run _ _ _ _ _ (bool_set_run _ _ _ start Hv3)).
  set (vis := set_true (replicate n false) start).
  set (σ4 := <[lv:=BoolArray vis]> σ3).
  assert (prim_store lv ld lm vis [] [] σ4) as Hst4.
  { by eapply prim_store_vis. }
  assert (agree_outside [lv; ld; lm] σ σ4) as Hag4.
  { eapply agree_outside_trans; [done|].
    apply agree_outside_insert. set_solver. }
  assert (marks vis {[start]}) as Hmarks.
  { replace ({[start]} : gset nat) with ({[start]} ∪ ∅ : gset nat)
      by apply union_empty_r_L.
    apply marks_set_true, marks_replicate. }
  assert (∀ l, l ∈ dom σ → σ4 !! l = σ !! l) as Hframe4.
  { intros l Hl%elem_of_dom. apply Hag4. by apply Hold. }
  assert (σ4 !! la = Some (AdjArray locs)) as Hla4 by (by rewrite Hag4).
  rewrite (bind_run _ _ _ _ _ (adj_row_run _ _ _ start Hla4)).
  unfold primMST.
  destruct (locs !! start) as [lrow|] eqn:Hlrow.
  2: { assert (rows !! start = None) as ->.
       { apply lookup_ge_None. rewrite <-(Forall2_length _ _ _ Hrows).
         by apply lookup_ge_None. }
       by exists σ4. }
  destruct (Forall2_lookup_l _ _ _ _ _ Hrows Hlrow) as (row & -> & Hrow).
  assert (lrow ∉ [lv; ld; lm]) as Hlrow'.
  { apply Hlocs. by eapply list_elem_of_lookup_2. }
  assert (σ4 !! lrow = Some (RowArray row)) as Hrow4 by (by rewrite Hag4).
  rewrite (bind_run _ _ _ _ _ (row_length_run _ _ _ Hrow4)).
  assert (lrow ≠ ld) as Hrd by set_solver.
  destruct Hst4 as (Hv4 & Hd4 & Hm4).
  rewrite (bind_run _ _ _ _ _
    (push_row_ref_run lrow ld start row Hrd (S (length row)) 0 [] σ4
       Hrow4 Hd4 ltac:(lia))).
  rewrite drop_0. fold new_MinHeap.
  set (h5 := push_row new_MinHeap start row).
  set (σ5 := <[ld:=EdgeArray (data h5)]> σ4).
  assert (prim_store lv ld lm vis (data h5) [] σ5) as Hst5.
  { by eapply prim_store_data. }
  assert (agree_outside [lv; ld; lm] σ σ5) as Hag5.
  { eapply agree_outside_trans; [done|].
    apply agree_outside_insert. set_solver. }
  assert (read_adj σ5 la = Some rows) as Hread5.
  { apply read_adj_store. exists locs. by eapply adj_store_agree. }
  assert (∀ (f : nat → prog MSTResult),
    (prim_fuel_ref la ≫= f) σ5 = f (prim_fuel rows) σ5) as Hfuel.
  { intros f. unfold mbind, prog_bind, prim_fuel_ref. by rewrite Hread5. }
  rewrite Hfuel. clear Hfuel.
  destruct (prim_loop_ref_spec n la lv ld lm locs rows σ Hnd Hadj Hla' Hlocs
              (prim_fuel rows) vis {[start]} (data h5) [] 0%Z σ5 Hag5 Hst5
              Hmarks)
    as (vis' & d' & acc' & σ' & Hrun & Hst' & Hag' & Hacc).
  rewrite (bind_run _ _ _ _ _ Hrun). clear Hrun.
  rewrite heap_eta in *.
  assert (∀ l, l ∈ dom σ → σ' !! l = σ !! l) as Hframe.
  { intros l Hl%elem_of_dom. apply Hag'. by apply Hold. }
  destruct (prim_loop (prim_fuel rows) n rows {[start]} h5 [] 0%Z)
    as [[acc tot]|err]; simpl; [|by exists σ'].
  rewrite <-(Hacc acc tot eq_refl) in *.
  destruct Hst' as (_ & _ & Hm').
  rewrite (bind_run _ _ _ _ _ (edge_length_run _ _ _ Hm')).
  case_decide; [|by exists σ'].
  rewrite (bind_run _ _ _ _ _ (edge_array_run _ _ _ Hm')).
  by exists σ'.
Qed.

End store.

(** * Decision procedures for the hypotheses *)

#[global] Instance in_range_dec n E : Decision (in_range n E).
Proof.
  refine (cast_if (decide (Forall (λ e, u e < n ∧ v e < n) E)));
    abstract (unfold in_range; by rewrite Forall_forall in *).
Defined.

Lemma connected_Forall n E :
  connected n E ↔
  Forall (λ x, Forall (λ y, conn E x y) (seq 0 n)) (seq 0 n).
Proof.
  unfold connected. rewrite Forall_forall. setoid_rewrite Forall_forall.
  setoid_rewrite elem_of_seq. split.
  - intros H x Hx y Hy. apply H; lia.
  - intros H x y Hx Hy. apply H; lia.
Qed.

#[global] Instance connected_dec n E : Decision (connected n E).
Proof.
  refine (cast_if (decide
    (Forall (λ x, Forall (λ y, conn E x y) (seq 0 n)) (seq 0 n))));
    abstract (by rewrite connected_Forall).
Defined.

Lemma valid_edges_in_range n E : valid_edges n E → in_range n E.
Proof.
  unfold valid_edges, valid_edge, in_range. rewrite Forall_forall.
  intros H e He. destruct (H e He) as (? & ? & _). done.
Qed.

(** * The claims *)

Section claims.
Implicit Types (E : list edge) (n start : nat).








(** C4, as amended.  For [n < 2 ^ 32]: on an input that is not connected,
    [kruskalMST] and [primMST] (from any start vertex below [n]) raise the
    disconnected-graph error; on a connected input neither raises;
    whatever either returns has [n - 1] edges, so no partial tree is ever
    returned; and [n = 4] with the single edge [(0,1,5)] makes both
    fail. *)
Theorem error_iff_disconnected n E :
  0 < n → (Z.of_nat n < 2 ^ 32)%Z → in_range n E →
  (¬ connected n E →
     kruskalMST_call n E = Err NotConnected ∧
     ∀ start, start < n →
       primMST_of_edges_call n E start = Err NotConnected) ∧
  (connected n E →
     (∃ r, kruskalMST_call n E = Ok r) ∧
     ∀ start, start < n → ∃ r, primMST_of_edges_call n E start = Ok r) ∧
  (∀ r, kruskalMST_call n E = Ok r →
     Z.of_nat (length (mst r)) = (Z.of_nat n - 1)%Z) ∧
  (∀ start r, primMST_of_edges_call n E start = Ok r →
     Z.of_nat (length (mst r)) = (Z.of_nat n - 1)%Z) ∧
  kruskalMST_call 4 disconnected_edges = Err NotConnected ∧
  primMST_of_edges_call 4 disconnected_edges 0 = Err NotConnected.
Proof.
  intros Hn Hlim Hrange.
  rewrite (kruskalMST_call_eq n E Hlim).
  assert (∀ start, primMST_of_edges_call n E start = primMST_of_edges n E start)
    as Hcall by (intros; by apply primMST_of_edges_call_eq).
  assert (∀ start, start < n →
    (connected n E ∧ ∃ r, primMST_of_edges n E start = Ok r) ∨
    (¬ connected n E ∧ primMST_of_edges n E start = Err NotConnected))
    as Hprim.
  { intros start Hstart. unfold primMST_of_edges.
    destruct (buildAdj_spec n E Hrange) as (adj & -> & Hadj). simpl.
    destruct (primMST_cases n E adj start Hrange Hadj Hstart)
      as [(? & F & HF & _)|[? ?]]; [left|by right].
    split; [done|]. by eexists. }
  split; [|split; [|split; [|split; [|split]]]].
  - intros Hnc. split.
    + by destruct (kruskalMST_cases n E Hn Hrange) as [[? _]|[_ ?]].
    + intros start Hstart. rewrite Hcall.
      by destruct (Hprim start Hstart) as [[? _]|[_ ?]].
  - intros Hc. split.
    + destruct (kruskalMST_cases n E Hn Hrange) as [(_ & F & ? & _)|[? _]];
        [by eexists|done].
    + intros start Hstart. rewrite Hcall.
      by destruct (Hprim start Hstart) as [[_ ?]|[? _]].
  - intros r. unfold kruskalMST, kruskal_sorted.
    destruct (kruskal_loop _ _ _ _ _) as [[acc tot]|]; simpl; [|done].
    case_decide; [|done]. by intros [= <-].
  - intros start r. rewrite Hcall. unfold primMST_of_edges.
    destruct (buildAdj n E) as [adj|]; simpl; [|done]. unfold primMST.
    destruct (adj !! start); [|done].
    destruct (prim_loop _ _ _ _ _ _ _) as [[acc tot]|]; simpl; [|done].
    case_decide; [|done]. by intros [= <-].
  - by vm_compute.
  - by vm_compute.
Qed.

Lemma error_iff_disconnected_witness :
  kruskalMST_call 4 disconnected_edges = Err NotConnected ∧
  ∀ start, start < 4 →
    primMST_of_edges_call 4 disconnected_edges start = Err NotConnected.
Proof.
  refine (proj1 (error_iff_disconnected 4 disconnected_edges _ _ _) _).
  - lia.
  - lia.
  - apply (bool_decide_unpack _). vm_compute. exact I.
  - apply (bool_decide_unpack (¬ connected 4 disconnected_edges)).
    vm_compute. exact I.
Defined.

(** C4, as stated, fails: an array of length [2 ^ 32] cannot be created.
    For [n = 2 ^ 32] and the valid edge list [(0,1,5)], which does not
    connect the vertices, both calls end with a [RangeError] in their
    first statement, not with the disconnected-graph error. *)
Lemma error_iff_disconnected_counterexample :
  valid_edges (Z.to_nat (2 ^ 32)) disconnected_edges ∧
  (¬ connected (Z.to_nat (2 ^ 32)) disconnected_edges) ∧
  kruskalMST_call (Z.to_nat (2 ^ 32)) disconnected_edges = Err RangeError ∧
  primMST_of_edges_call (Z.to_nat (2 ^ 32)) disconnected_edges 0
    = Err RangeError.
Proof.
  assert (¬ array_length (Z.to_nat (2 ^ 32))) as Hbig.
  { unfold array_length. lia. }
  split; [|split; [|split]].
  - apply Forall_singleton. unfold valid_edge. simpl. lia.
  - intros Hconn.
    assert (¬ conn disconnected_edges 0 2) as Hnc.
    { apply (bool_decide_unpack _). vm_compute. exact I. }
    apply Hnc, Hconn; lia.
  - unfold kruskalMST_call. by rewrite decide_False.
  - unfold primMST_of_edges_call, buildAdj_call. by rewrite decide_False.
Qed.

(** C5.  For every batch of items pushed onto a fresh heap, popping
    until [pop] returns the empty signal takes one pop per item and one
    more, and yields exactly the items of the batch, their weights in
    non-decreasing order; [pop] on an empty heap returns the empty signal
    and leaves the heap empty. *)
Theorem heap_pops_in_order (items : list edge) :
  (∃ out, drain (S (length items)) (push_all items) = Some out ∧
     out ≡ₚ items ∧ StronglySorted Z.le (w <$> out)) ∧
  pop new_MinHeap = (None, new_MinHeap).
Proof.
  split; [|done].
  destruct (push_all_ok items) as [Hok Hperm].
  destruct (drain_ok (S (length items)) (push_all items) Hok)
    as (out & Hdrain & Hout & Hsorted).
  { rewrite Hperm. lia. }
  exists out. split; [done|]. split; [by rewrite Hout|].
  clear -Hsorted. induction Hsorted as [|x out _ IH Hx]; [constructor|].
  rewrite fmap_cons. constructor; [done|].
  rewrite Forall_fmap. by apply (Forall_impl _ _ _ Hx).
Qed.

(** C6, as amended.  On a well-formed union-find state, for vertices [a]
    and [b] in range, [union(a,b)] called twice in a row answers [true]
    the first time exactly when [a] and [b] were in different sets, and
    [false] the second time; on a fresh [DisjointSet] two distinct
    vertices give [true] then [false]. *)
Theorem union_twice_spec n ds a b :
  ds_wf n ds → a < n → b < n →
  (∃ r1, union_twice ds a b = Ok (r1, false) ∧
     (r1 = true ↔ ¬ same_set (parent ds) a b)) ∧
  (a ≠ b → union_twice (new_DisjointSet n) a b = Ok (true, false)).
Proof.
  intros Hwf Ha Hb.
  assert (∀ ds0, ds_wf n ds0 →
    ∃ r1, union_twice ds0 a b = Ok (r1, false) ∧
      (r1 = true ↔ ¬ same_set (parent ds0) a b)) as Hgen.
  { intros ds0 Hwf0. unfold union_twice.
    destruct (union_spec n ds0 a b Hwf0 Ha Hb)
      as (ds1 & r1 & -> & Hwf1 & Hr1 & Hss1 & _).
    simpl.
    destruct (union_spec n ds1 a b Hwf1 Ha Hb)
      as (ds2 & r2 & -> & _ & Hr2 & _).
    simpl. assert (r2 = false) as ->.
    { apply Hr2, Hss1; [done..|]. right. left.
      destruct Hwf0 as (_ & _ & Hall).
      destruct (Hall a Ha) as [ra Hra], (Hall b Hb) as [rb Hrb].
      split; [by exists ra|by exists rb]. }
    exists r1. split; [done|]. rewrite <-Hr1. by destruct r1. }
  split; [by apply Hgen|]. intros Hne.
  destruct (Hgen (new_DisjointSet n) (ds_wf_new n)) as (r1 & -> & Hr1).
  do 2 f_equal. apply Hr1. by rewrite same_set_new.
Qed.

Lemma union_twice_spec_witness :
  (∃ r1, union_twice (new_DisjointSet 3) 0 1 = Ok (r1, false) ∧
     (r1 = true ↔ ¬ same_set (parent (new_DisjointSet 3)) 0 1)) ∧
  (0 ≠ 1 → union_twice (new_DisjointSet 3) 0 1 = Ok (true, false)).
Proof.
  apply (union_twice_spec 3 (new_DisjointSet 3) 0 1).
  - split; [reflexivity|]. split; [reflexivity|].
    intros x Hx. exists x. apply rooted_self.
    destruct x as [|[|[|x]]]; [reflexivity..|lia].
  - lia.
  - lia.
Defined.

(** C6, as stated, fails: in the state reached from a fresh
    [DisjointSet(2)] by [union(0,1)], the two vertices are already in one
    set and [union(0,1)] answers [false] both times; and on the fresh
    state [union(0,0)] answers [false] the first time. *)
Lemma union_twice_counterexample :
  union (new_DisjointSet 2) 0 1 = Ok (MkDS [0; 0] [1; 0], true) ∧
  union_twice (MkDS [0; 0] [1; 0]) 0 1 = Ok (false, false) ∧
  union_twice (new_DisjointSet 2) 0 0 = Ok (false, false).
Proof. by vm_compute. Qed.

(** C7.  On [n = 4] with edges [(0,1,1), (1,2,2), (2,3,3), (0,3,10)],
    [kruskalMST] and [primMST] on [buildAdj] (from vertex 0, the default)
    both return the edges [(0,1,1), (1,2,2), (2,3,3)] with total 6; from
    the other start vertices [primMST] returns the same undirected edges,
    also with total 6. *)
Theorem example_both_algorithms :
  kruskalMST 4 example_edges = Ok (MkResult example_mst 6) ∧
  primMST_of_edges 4 example_edges 0 = Ok (MkResult example_mst 6) ∧
  Forall (λ start,
    ∃ r, primMST_of_edges 4 example_edges start = Ok r ∧
      total r = 6%Z ∧ length (mst r) = 3 ∧
      Forall (λ e, e ∈ example_mst ∨ flip e ∈ example_mst) (mst r))
    [0; 1; 2; 3].
Proof.
  split; [by vm_compute|]. split; [by vm_compute|].
  repeat constructor.
  - eexists. split; [by vm_compute|]. simpl. unfold example_mst, flip.
    split; [done|]. split; [done|]. repeat constructor; set_solver.
  - eexists. split; [by vm_compute|]. simpl. unfold example_mst, flip.
    split; [done|]. split; [done|]. repeat constructor; set_solver.
  - eexists. split; [by vm_compute|]. simpl. unfold example_mst, flip.
    split; [done|]. split; [done|]. repeat constructor; set_solver.
  - eexists. split; [by vm_compute|]. simpl. unfold example_mst, flip.
    split; [done|]. split; [done|]. repeat constructor; set_solver.
Qed.

(** C8.  Neither algorithm changes its inputs.  With every array of the
    program an object in a store and every assignment to an array of the
    source a write to that store: on any store, [kruskalMST] called with
    a reference to an array [edges] with vertices in [0, n) ends as it
    ends on the contents of that array (sorting happens on a copy), and
    [primMST] called with a reference to [adj] ends as it ends on the
    contents of [adj]; and when the call has ended, by [return] or by
    [throw], every object that existed before the call, [edges] and [adj]
    with its rows among them, is as it was. *)
Theorem inputs_unchanged n (σ : gmap nat obj) :
  (∀ edges es, σ !! edges = Some (EdgeArray es) → in_range n es →
     ∃ σ', kruskalMST_ref n edges σ = (kruskalMST_call n es, σ') ∧
       σ' !! edges = Some (EdgeArray es) ∧
       ∀ l, l ∈ dom σ → σ' !! l = σ !! l) ∧
  (∀ adj rows start, read_adj σ adj = Some rows →
     ∃ σ', primMST_ref n adj start σ = (primMST_call n rows start, σ') ∧
       read_adj σ' adj = Some rows ∧
       ∀ l, l ∈ dom σ → σ' !! l = σ !! l).
Proof.
  split.
  - intros edges es Hes _.
    destruct (kruskalMST_ref_spec n edges es σ Hes) as (σ' & Hrun & Hframe).
    exists σ'. split; [done|]. split; [|done].
    rewrite Hframe; [done|]. by apply elem_of_dom.
  - intros adj rows start Hrows.
    destruct (primMST_ref_spec n adj start rows σ Hrows)
      as (σ' & Hrun & Hframe).
    exists σ'. split; [done|]. split; [|done].
    apply read_adj_store in Hrows as (locs & Hla & HF).
    apply read_adj_store. exists locs. split.
    + rewrite Hframe; [done|]. by apply elem_of_dom.
    + eapply Forall2_impl; [done|]. intros l row Hl. simpl in Hl.
      rewrite Hframe; [done|]. by apply elem_of_dom.
Qed.

(** The store tells the difference.  On an array that is not sorted,
    [kruskalMST] returns the edges in sorted order and leaves the caller's
    array as it was, while [sort] on the caller's array changes it; and
    [primMST] leaves [adj] and the rows it refers to as they were, while
    a [push] on a row changes [adj] as the caller reads it. *)
Example kruskalMST_ref_example :
  let σ : gmap nat obj := {[7 := EdgeArray [Edge 0 1 2; Edge 1 2 1]]} in
  (kruskalMST_ref 3 7 σ).1 = Ok (MkResult [Edge 1 2 1; Edge 0 1 2] 3) ∧
  (kruskalMST_ref 3 7 σ).2 !! 7 = Some (EdgeArray [Edge 0 1 2; Edge 1 2 1]) ∧
  (sort_ref 7 σ).2 !! 7 = Some (EdgeArray [Edge 1 2 1; Edge 0 1 2]).
Proof. by vm_compute. Qed.

Example primMST_ref_example :
  let σ : gmap nat obj :=
    {[0 := AdjArray [1; 2];
      1 := RowArray [Adj.Entry 1 5];
      2 := RowArray [Adj.Entry 0 5]]} in
  let rows := [[Adj.Entry 1 5]; [Adj.Entry 0 5]] in
  read_adj σ 0 = Some rows ∧
  (primMST_ref 2 0 0 σ).1 = Ok (MkResult [Edge 0 1 5] 5) ∧
  read_adj (primMST_ref 2 0 0 σ).2 0 = Some rows ∧
  read_adj (store 1 (RowArray [Adj.Entry 1 5; Adj.Entry 1 7]) σ).2 0
    = Some [[Adj.Entry 1 5; Adj.Entry 1 7]; [Adj.Entry 0 5]].
Proof. by vm_compute. Qed.

(** C9.  After any sequence of [push] and [pop] on a heap that starts
    empty, every entry of the array at an index [i > 0] weighs at least as
    much as its parent at index [(i - 1) / 2], and the entry at index 0 is
    a lightest one. *)
Theorem heap_order_invariant (ops : list heap_op) :
  let d := data (run_ops ops) in
  (∀ i x p, 0 < i → d !! i = Some x → d !! ((i - 1) / 2) = Some p →
     (w p ≤ w x)%Z) ∧
  (∀ i x top, d !! 0 = Some top → d !! i = Some x → (w top ≤ w x)%Z).
Proof.
  intros d. pose proof (run_ops_ok ops) as Hok. fold d in Hok. split.
  - intros i x p Hi Hx Hp.
    rewrite <-(wt_lookup _ _ _ Hx), <-(wt_lookup _ _ _ Hp).
    apply Hok; [by eapply lookup_lt_Some|by apply parent_child].
  - intros i x top Htop Hx.
    rewrite <-(wt_lookup _ _ _ Hx), <-(wt_lookup _ _ _ Htop).
    apply heap_root_min; [done|by eapply lookup_lt_Some].
Qed.

(** C10.  For [n = 1], [kruskalMST] on every edge list with vertices in
    range (which leaves only self-loops, if anything), and [primMST] from
    vertex 0 on every adjacency array that has a row for vertex 0, return
    the empty edge sequence with total 0 without raising. *)
Theorem single_vertex E (row : list Adj.entry) (rest : list (list Adj.entry)) :
  in_range 1 E →
  kruskalMST 1 E = Ok (MkResult [] 0) ∧
  primMST 1 (row :: rest) 0 = Ok (MkResult [] 0) ∧
  primMST_of_edges 1 E 0 = Ok (MkResult [] 0).
Proof.
  intros Hrange.
  assert (∀ adj r0, adj !! 0 = Some r0 → primMST 1 adj 0 = Ok (MkResult [] 0))
    as Hprim.
  { intros adj r0 Hr0. unfold primMST, prim_fuel. rewrite Hr0, prim_loop_S.
    rewrite decide_False by (simpl; lia). done. }
  split; [|split].
  - destruct (kruskalMST_cases 1 E) as [(_ & F & -> & Hlen & _)|[Hnc _]];
      [lia|done| |].
    + by destruct F.
    + exfalso. apply Hnc. intros x y Hx Hy.
      replace y with x by lia. constructor.
  - by apply (Hprim _ row).
  - unfold primMST_of_edges.
    destruct (buildAdj_spec 1 E Hrange) as (adj & -> & Hlen & _). simpl.
    destruct adj as [|r0 adj]; [done|]. by apply (Hprim _ r0).
Qed.

Lemma single_vertex_witness :
  kruskalMST 1 [Edge 0 0 7] = Ok (MkResult [] 0) ∧
  primMST 1 ([Adj.Entry 0 7; Adj.Entry 0 7] :: []) 0 = Ok (MkResult [] 0) ∧
  primMST_of_edges 1 [Edge 0 0 7] 0 = Ok (MkResult [] 0).
Proof.
  apply (single_vertex [Edge 0 0 7] [Adj.Entry 0 7; Adj.Entry 0 7] []).
  apply (bool_decide_unpack _). vm_compute. exact I.
Defined.

End claims.

(** * Further properties of the code *)

(** ** The heap on arbitrary arrays *)

Section heap_any.
Implicit Types (d : list edge) (h : MinHeap) (i : nat) (x : edge).

Lemma bubbleUp_loop_perm fuel d i :
  i < length d → bubbleUp_loop fuel d i ≡ₚ d.
Proof.
  revert d i. induction fuel as [|fuel IH]; intros d i Hi; [done|].
  rewrite bubbleUp_loop_S. repeat case_decide; try done.
  pose proof (parent_child i ltac:(done)) as Hp.
  set (p := (i - 1) / 2) in *. clearbody p.
  assert (p < i) by (unfold child in Hp; lia).
  rewrite IH by (rewrite length_swap; lia). apply swap_perm; lia.
Qed.

Lemma bubbleDown_loop_perm fuel d i :
  i < length d → bubbleDown_loop fuel d i ≡ₚ d.
Proof.
  revert d i. induction fuel as [|fuel IH]; intros d i Hi; [done|].
  rewrite bubbleDown_loop_S. case_decide; [done|].
  destruct (smallest_of_cases d i) as [?|[? ?]]; [done|].
  rewrite IH by (by rewrite length_swap). apply swap_perm; lia.
Qed.

Lemma push_perm h x : data (push h x) ≡ₚ x :: data h.
Proof.
  unfold push, bubbleUp. simpl.
  rewrite bubbleUp_loop_perm by (rewrite length_app; simpl; lia).
  by rewrite Permutation_app_comm.
Qed.

Lemma pop_perm h top h' :
  pop h = (Some top, h') →
  data h !! 0 = Some top ∧ data h ≡ₚ top :: data h'.
Proof.
  destruct h as [d]. destruct d as [|t d]; [done|].
  destruct d as [|y d _] using rev_ind.
  - rewrite pop_singleton. by intros [= <- <-].
  - rewrite pop_snoc. intros [= <- <-]. split; [done|]. simpl.
    unfold bubbleDown. rewrite bubbleDown_loop_perm by (simpl; lia).
    f_equiv. by rewrite Permutation_app_comm.
Qed.

Lemma pop_None h h' : pop h = (None, h') → data h = [] ∧ h' = h.
Proof.
  destruct h as [d]. unfold pop. simpl. destruct d as [|t d].
  - by intros [= <-].
  - by case_decide.
Qed.

(** X1.  On any array, heap-ordered or not, [push] adds exactly the item
    and [pop] removes exactly the entry at index 0: no entry is lost or
    repeated, [size] grows by one on [push] and shrinks by one on [pop],
    and [pop] on the empty heap returns the empty signal and changes
    nothing. *)
Theorem heap_keeps_entries h x :
  data (push h x) ≡ₚ x :: data h ∧
  size_of (push h x) = S (size_of h) ∧
  match pop h with
  | (None, h') => data h = [] ∧ h' = h
  | (Some top, h') =>
      data h !! 0 = Some top ∧ data h ≡ₚ top :: data h' ∧
      size_of h = S (size_of h')
  end.
Proof.
  split; [apply push_perm|]. split.
  - unfold size_of. by rewrite push_perm.
  - destruct (pop h) as [[top|] h'] eqn:Hpop.
    + destruct (pop_perm _ _ _ Hpop) as [? Hperm].
      split; [done|]. split; [done|]. unfold size_of. by rewrite Hperm.
    + by apply pop_None.
Qed.

End heap_any.

(** ** Union-find: path compression and merging *)

Section union_find_more.
Implicit Types (p : list nat) (ds : DisjointSet) (x y z r a b : nat).

Lemma length_compress p l r : length (compress p l r) = length p.
Proof.
  induction l as [|y l IH]; simpl; [done|]. by rewrite length_insert.
Qed.

Lemma lookup_compress p l r y :
  (∀ z, z ∈ l → z < length p) →
  compress p l r !! y = if decide (y ∈ l) then Some r else p !! y.
Proof.
  induction l as [|z l IH]; intros Hlt.
  - rewrite decide_False; [done|]. by intros ?%elem_of_nil.
  - change (compress p (z :: l) r) with (<[z:=r]> (compress p l r)).
    assert (∀ z', z' ∈ l → z' < length p) as Hlt'.
    { intros z' Hz'. apply Hlt, elem_of_cons. by right. }
    destruct (decide (z = y)) as [->|Hne].
    + rewrite list_lookup_insert_eq.
      * rewrite decide_True; [done|]. apply elem_of_cons. by left.
      * rewrite length_compress. apply Hlt, elem_of_cons. by left.
    + rewrite list_lookup_insert_ne, IH by done.
      destruct (decide (y ∈ l)) as [Hy|Hy].
      * rewrite decide_True; [done|]. apply elem_of_cons. by right.
      * rewrite decide_False; [done|].
        intros [?|?]%elem_of_cons; [congruence|done].
Qed.

Lemma ds_eta ds : MkDS (parent ds) (rank ds) = ds.
Proof. by destruct ds. Qed.

(** [find] along a chain: the result in closed form. *)
Lemma find_chain_compress ds x r l fuel :
  chain (parent ds) x r l → length l ≤ fuel →
  find fuel ds x = Ok (MkDS (compress (parent ds) l r) (rank ds), r).
Proof.
  intros Hc. revert fuel.
  induction Hc as [x Hx|x y r l Hx Hne Hc IH]; intros [|fuel] Hfuel;
    simpl in *; try lia.
  - rewrite Hx. simpl. rewrite decide_True by done.
    by rewrite list_insert_id, ds_eta by done.
  - rewrite Hx. simpl. rewrite decide_False by done.
    rewrite (IH fuel) by lia. done.
Qed.

(** X2.  On a well-formed state [find(x)] returns the root of [x]; it
    changes no rank and no vertex's root; afterwards every vertex that was
    on the path from [x] to the root points directly at the root and every
    other parent pointer is as before; and a second [find(x)] returns the
    same root and changes nothing. *)
Theorem find_path_compression n ds x :
  ds_wf n ds → x < n →
  ∃ ds' r l, find (find_fuel ds) ds x = Ok (ds', r) ∧
    chain (parent ds) x r l ∧ parent ds !! r = Some r ∧
    rank ds' = rank ds ∧
    (∀ y, parent ds' !! y = if decide (y ∈ l) then Some r else parent ds !! y) ∧
    (∀ z rz, rooted (parent ds') z rz ↔ rooted (parent ds) z rz) ∧
    find (find_fuel ds') ds' x = Ok (ds', r).
Proof.
  intros (Hlen & Hrk & Hall) Hx. destruct (Hall x Hx) as [r Hr].
  destruct (rooted_chain _ _ _ Hr) as [l Hl].
  pose proof (chain_length _ _ _ _ Hl) as Hll.
  pose proof (find_chain_compress ds x r l (find_fuel ds) Hl Hll) as Hfind.
  destruct (find_chain ds x r l (find_fuel ds) Hl Hll)
    as (ds' & Hfind' & Hrk' & Hlen' & Heq).
  assert (ds' = MkDS (compress (parent ds) l r) (rank ds)) as Hds'
    by congruence.
  assert (∀ y, parent ds' !! y =
            if decide (y ∈ l) then Some r else parent ds !! y) as Hlk.
  { intros y. rewrite Hds'. simpl. apply lookup_compress.
    intros z Hz. by eapply chain_lt. }
  assert (x ∈ l) as Hxl.
  { inversion Hl; subst; apply elem_of_cons; by left. }
  clear Hds' Hfind.
  exists ds', r, l. split; [done|]. split; [done|].
  split; [by eapply rooted_root|]. split; [done|]. split; [done|].
  split; [done|].
  assert (rooted (parent ds') x r) as Hr' by by apply Heq.
  destruct (rooted_chain _ _ _ Hr') as [l' Hl'].
  rewrite (find_chain_compress ds' x r l' (find_fuel ds') Hl')
    by by eapply chain_length.
  do 2 f_equal. rewrite <-(ds_eta ds') at 3. f_equal.
  assert (parent ds' !! x = Some r) as Hxr.
  { by rewrite Hlk, decide_True. }
  assert (∀ z, z ∈ l' → parent ds' !! z = Some r) as Hpt.
  { pose proof (rooted_root _ _ _ Hr') as Hroot.
    inversion Hl' as [? Hxx|? y ? l'' Hxy Hne Hc']; subst.
    - by intros z ->%list_elem_of_singleton.
    - assert (y = r) as -> by congruence.
      inversion Hc' as [? Hrr|? y' ? ? Hry ? ?]; subst; [|congruence].
      intros z [-> | ->%list_elem_of_singleton]%elem_of_cons; done. }
  clear -Hpt. induction l' as [|z l' IH]; simpl; [done|].
  rewrite IH by (intros z' ?; apply Hpt, elem_of_cons; by right).
  apply list_insert_id, Hpt, elem_of_cons. by left.
Qed.

Lemma find_path_compression_witness :
  ∃ ds' r l, find (find_fuel (MkDS [1; 2; 2] [0; 1; 2])) (MkDS [1; 2; 2] [0; 1; 2]) 0
      = Ok (ds', r) ∧
    chain (parent (MkDS [1; 2; 2] [0; 1; 2])) 0 r l ∧
    parent (MkDS [1; 2; 2] [0; 1; 2]) !! r = Some r ∧
    rank ds' = rank (MkDS [1; 2; 2] [0; 1; 2]) ∧
    (∀ y, parent ds' !! y =
       if decide (y ∈ l) then Some r
       else parent (MkDS [1; 2; 2] [0; 1; 2]) !! y) ∧
    (∀ z rz, rooted (parent ds') z rz ↔
       rooted (parent (MkDS [1; 2; 2] [0; 1; 2])) z rz) ∧
    find (find_fuel ds') ds' 0 = Ok (ds', r).
Proof.
  apply (find_path_compression 3 (MkDS [1; 2; 2] [0; 1; 2]) 0).
  - split; [reflexivity|]. split; [reflexivity|].
    intros x Hx. exists 2.
    destruct x as [|[|[|x]]]; [| | |lia].
    + eapply rooted_step; [reflexivity|lia|].
      eapply rooted_step; [reflexivity|lia|]. apply rooted_self. reflexivity.
    + eapply rooted_step; [reflexivity|lia|]. apply rooted_self. reflexivity.
    + apply rooted_self. reflexivity.
  - lia.
Defined.

(** X3.  On a well-formed state [union(a,b)] returns, keeps the state
    well-formed, answers [true] exactly when [a] and [b] were in different
    sets, leaves [a] and [b] in one set, merges exactly these two sets
    (every other pair is together afterwards iff it was before), and
    lowers the number of sets by one exactly when it answers [true]. *)
Theorem union_merges n ds a b :
  ds_wf n ds → a < n → b < n →
  ∃ ds' res, union ds a b = Ok (ds', res) ∧ ds_wf n ds' ∧
    (res = true ↔ ¬ same_set (parent ds) a b) ∧
    same_set (parent ds') a b ∧
    (∀ x y, x < n → y < n →
       same_set (parent ds') x y ↔ joined (parent ds) a b x y) ∧
    length (roots (parent ds)) =
      length (roots (parent ds')) + (if res then 1 else 0).
Proof.
  intros Hwf Ha Hb.
  destruct (union_spec n ds a b Hwf Ha Hb)
    as (ds' & res & Hu & Hwf' & Hres & Hss & Hroots).
  exists ds', res. split; [done|]. split; [done|].
  split; [rewrite <-Hres; by destruct res|]. split; [|done].
  apply Hss; [done..|]. right. left.
  destruct Hwf as (_ & _ & Hall).
  destruct (Hall a Ha) as [ra Hra], (Hall b Hb) as [rb Hrb].
  split; [by exists ra|by exists rb].
Qed.

Lemma union_merges_witness :
  ∃ ds' res, union (new_DisjointSet 3) 0 2 = Ok (ds', res) ∧ ds_wf 3 ds' ∧
    (res = true ↔ ¬ same_set (parent (new_DisjointSet 3)) 0 2) ∧
    same_set (parent ds') 0 2 ∧
    (∀ x y, x < 3 → y < 3 →
       same_set (parent ds') x y ↔
       joined (parent (new_DisjointSet 3)) 0 2 x y) ∧
    length (roots (parent (new_DisjointSet 3))) =
      length (roots (parent ds')) + (if res then 1 else 0).
Proof.
  apply (union_merges 3 (new_DisjointSet 3) 0 2).
  - split; [reflexivity|]. split; [reflexivity|].
    intros x Hx. exists x. apply rooted_self.
    destruct x as [|[|[|x]]]; [reflexivity..|lia].
  - lia.
  - lia.
Defined.

End union_find_more.

(** ** Union by rank keeps the trees shallow *)

Section union_by_rank.
Implicit Types (p : list nat) (ds : DisjointSet) (x y z r a b c : nat).

Lemma chain_rank ds x r l :
  rank_ok ds → chain (parent ds) x r l →
  rank ds !!! x + length l ≤ S (rank ds !!! r).
Proof.
  intros Hrk. induction 1 as [x Hx|x y r l Hx Hne _ IH]; simpl; [lia|].
  pose proof (Hrk x y Hx Hne). lia.
Qed.

Lemma chain_rank_member ds x r l y :
  rank_ok ds → chain (parent ds) x r l → y ∈ l → y ≠ r →
  rank ds !!! y < rank ds !!! r.
Proof.
  intros Hrk Hc Hy Hne.
  destruct (chain_suffix _ _ _ _ _ Hc Hy) as (l' & Hc' & _).
  pose proof (chain_rank ds y r l' Hrk Hc') as Hle.
  inversion Hc'; subst; [done|]. simpl in Hle.
  assert (0 < length l0); [|lia].
  match goal with H : chain _ _ _ l0 |- _ => inversion H; simpl; lia end.
Qed.

Lemma rooted_bound n p r l :
  length p = n → NoDup l → (∀ x, x ∈ l → rooted p x r) → length l ≤ n.
Proof.
  intros <- Hnd Hl. rewrite <-(length_seq (length p) 0).
  apply submseteq_length, NoDup_submseteq; [done|].
  intros x Hx. apply elem_of_seq. apply Hl, rooted_lt in Hx. lia.
Qed.

(** Path compression keeps the three invariants. *)
Lemma compress_inv n ds x r l :
  ds_wf n ds → rank_ok ds → size_ok ds → chain (parent ds) x r l →
  let ds' := MkDS (compress (parent ds) l r) (rank ds) in
  ds_wf n ds' ∧ rank_ok ds' ∧ size_ok ds' ∧
  ∀ z rz, rooted (parent ds') z rz ↔ rooted (parent ds) z rz.
Proof.
  intros (Hlen & Hrklen & Hall) Hrk Hsz Hc ds'.
  pose proof (chain_length _ _ _ _ Hc) as Hll.
  destruct (find_chain ds x r l (length l) Hc) as (ds0 & Hf & _ & _ & Heq);
    [done|].
  rewrite (find_chain_compress ds x r l (length l) Hc) in Hf by done.
  injection Hf as <-. fold ds' in Heq.
  split; [|split; [|split; [|done]]].
  - split; [simpl; by rewrite length_compress|]. split; [done|].
    intros z [rz Hz]%Hall. exists rz. by apply Heq.
  - intros y q. unfold ds'. simpl. rewrite lookup_compress
      by (intros z Hz; by eapply chain_lt).
    case_decide as Hy; [|by apply Hrk].
    intros [= <-] Hne. by eapply chain_rank_member.
  - intros r0 Hr0. destruct (Hsz r0) as (l0 & Hnd & Hl0 & Hpow).
    { apply root_iff, Heq. by apply root_iff. }
    exists l0. split; [done|]. split; [|done].
    intros z Hz. by apply Heq, Hl0.
Qed.

Lemma find_inv n ds x ds' r :
  ds_wf n ds → rank_ok ds → size_ok ds →
  find (find_fuel ds) ds x = Ok (ds', r) →
  ds_wf n ds' ∧ rank_ok ds' ∧ size_ok ds' ∧
  rooted (parent ds) x r ∧ rank ds' = rank ds ∧
  ∀ z rz, rooted (parent ds') z rz ↔ rooted (parent ds) z rz.
Proof.
  intros Hwf Hrk Hsz Hf.
  assert (x < n) as Hx.
  { destruct Hwf as (Hlen & _). unfold find_fuel in Hf. rewrite Hlen in Hf.
    destruct n as [|n]; [done|]. simpl in Hf.
    destruct (parent ds !! x) eqn:Hp; [|done].
    apply lookup_lt_Some in Hp. lia. }
  destruct Hwf as (Hlen & Hrklen & Hall).
  destruct (Hall x Hx) as [r0 Hr0].
  destruct (rooted_chain _ _ _ Hr0) as [l Hl].
  rewrite (find_chain_compress ds x r0 l (find_fuel ds) Hl) in Hf
    by by eapply chain_length.
  injection Hf as <- <-.
  destruct (compress_inv n ds x r0 l) as (? & ? & ? & ?); done.
Qed.

(** Linking a root below a root of larger rank, or of equal rank with the
    survivor's rank raised, keeps the invariants. *)
Lemma link_inv n ds c r rk' :
  ds_wf n ds → rank_ok ds → size_ok ds →
  parent ds !! c = Some c → parent ds !! r = Some r → c ≠ r →
  (rank ds !!! c < rank ds !!! r ∧ rk' = rank ds) ∨
  (rank ds !!! c = rank ds !!! r ∧
   rk' = <[r:=rank ds !!! r + 1]> (rank ds)) →
  let ds' := MkDS (<[c:=r]> (parent ds)) rk' in
  ds_wf n ds' ∧ rank_ok ds' ∧ size_ok ds'.
Proof.
  intros (Hlen & Hrklen & Hall) Hrk Hsz Hc Hr Hne Hcase ds'.
  pose proof (lookup_lt_Some _ _ _ Hc) as Hclt.
  pose proof (lookup_lt_Some _ _ _ Hr) as Hrlt.
  assert (∀ y, y ≠ r → rk' !!! y = rank ds !!! y) as Hrk'ne.
  { intros y Hy. destruct Hcase as [[_ ->]|[_ ->]]; [done|].
    by rewrite list_lookup_total_insert_ne. }
  assert (rank ds !!! r ≤ rk' !!! r ∧ rank ds !!! c < rk' !!! r ∧
          (2 ^ (rk' !!! r) ≤ 2 ^ (rank ds !!! r) + 2 ^ (rank ds !!! c)))
    as (Hr1 & Hr2 & Hr3).
  { destruct Hcase as [[? ->]|[Heq ->]]; [lia|].
    rewrite list_lookup_total_insert_eq by lia.
    rewrite Heq, Nat.add_1_r, Nat.pow_succ_r'. lia. }
  split; [|split].
  - split; [simpl; by rewrite length_insert|]. split.
    + simpl. destruct Hcase as [[_ ->]|[_ ->]]; [done|].
      by rewrite length_insert.
    + intros x [rx Hx]%Hall. eexists. apply rooted_link; eauto.
  - intros y q. unfold ds'. simpl. intros Hy Hyq.
    destruct (decide (y = c)) as [->|Hyc].
    + rewrite list_lookup_insert_eq in Hy by done. injection Hy as <-.
      rewrite (Hrk'ne c) by done. done.
    + rewrite list_lookup_insert_ne in Hy by done.
      assert (y ≠ r) by congruence.
      rewrite (Hrk'ne y) by done. pose proof (Hrk y q Hy Hyq).
      destruct (decide (q = r)) as [->|Hqr]; [lia|].
      by rewrite (Hrk'ne q).
  - intros r0. unfold ds'. simpl. intros Hr0.
    destruct (decide (r0 = c)) as [->|Hr0c].
    { rewrite list_lookup_insert_eq in Hr0 by done. congruence. }
    rewrite list_lookup_insert_ne in Hr0 by done.
    destruct (decide (r0 = r)) as [->|Hr0r].
    + destruct (Hsz r Hr) as (lr & Hndr & Hlr & Hpr).
      destruct (Hsz c Hc) as (lc & Hndc & Hlc & Hpc).
      exists (lr ++ lc). split; [|split].
      * apply NoDup_app. split; [done|]. split; [|done].
        intros x Hxr Hxc. apply Hne. symmetry.
        eapply rooted_fun; [by apply Hlr|by apply Hlc].
      * intros x [Hx|Hx]%elem_of_app; apply rooted_link; try done.
        -- exists r. split; [by apply Hlr|]. by rewrite decide_False.
        -- exists c. split; [by apply Hlc|]. by rewrite decide_True.
      * rewrite length_app. lia.
    + destruct (Hsz r0 Hr0) as (l0 & Hnd & Hl0 & Hp0).
      exists l0. split; [done|]. split.
      * intros x Hx. apply rooted_link; try done.
        exists r0. split; [by apply Hl0|]. by rewrite decide_False.
      * by rewrite (Hrk'ne r0).
Qed.

Lemma union_inv n ds a b ds' res :
  ds_wf n ds → rank_ok ds → size_ok ds →
  union ds a b = Ok (ds', res) →
  ds_wf n ds' ∧ rank_ok ds' ∧ size_ok ds'.
Proof.
  intros Hwf Hrk Hsz. unfold union.
  destruct (find (find_fuel ds) ds a) as [[ds1 ra]|] eqn:H1; [|done]. simpl.
  destruct (find_inv n ds a ds1 ra Hwf Hrk Hsz H1)
    as (Hwf1 & Hrk1 & Hsz1 & Hra & _ & Heq1).
  destruct (find (find_fuel ds1) ds1 b) as [[ds2 rb]|] eqn:H2; [|done]. simpl.
  destruct (find_inv n ds1 b ds2 rb Hwf1 Hrk1 Hsz1 H2)
    as (Hwf2 & Hrk2 & Hsz2 & Hrb & _ & Heq2).
  case_decide as Hne; [by intros [= <- <-]|].
  assert (parent ds2 !! ra = Some ra) as Hra2.
  { apply root_iff, Heq2, Heq1, root_iff. by eapply rooted_root. }
  assert (parent ds2 !! rb = Some rb) as Hrb2.
  { apply root_iff, Heq2, root_iff. by eapply rooted_root. }
  destruct (rank ds2 !! ra) as [ka|] eqn:Hka; [|done].
  destruct (rank ds2 !! rb) as [kb|] eqn:Hkb; [|done].
  apply list_lookup_total_correct in Hka, Hkb.
  repeat case_decide; intros [= <- <-].
  - apply (link_inv n ds2 ra rb (rank ds2) Hwf2 Hrk2 Hsz2 Hra2 Hrb2 Hne).
    left. split; [lia|done].
  - apply (link_inv n ds2 rb ra (rank ds2) Hwf2 Hrk2 Hsz2 Hrb2 Hra2
             (not_eq_sym Hne)).
    left. split; [lia|done].
  - apply (link_inv n ds2 rb ra (<[ra:=ka + 1]> (rank ds2)) Hwf2 Hrk2 Hsz2
             Hrb2 Hra2 (not_eq_sym Hne)).
    right. split; [lia|]. by rewrite Hka.
Qed.

Lemma new_inv n :
  ds_wf n (new_DisjointSet n) ∧ rank_ok (new_DisjointSet n) ∧
  size_ok (new_DisjointSet n).
Proof.
  split; [apply ds_wf_new|]. split.
  - intros x q [-> _]%lookup_seq. done.
  - intros r Hr. exists [r]. split; [apply NoDup_singleton|]. split.
    + intros x ->%list_elem_of_singleton. by constructor.
    + simpl in *. apply lookup_lt_Some in Hr. rewrite length_seq in Hr.
      rewrite lookup_total_replicate_2 by done. simpl. lia.
Qed.

Lemma reachable_inv n ds :
  reachable n ds → ds_wf n ds ∧ rank_ok ds ∧ size_ok ds.
Proof.
  induction 1 as [|ds x ds' r _ (Hwf & Hrk & Hsz) Hf
                   |ds a b ds' res _ (Hwf & Hrk & Hsz) Hu].
  - apply new_inv.
  - destruct (find_inv n ds x ds' r Hwf Hrk Hsz Hf) as (? & ? & ? & _).
    done.
  - by eapply union_inv.
Qed.

(** X4.  In every state a [DisjointSet(n)] can reach through calls of
    [find] and [union], the parent pointers form a forest, ranks strictly
    increase from a vertex to its parent, and no path to a root is long: a
    path of [k] vertices needs [2 ^ (k - 1) <= n], so [find] recurses at
    most [log2 n + 1] deep, and [2 ^ rank[x] <= n] for every vertex. *)
Theorem union_by_rank_depth n ds :
  reachable n ds →
  ds_wf n ds ∧ rank_ok ds ∧
  (∀ x r l, chain (parent ds) x r l → 2 ^ (length l - 1) ≤ n) ∧
  (∀ x, x < n → 2 ^ (rank ds !!! x) ≤ n).
Proof.
  intros (Hwf & Hrk & Hsz)%reachable_inv.
  assert (∀ x r l, chain (parent ds) x r l →
    rank ds !!! x + length l ≤ S (rank ds !!! r) ∧
    2 ^ (rank ds !!! r) ≤ n) as Hgen.
  { intros x r l Hc. split; [by apply chain_rank|].
    destruct (Hsz r) as (lr & Hnd & Hlr & Hpow).
    { eapply rooted_root. by eapply chain_rooted. }
    etrans; [done|].
    apply (rooted_bound n (parent ds) r lr); [apply Hwf|done..]. }
  split; [done|]. split; [done|]. split.
  - intros x r l Hc. destruct (Hgen x r l Hc) as [Hle Hpow].
    etrans; [|done]. apply Nat.pow_le_mono_r; lia.
  - intros x Hx. destruct Hwf as (_ & _ & Hall).
    destruct (Hall x Hx) as [r [l Hl]%rooted_chain].
    destruct (Hgen x r l Hl) as [Hle Hpow].
    etrans; [|done]. apply Nat.pow_le_mono_r; [lia|].
    assert (0 < length l) by (inversion Hl; simpl; lia). lia.
Qed.

Lemma union_by_rank_depth_witness :
  ds_wf 4 (MkDS [0; 0; 0; 2] [2; 0; 1; 0]) ∧
  rank_ok (MkDS [0; 0; 0; 2] [2; 0; 1; 0]) ∧
  (∀ x r l, chain (parent (MkDS [0; 0; 0; 2] [2; 0; 1; 0])) x r l →
     2 ^ (length l - 1) ≤ 4) ∧
  (∀ x, x < 4 → 2 ^ (rank (MkDS [0; 0; 0; 2] [2; 0; 1; 0]) !!! x) ≤ 4).
Proof.
  apply (union_by_rank_depth 4 (MkDS [0; 0; 0; 2] [2; 0; 1; 0])).
  apply (reach_union 4 (MkDS [0; 0; 2; 2] [1; 0; 1; 0]) 1 3 _ true);
    [|vm_compute; reflexivity].
  apply (reach_union 4 (MkDS [0; 0; 2; 3] [1; 0; 0; 0]) 2 3 _ true);
    [|vm_compute; reflexivity].
  apply (reach_union 4 (new_DisjointSet 4) 0 1 _ true);
    [|vm_compute; reflexivity].
  apply reach_new.
Defined.

End union_by_rank.

(** ** Kruskal on any input *)

Section kruskal_more.
Implicit Types (E L S : list edge) (e : edge) (ds : DisjointSet).

Lemma kruskal_loop_sublist n L : ∀ ds acc tot acc' tot',
  kruskal_loop n ds acc tot L = Ok (acc', tot') →
  ∃ S, S `sublist_of` L ∧ acc' = acc ++ S ∧
    tot' = foldl (λ t e, js_add t (w e)) tot S.
Proof.
  induction L as [|e L IH]; intros ds acc tot acc' tot'; simpl.
  - intros [= <- <-]. exists []. rewrite app_nil_r. simpl.
    split; [constructor|]. done.
  - destruct (union ds (u e) (v e)) as [[ds' merged]|]; simpl; [|done].
    rewrite edge_eta. destruct merged.
    + case_decide.
      * intros [= <- <-]. exists [e]. simpl. split; [|done].
        apply sublist_skip, sublist_nil_l.
      * intros (S & HS & -> & ->)%IH. exists (e :: S). simpl.
        split; [by apply sublist_skip|]. by rewrite <-app_assoc.
    + intros (S & HS & -> & ->)%IH. exists S.
      split; [by apply sublist_cons|done].
Qed.

Lemma StronglySorted_sublist {A} (R : A → A → Prop) (l k : list A) :
  l `sublist_of` k → StronglySorted R k → StronglySorted R l.
Proof.
  induction 1 as [|x l k Hlk IH|x l k Hlk IH]; intros Hk; [done|..].
  - apply StronglySorted_inv in Hk as [Hk Hx]. constructor; [by apply IH|].
    rewrite Forall_forall in *. intros y Hy. apply Hx.
    by eapply sublist_subseteq.
  - apply StronglySorted_inv in Hk as [Hk _]. by apply IH.
Qed.

(** X5.  Whatever [kruskalMST] returns on an edge list with vertices in
    [0, n): the edges of [mst] are edges of the input, each at most as
    often as the input has it, they come in the order of the sorted edge
    list, so in non-decreasing order of weight, and [total] is the
    floating-point sum of their weights in that order, which is their
    exact sum when no weight is negative and the sum is at most
    [2 ^ 53]. *)
Theorem kruskal_result_sorted n E r :
  in_range n E → kruskalMST n E = Ok r →
  mst r `sublist_of` sort_by_w E ∧ mst r ⊆+ E ∧
  StronglySorted by_weight (mst r) ∧ total r = js_total (mst r) ∧
  (nonneg E → (weight (mst r) ≤ 2 ^ 53)%Z → total r = weight (mst r)).
Proof.
  intros _. unfold kruskalMST, kruskal_sorted.
  destruct (kruskal_loop _ _ _ _ _) as [[acc tot]|] eqn:Hloop; simpl; [|done].
  case_decide; [|done]. intros [= <-]. simpl.
  apply kruskal_loop_sublist in Hloop as (S & HS & -> & ->). simpl.
  assert (S ⊆+ E) as Hsub.
  { rewrite <-(sort_by_w_perm E). by apply sublist_submseteq. }
  split; [done|]. split; [done|]. split; [|split; [done|]].
  - eapply StronglySorted_sublist; [done|]. apply sort_by_w_sorted.
  - intros Hnn Hle. apply js_total_exact; [|done].
    apply (nonneg_subseteq E); [done|]. intros e He. by eapply elem_of_submseteq.
Qed.

Lemma kruskal_result_sorted_witness :
  mst (MkResult example_mst 6) `sublist_of` sort_by_w example_edges ∧
  mst (MkResult example_mst 6) ⊆+ example_edges ∧
  StronglySorted by_weight (mst (MkResult example_mst 6)) ∧
  total (MkResult example_mst 6) = js_total (mst (MkResult example_mst 6)) ∧
  (nonneg example_edges →
   (weight (mst (MkResult example_mst 6)) ≤ 2 ^ 53)%Z →
   total (MkResult example_mst 6) = weight (mst (MkResult example_mst 6))).
Proof.
  apply (kruskal_result_sorted 4 example_edges (MkResult example_mst 6)).
  - apply (bool_decide_unpack _). vm_compute. exact I.
  - vm_compute. reflexivity.
Defined.

Lemma same_graph_in_graph E E' e :
  same_graph E E' → in_graph E e ↔ in_graph E' e.
Proof.
  intros [H1 H2]. rewrite Forall_forall in H1, H2. split.
  - intros [He|He]; [by apply H1|].
    apply in_graph_flip. by apply H1.
  - intros [He|He]; [by apply H2|].
    apply in_graph_flip. by apply H2.
Qed.

Lemma same_graph_conn E E' x y : same_graph E E' → conn E x y → conn E' x y.
Proof.
  intros HEE. apply conn_sub. intros e He.
  apply conn_in_graph, (same_graph_in_graph E E'); [done|by left].
Qed.

Lemma same_graph_sym E E' : same_graph E E' → same_graph E' E.
Proof. by intros [??]. Qed.

Lemma same_graph_range n E E' : same_graph E E' → in_range n E → in_range n E'.
Proof.
  intros HEE Hrange e He. apply (in_graph_range n E); [done|].
  apply (same_graph_in_graph E E'); [done|by left].
Qed.

Lemma same_graph_connected n E E' :
  same_graph E E' → connected n E → connected n E'.
Proof. intros HEE Hc x y Hx Hy. eapply same_graph_conn; [done|]. by apply Hc. Qed.

Lemma same_graph_mst n E E' T :
  same_graph E E' → minimum_spanning_tree n E T →
  minimum_spanning_tree n E' T.
Proof.
  intros HEE [(HT & Hac & Hc) Hmin]. split.
  - split; [|done]. intros e He. apply (same_graph_in_graph E E'); auto.
  - intros T' (HT' & Hac' & Hc'). apply Hmin. split; [|done].
    intros e He. apply (same_graph_in_graph E E'); auto.
Qed.

(** X6.  The outcome depends only on the undirected graph, not on how the
    edge list writes it.  For [n < 2 ^ 32] and two edge lists without
    negative weights that have the same edges up to order, direction and
    repetition, [kruskalMST] and [primMST] (from any start vertices)
    either all raise the disconnected-graph error or all return edges of
    one and the same total weight, which is also the [total] of each
    result if it is at most [2 ^ 53]. *)
Theorem total_depends_on_graph_only n E E' :
  0 < n → (Z.of_nat n < 2 ^ 32)%Z → in_range n E → nonneg E →
  same_graph E E' →
  (kruskalMST_call n E = Err NotConnected ∧
   kruskalMST_call n E' = Err NotConnected ∧
   ∀ start, start < n →
     primMST_of_edges_call n E start = Err NotConnected ∧
     primMST_of_edges_call n E' start = Err NotConnected) ∨
  (∃ t, returns_weight (kruskalMST_call n E) t ∧
        returns_weight (kruskalMST_call n E') t ∧
        ∀ start, start < n →
          returns_weight (primMST_of_edges_call n E start) t ∧
          returns_weight (primMST_of_edges_call n E' start) t).
Proof.
  intros Hn Hlim Hrange Hnn HEE.
  rewrite !kruskalMST_call_eq by done.
  assert (∀ E0 start, primMST_of_edges_call n E0 start
            = primMST_of_edges n E0 start) as Hcall.
  { intros. by apply primMST_of_edges_call_eq. }
  pose proof (same_graph_range n E E' HEE Hrange) as Hrange'.
  assert (nonneg E') as Hnn'.
  { apply (nonneg_in_graph E); [done|].
    destruct HEE as [_ H2]. by apply Forall_forall. }
  assert (∀ E0 F, nonneg E0 → minimum_spanning_tree n E0 F →
    returns_weight (Ok (MkResult F (js_total F))) (weight F)) as Hret.
  { intros E0 F Hnn0 [Hst _]. eexists. split; [done|]. simpl.
    split; [done|]. intros Hle. apply js_total_exact; [|done].
    apply (nonneg_in_graph E0); [done|apply Hst]. }
  assert (∀ E0, in_range n E0 → ∀ start, start < n →
    (connected n E0 ∧ ∃ F, primMST_of_edges n E0 start
        = Ok (MkResult F (js_total F)) ∧ minimum_spanning_tree n E0 F) ∨
    (¬ connected n E0 ∧ primMST_of_edges n E0 start = Err NotConnected))
    as Hprim.
  { intros E0 Hr0 start Hstart. unfold primMST_of_edges.
    destruct (buildAdj_spec n E0 Hr0) as (adj & -> & Hadj). simpl.
    destruct (primMST_cases n E0 adj start Hr0 Hadj Hstart)
      as [(? & F & ? & _ & ?)|[? ?]]; [left|by right].
    split; [done|]. by exists F. }
  destruct (kruskalMST_cases n E Hn Hrange)
    as [(Hc & F & HF & _ & _ & Hmin)|[Hnc Herr]].
  - right. exists (weight F).
    pose proof (same_graph_connected n E E' HEE Hc) as Hc'.
    split; [rewrite HF; by apply (Hret E)|]. split.
    + destruct (kruskalMST_cases n E' Hn Hrange')
        as [(_ & F' & -> & _ & _ & Hmin')|[Hnc' _]]; [|done].
      rewrite (minimum_spanning_tree_weight n E' F F');
        [by apply (Hret E')|by apply (same_graph_mst n E E')|done].
    + intros start Hstart. rewrite !Hcall. split.
      * destruct (Hprim E Hrange start Hstart)
          as [(_ & F' & -> & Hmin')|[? _]]; [|done].
        rewrite (minimum_spanning_tree_weight n E F F') by done.
        by apply (Hret E).
      * destruct (Hprim E' Hrange' start Hstart)
          as [(_ & F' & -> & Hmin')|[? _]]; [|done].
        rewrite (minimum_spanning_tree_weight n E' F F');
          [by apply (Hret E')|by apply (same_graph_mst n E E')|done].
  - left. split; [done|].
    assert (¬ connected n E') as Hnc'.
    { intros Hc'. apply Hnc.
      apply (same_graph_connected n E' E); [by apply same_graph_sym|done]. }
    split.
    + by destruct (kruskalMST_cases n E' Hn Hrange') as [[? _]|[_ ?]].
    + intros start Hstart. rewrite !Hcall. split.
      * by destruct (Hprim E Hrange start Hstart) as [[? _]|[_ ?]].
      * by destruct (Hprim E' Hrange' start Hstart) as [[? _]|[_ ?]].
Qed.

#[global] Instance in_graph_dec E e : Decision (in_graph E e).
Proof. unfold in_graph. apply _. Defined.

#[global] Instance same_graph_dec E E' : Decision (same_graph E E').
Proof. unfold same_graph. apply _. Defined.

Lemma total_depends_on_graph_only_witness :
  let E' := [Edge 3 0 10; Edge 3 2 3; Edge 1 0 1; Edge 2 1 2; Edge 1 0 1] in
  (kruskalMST_call 4 example_edges = Err NotConnected ∧
   kruskalMST_call 4 E' = Err NotConnected ∧
   ∀ start, start < 4 →
     primMST_of_edges_call 4 example_edges start = Err NotConnected ∧
     primMST_of_edges_call 4 E' start = Err NotConnected) ∨
  (∃ t, returns_weight (kruskalMST_call 4 example_edges) t ∧
        returns_weight (kruskalMST_call 4 E') t ∧
        ∀ start, start < 4 →
          returns_weight (primMST_of_edges_call 4 example_edges start) t ∧
          returns_weight (primMST_of_edges_call 4 E' start) t).
Proof.
  apply (total_depends_on_graph_only 4 example_edges
           [Edge 3 0 10; Edge 3 2 3; Edge 1 0 1; Edge 2 1 2; Edge 1 0 1]).
  - lia.
  - lia.
  - apply (bool_decide_unpack _). vm_compute. exact I.
  - apply (bool_decide_unpack _). vm_compute. exact I.
  - apply (bool_decide_unpack _). vm_compute. exact I.
Defined.

End kruskal_more.

(** ** [buildAdj] *)

Section buildAdj_more.
Implicit Types (E : list edge) (e : edge) (adj : list (list Adj.entry)).

Lemma adj_push_Ok adj i x row :
  adj !! i = Some row → adj_push adj i x = Ok (<[i:=row ++ [x]]> adj).
Proof. intros H. unfold adj_push. by rewrite H. Qed.

Lemma adj_push_Err adj i x : length adj ≤ i → adj_push adj i x = Err TypeError.
Proof. intros H. unfold adj_push. by rewrite lookup_ge_None_2. Qed.

(** The loop of [buildAdj], in closed form. *)
Lemma buildAdj_loop_rows n E : ∀ adj0,
  in_range n E → length adj0 = n →
  ∃ adj, buildAdj_loop adj0 E = Ok adj ∧ length adj = n ∧
    ∀ x row0, adj0 !! x = Some row0 → adj !! x = Some (row0 ++ row_of E x).
Proof.
  induction E as [|e E IH]; intros adj0 Hrange Hlen.
  - exists adj0. split; [done|]. split; [done|]. intros x row0 Hx.
    unfold row_of. simpl. by rewrite app_nil_r.
  - destruct (Hrange e) as [Hu Hv]; [apply elem_of_cons; by left|].
    destruct (lookup_lt_is_Some_2 adj0 (u e)) as [ru Hru]; [lia|].
    set (adj1 := <[u e:=ru ++ [Adj.Entry (v e) (w e)]]> adj0).
    destruct (lookup_lt_is_Some_2 adj1 (v e)) as [rv Hrv].
    { unfold adj1. rewrite length_insert. lia. }
    set (adj2 := <[v e:=rv ++ [Adj.Entry (u e) (w e)]]> adj1).
    destruct (IH adj2) as (adj & Hloop & Hlen' & Hrows).
    { intros g Hg. apply Hrange, elem_of_cons. by right. }
    { unfold adj2, adj1. by rewrite !length_insert. }
    exists adj. split; [|split; [done|]].
    { simpl. rewrite (adj_push_Ok _ _ _ _ Hru). simpl.
      fold adj1. rewrite (adj_push_Ok _ _ _ _ Hrv). simpl. done. }
    intros x row0 Hx.
    assert (adj2 !! x = Some (row0 ++ entries_at x e)) as Hx2.
    { unfold entries_at, adj2.
      assert (x < length adj0) by by eapply lookup_lt_Some.
      destruct (decide (v e = x)) as [<-|Hvx].
      - rewrite list_lookup_insert_eq
          by (unfold adj1; rewrite length_insert; lia).
        f_equal. unfold adj1 in Hrv.
        destruct (decide (u e = v e)) as [Heq|Hne].
        + rewrite Heq in *. rewrite list_lookup_insert_eq in Hrv by lia.
          injection Hrv as <-. assert (ru = row0) as -> by congruence.
          by rewrite <-app_assoc.
        + rewrite list_lookup_insert_ne in Hrv by done.
          assert (rv = row0) as -> by congruence. done.
      - rewrite list_lookup_insert_ne by done. unfold adj1.
        rewrite app_nil_r.
        destruct (decide (u e = x)) as [<-|Hux].
        + rewrite list_lookup_insert_eq by lia.
          assert (ru = row0) as -> by congruence. done.
        + rewrite list_lookup_insert_ne by done. by rewrite app_nil_r. }
    rewrite (Hrows x _ Hx2). f_equal. rewrite <-app_assoc. done.
Qed.

Lemma buildAdj_loop_Err n E : ∀ adj0,
  ¬ in_range n E → length adj0 = n →
  buildAdj_loop adj0 E = Err TypeError.
Proof.
  induction E as [|e E IH]; intros adj0 Hnr Hlen.
  - exfalso. apply Hnr. intros e He. by apply elem_of_nil in He.
  - simpl. destruct (decide (u e < n)) as [Hu|Hu].
    2: { rewrite adj_push_Err by lia. done. }
    destruct (lookup_lt_is_Some_2 adj0 (u e)) as [ru Hru]; [lia|].
    rewrite (adj_push_Ok _ _ _ _ Hru). simpl.
    destruct (decide (v e < n)) as [Hv|Hv].
    2: { rewrite adj_push_Err by (rewrite length_insert; lia). done. }
    destruct (lookup_lt_is_Some_2
                (<[u e:=ru ++ [Adj.Entry (v e) (w e)]]> adj0) (v e))
      as [rv Hrv]; [rewrite length_insert; lia|].
    rewrite (adj_push_Ok _ _ _ _ Hrv). simpl.
    apply IH; [|by rewrite !length_insert].
    intros Hr. apply Hnr. intros g [->|Hg]%elem_of_cons; [done|by apply Hr].
Qed.

(** X7.  [buildAdj] stops with a [RangeError] for [n] from [2 ^ 32] on.
    For smaller [n] it returns exactly when every edge has both end
    points below [n], and otherwise stops with a [TypeError] (a push on a
    row that does not exist).  When it returns, the result has [n] rows,
    and the row of each vertex lists one entry per end of an edge at that
    vertex, in the order of the edge list. *)
Theorem buildAdj_rows n E :
  ((Z.of_nat n < 2 ^ 32)%Z ∧ in_range n E ∧
   buildAdj_call n E = Ok ((λ x, row_of E x) <$> seq 0 n)) ∨
  ((Z.of_nat n < 2 ^ 32)%Z ∧ ¬ in_range n E ∧
   buildAdj_call n E = Err TypeError) ∨
  ((2 ^ 32 ≤ Z.of_nat n)%Z ∧ buildAdj_call n E = Err RangeError).
Proof.
  unfold buildAdj_call. case_decide as Hlim.
  2: { right. right. unfold array_length in Hlim. split; [lia|done]. }
  destruct (decide (in_range n E)) as [Hrange|Hrange]; [left|right; left].
  - split; [done|]. split; [done|].
    destruct (buildAdj_loop_rows n E (replicate n []) Hrange)
      as (adj & Hloop & Hlen & Hrows); [apply length_replicate|].
    unfold buildAdj. rewrite Hloop. f_equal.
    apply list_eq. intros x. rewrite list_lookup_fmap.
    destruct (decide (x < n)) as [Hx|Hx].
    + rewrite lookup_seq_lt by done. simpl.
      apply (Hrows x []). by apply lookup_replicate_2.
    + rewrite lookup_seq_ge, lookup_ge_None_2 by lia. done.
  - split; [done|]. split; [done|].
    apply (buildAdj_loop_Err n); [done|apply length_replicate].
Qed.

Lemma length_concat_push adj i row x :
  adj !! i = Some row →
  length (concat (<[i:=row ++ [x]]> adj)) = S (length (concat adj)).
Proof.
  revert i. induction adj as [|r adj IH]; intros [|i] Hi; simpl in *; try done.
  - injection Hi as ->. rewrite !length_app. simpl. lia.
  - rewrite !length_app, (IH i Hi). lia.
Qed.

Lemma buildAdj_loop_count E : ∀ adj0 adj,
  buildAdj_loop adj0 E = Ok adj →
  length (concat adj) = length (concat adj0) + 2 * length E.
Proof.
  induction E as [|e E IH]; intros adj0 adj; simpl.
  - intros [= <-]. lia.
  - unfold adj_push at 2. destruct (adj0 !! u e) as [ru|] eqn:Hru; [|done].
    simpl. unfold adj_push.
    destruct (<[u e:=ru ++ [Adj.Entry (v e) (w e)]]> adj0 !! v e)
      as [rv|] eqn:Hrv; [|done].
    simpl. intros ->%IH.
    rewrite (length_concat_push _ _ _ _ Hrv), (length_concat_push _ _ _ _ Hru).
    lia.
Qed.

(** X8.  What [buildAdj] returns has [n] rows and two entries per edge,
    and is symmetric: [t] stands in the row of [x] with weight [c] exactly
    when [x] stands in the row of [t] with weight [c], and exactly when
    the edge list has [(x,t,c)] or [(t,x,c)]. *)
Theorem buildAdj_symmetric n E adj :
  buildAdj n E = Ok adj →
  length adj = n ∧ length (concat adj) = 2 * length E ∧
  ∀ x t c rx, adj !! x = Some rx →
    (Adj.Entry t c ∈ rx ↔ in_graph E (Edge x t c)) ∧
    (Adj.Entry t c ∈ rx ↔ ∃ rt, adj !! t = Some rt ∧ Adj.Entry x c ∈ rt).
Proof.
  intros Hb.
  assert (in_range n E) as Hrange.
  { destruct (decide (in_range n E)) as [|Hnr]; [done|].
    unfold buildAdj in Hb.
    rewrite (buildAdj_loop_Err n) in Hb; [done..|apply length_replicate]. }
  destruct (buildAdj_spec n E Hrange) as (adj' & Hb' & Hlen & Hadj).
  assert (adj' = adj) as -> by congruence.
  split; [done|]. split.
  { unfold buildAdj in Hb. apply buildAdj_loop_count in Hb. rewrite Hb.
    assert (concat (replicate n ([] : list Adj.entry)) = []) as ->; [|done].
    clear. induction n; simpl; done. }
  intros x t c rx Hx. split; [by apply Hadj|].
  rewrite (Hadj x rx Hx). split.
  - intros Hg. assert (in_graph E (Edge t x c)) as Hg'.
    { by apply (in_graph_flip E (Edge x t c)). }
    destruct (in_graph_range n E _ Hrange Hg') as [Ht _]. simpl in Ht.
    destruct (lookup_lt_is_Some_2 adj t) as [rt Hrt]; [lia|].
    exists rt. split; [done|]. by apply (Hadj t rt Hrt).
  - intros (rt & Hrt & Hin). apply (in_graph_flip E (Edge t x c)).
    by apply (Hadj t rt Hrt).
Qed.

Lemma buildAdj_symmetric_witness :
  let adj := [[Adj.Entry 1 1; Adj.Entry 3 10]; [Adj.Entry 0 1; Adj.Entry 2 2];
              [Adj.Entry 1 2; Adj.Entry 3 3]; [Adj.Entry 2 3; Adj.Entry 0 10]] in
  length adj = 4 ∧ length (concat adj) = 2 * length example_edges ∧
  ∀ x t c rx, adj !! x = Some rx →
    (Adj.Entry t c ∈ rx ↔ in_graph example_edges (Edge x t c)) ∧
    (Adj.Entry t c ∈ rx ↔ ∃ rt, adj !! t = Some rt ∧ Adj.Entry x c ∈ rt).
Proof.
  apply (buildAdj_symmetric 4 example_edges).
  vm_compute. reflexivity.
Defined.

End buildAdj_more.

(** ** Prim on any adjacency array *)

Section prim_any.
Implicit Types (e g : edge) (h : MinHeap) (acc : list edge)
  (adj : list (list Adj.entry)) (row : list Adj.entry) (V : gset nat).

#[local] Hint Constructors conn : core.

Lemma push_unvisited_perm V h from row :
  data (push_unvisited V h from row) ≡ₚ
    (item_of from <$> filter (λ a, Adj.to a ∉ V) row) ++ data h.
Proof.
  unfold push_unvisited. revert h.
  induction row as [|a row IH]; intros h; simpl; [done|].
  rewrite filter_cons. case_decide as Hin.
  - rewrite decide_False by tauto. apply IH.
  - rewrite decide_True by done. rewrite IH, push_perm. simpl.
    by rewrite Permutation_middle.
Qed.

Lemma push_row_perm h from row :
  data (push_row h from row) ≡ₚ (item_of from <$> row) ++ data h.
Proof.
  rewrite push_row_unvisited, push_unvisited_perm. do 2 f_equiv.
  clear. induction row as [|a row IH]; [done|].
  rewrite filter_cons_True by set_solver. by rewrite IH.
Qed.

(** The vertices a grown tree has reached. *)
Lemma grown_vertices start acc e :
  grown start acc → e ∈ acc →
  (u e = start ∨ u e ∈ (v <$> acc)) ∧ v e ∈ (v <$> acc).
Proof.
  induction 1 as [|acc g _ IH Hu Hv Hnew]; [by intros ?%elem_of_nil|].
  rewrite fmap_app, elem_of_app. setoid_rewrite elem_of_app.
  intros [He| ->%list_elem_of_singleton].
  - destruct (IH He) as [[?|?] ?]; auto.
  - split; [destruct Hu; auto|]. right. simpl. by apply list_elem_of_singleton.
Qed.

(** A grown tree is a tree: it reaches every vertex once, has no cycle,
    and joins [start] to every vertex it reaches. *)
Lemma grown_tree start acc :
  grown start acc →
  NoDup (v <$> acc) ∧ (start ∉ (v <$> acc)) ∧ acyclic acc ∧
  ∀ x, x ∈ (v <$> acc) → conn acc start x.
Proof.
  induction 1 as [|acc e Hg (Hnd & Hst & Hac & Hc) Hu Hv Hnew].
  - split; [constructor|]. split; [by intros ?%elem_of_nil|].
    split; [apply acyclic_nil|]. by intros x ?%elem_of_nil.
  - assert (acc ⊆ acc ++ [e]) as Hsub.
    { intros g Hg'. apply elem_of_app. by left. }
    rewrite fmap_app. simpl. split; [|split; [|split]].
    + apply NoDup_app. split; [done|]. split; [|apply NoDup_singleton].
      intros x Hx ->%list_elem_of_singleton. done.
    + intros [?| ->%list_elem_of_singleton]%elem_of_app; done.
    + apply acyclic_snoc. split; [|done]. intros Hconn.
      assert (v e = start ∨ v e ∈ (v <$> acc)) as [?|?]; [|done..].
      apply (conn_cut acc (λ x, x = start ∨ x ∈ (v <$> acc)) (u e) (v e));
        [|done..].
      intros g Hg'. destruct (grown_vertices start acc g Hg Hg') as [? ?].
      tauto.
    + intros x [Hx| ->%list_elem_of_singleton]%elem_of_app.
      * eapply conn_mono; [done|]. by apply Hc.
      * apply conn_trans with (u e).
        -- destruct Hu as [->|Hu]; [constructor|].
           eapply conn_mono; [done|]. by apply Hc.
        -- apply conn_edge, elem_of_app. right. by apply list_elem_of_singleton.
Qed.

(** The loop on any adjacency array: it ends within its fuel, and either
    returns a tree grown from [start] out of entries of [adj], or stops
    with a [TypeError] at an entry that names a vertex without a row. *)
Lemma prim_loop_any n adj start : ∀ fuel V h acc,
  V = {[start]} ∪ list_to_set (v <$> acc) →
  grown start acc → Forall (from_adj adj) acc →
  (∀ it, it ∈ data h → u it ∈ V ∧ from_adj adj it) →
  length (data h) + pending_from 0 adj V < fuel →
  (∃ acc', prim_loop fuel n adj V h acc (js_total acc)
             = Ok (acc', js_total acc') ∧
     grown start acc' ∧ Forall (from_adj adj) acc') ∨
  (prim_loop fuel n adj V h acc (js_total acc) = Err TypeError ∧
   dangling adj).
Proof.
  induction fuel as [|fuel IH]; intros V h acc HV Hg Hfrom Hheap Hfuel; [lia|].
  rewrite prim_loop_S. case_decide as Hcond; [|left; by exists acc].
  destruct Hcond as [Hsize _]. unfold size_of in Hsize.
  destruct (pop h) as [[item|] h'] eqn:Hpop.
  2: { apply pop_None in Hpop as [Hnil _]. rewrite Hnil in Hsize.
       simpl in Hsize. lia. }
  apply pop_perm in Hpop as [_ Hperm].
  assert (length (data h) = S (length (data h'))) as Hlen by by rewrite Hperm.
  assert (item ∈ data h) as Hitem.
  { rewrite Hperm. apply elem_of_cons. by left. }
  assert (∀ it, it ∈ data h' → u it ∈ V ∧ from_adj adj it) as Hheap'.
  { intros it Hit. apply Hheap. rewrite Hperm. apply elem_of_cons. by right. }
  destruct (Hheap item Hitem) as [HuV Hifrom].
  case_decide as Hv.
  - apply IH; try done. lia.
  - destruct (adj !! v item) as [row|] eqn:Hrow.
    2: { right. split; [done|]. destruct Hifrom as (r0 & Hr0 & Hin).
         by exists (u item), r0, (v item), (w item). }
    rewrite edge_eta, <-js_total_snoc.
    assert (v item ≠ start ∧ v item ∉ (v <$> acc)) as [Hvs Hvacc].
    { rewrite HV in Hv. split; intros Hx; apply Hv.
      - apply elem_of_union. left. by apply elem_of_singleton.
      - apply elem_of_union. right. by apply elem_of_list_to_set. }
    apply IH.
    + rewrite HV, fmap_app. clear. set_solver.
    + apply grown_snoc; try done.
      rewrite HV in HuV. apply elem_of_union in HuV as [Hs|Hs].
      * left. by apply elem_of_singleton in Hs.
      * right. by apply elem_of_list_to_set in Hs.
    + apply Forall_app. split; [done|]. by apply Forall_singleton.
    + intros it. rewrite push_unvisited_perm.
      intros [Hit|Hit]%elem_of_app.
      * apply list_elem_of_fmap in Hit
          as (a & -> & [_ Ha]%list_elem_of_filter).
        split; [apply elem_of_union; left; by apply elem_of_singleton|].
        exists row. split; [done|]. by destruct a.
      * destruct (Hheap' it Hit) as [? ?]. split; [|done].
        apply elem_of_union. by right.
    + rewrite push_unvisited_perm, length_app, length_fmap.
      pose proof (length_filter (λ a, Adj.to a ∉ {[v item]} ∪ V) row).
      pose proof (pending_from_visit 0 adj V (v item) row Hrow Hv).
      simpl in *. lia.
Qed.

Lemma primMST_any n adj start row :
  adj !! start = Some row →
  (∃ acc', prim_loop (prim_fuel adj) n adj {[start]}
       (push_row new_MinHeap start row) [] 0 = Ok (acc', js_total acc') ∧
     grown start acc' ∧ Forall (from_adj adj) acc') ∨
  (prim_loop (prim_fuel adj) n adj {[start]}
       (push_row new_MinHeap start row) [] 0 = Err TypeError ∧ dangling adj).
Proof.
  intros Hrow.
  apply (prim_loop_any n adj start (prim_fuel adj) {[start]}
           (push_row new_MinHeap start row) []).
  - simpl. clear. set_solver.
  - constructor.
  - constructor.
  - intros it. rewrite push_row_perm. simpl. rewrite app_nil_r.
    intros (a & -> & Ha)%list_elem_of_fmap.
    split; [by apply elem_of_singleton|].
    exists row. split; [done|]. by destruct a.
  - rewrite push_row_perm, length_app, length_fmap. simpl.
    pose proof (pending_from_visit 0 adj ∅ start row Hrow) as Hp.
    rewrite pending_from_empty in Hp. simpl in Hp.
    replace ({[start]} ∪ ∅ : gset nat) with ({[start]} : gset nat) in Hp
      by (clear; set_solver).
    unfold prim_fuel. rewrite Hp by (clear; set_solver). lia.
Qed.

(** X9.  Every call of [primMST] ends, within as many rounds of its loop
    as [adj] has entries, in one of four ways.  For [n] from [2 ^ 32] on
    it stops with a [RangeError] when it creates [visited].  Otherwise it
    returns, or raises the disconnected-graph error, or stops with a
    [TypeError]; and a [TypeError] needs a start vertex without a row or
    an entry of [adj] that names a vertex without a row. *)
Theorem primMST_outcomes n adj start :
  ((Z.of_nat n < 2 ^ 32)%Z ∧
   ((∃ r, primMST_call n adj start = Ok r) ∨
    primMST_call n adj start = Err NotConnected ∨
    (primMST_call n adj start = Err TypeError ∧
     (adj !! start = None ∨ dangling adj)))) ∨
  ((2 ^ 32 ≤ Z.of_nat n)%Z ∧ primMST_call n adj start = Err RangeError).
Proof.
  unfold primMST_call. case_decide as Hlim; [left|right; split; [|done]].
  2: { unfold array_length in Hlim. lia. }
  split; [done|].
  unfold primMST. destruct (adj !! start) as [row|] eqn:Hrow.
  - destruct (primMST_any n adj start row Hrow)
      as [(acc' & -> & _)|[-> Hd]]; simpl.
    + case_decide; [left; by eexists|by right; left].
    + right. right. auto.
  - right. right. auto.
Qed.

(** X10.  Whatever [primMST] returns, on any adjacency array: [n - 1]
    edges, each an entry of [adj] (its [v] and [w] in the row of its
    [u]), listed in the order of discovery from [start] (each leaves
    [start] or the end of an earlier edge and ends in a vertex not reached
    before); so the ends are pairwise distinct, there is no cycle, and
    every end is joined to [start].  [total] is the floating-point sum of
    their weights in that order, which is their exact sum when none is
    negative and the sum is at most [2 ^ 53]. *)
Theorem primMST_grows_a_tree n adj start r :
  primMST n adj start = Ok r →
  Z.of_nat (length (mst r)) = (Z.of_nat n - 1)%Z ∧
  total r = js_total (mst r) ∧
  (nonneg (mst r) → (weight (mst r) ≤ 2 ^ 53)%Z → total r = weight (mst r)) ∧
  Forall (from_adj adj) (mst r) ∧ grown start (mst r) ∧
  NoDup (v <$> mst r) ∧ (start ∉ (v <$> mst r)) ∧ acyclic (mst r) ∧
  ∀ x, x ∈ (v <$> mst r) → conn (mst r) start x.
Proof.
  unfold primMST. destruct (adj !! start) as [row|] eqn:Hrow; [|done].
  destruct (primMST_any n adj start row Hrow)
    as [(acc' & -> & Hg & Hfrom)|[-> _]]; simpl; [|done].
  case_decide; [|done]. intros [= <-]. simpl.
  destruct (grown_tree start acc' Hg) as (? & ? & ? & ?).
  repeat (split; [done|]). split; [apply js_total_exact|done].
Qed.

Lemma primMST_grows_a_tree_witness :
  let r := MkResult [Edge 3 2 3; Edge 2 1 2; Edge 1 0 1] 6 in
  Z.of_nat (length (mst r)) = (Z.of_nat 4 - 1)%Z ∧
  total r = js_total (mst r) ∧
  (nonneg (mst r) → (weight (mst r) ≤ 2 ^ 53)%Z → total r = weight (mst r)) ∧
  Forall (from_adj
    [[Adj.Entry 1 1; Adj.Entry 3 10]; [Adj.Entry 0 1; Adj.Entry 2 2];
     [Adj.Entry 1 2; Adj.Entry 3 3]; [Adj.Entry 2 3; Adj.Entry 0 10]])
    (mst r) ∧
  grown 3 (mst r) ∧
  NoDup (v <$> mst r) ∧ (3 ∉ (v <$> mst r)) ∧ acyclic (mst r) ∧
  ∀ x, x ∈ (v <$> mst r) → conn (mst r) 3 x.
Proof.
  apply (primMST_grows_a_tree 4
    [[Adj.Entry 1 1; Adj.Entry 3 10]; [Adj.Entry 0 1; Adj.Entry 2 2];
     [Adj.Entry 1 2; Adj.Entry 3 3]; [Adj.Entry 2 3; Adj.Entry 0 10]] 3).
  vm_compute. reflexivity.
Defined.

End prim_any.

(** ** The input loop and [main] *)

Section main_more.
Implicit Types (n : Z) (lines pre post : list line) (E : list edge).

Lemma check_line_valid n fs e :
  check_line n fs = Accepted e → valid_edge (Z.to_nat n) e.
Proof.
  unfold check_line.
  destruct fs as [|[a|] [|[b|] [|[c|] [|??]]]]; try done.
  repeat case_decide; try done. intros [= <-].
  unfold valid_edge. simpl. repeat split; lia.
Qed.

Lemma read_edges_app n pre post E :
  Done ∉ pre →
  read_edges n (pre ++ Done :: post) E = Some (E ++ omap (accepted n) pre).
Proof.
  revert E. induction pre as [|l pre IH]; intros E Hpre; simpl.
  - by rewrite app_nil_r.
  - destruct l as [|fs].
    + exfalso. apply Hpre, elem_of_cons. by left.
    + assert (Done ∉ pre) as Hpre'.
      { intros ?. apply Hpre, elem_of_cons. by right. }
      change (omap (accepted n) (Fields fs :: pre)) with
        (match accepted n (Fields fs) with
         | Some e => e :: omap (accepted n) pre
         | None => omap (accepted n) pre
         end).
      unfold accepted at 1.
      destruct (check_line n fs); rewrite IH by done; try done.
      by rewrite <-app_assoc.
Qed.

Lemma read_edges_Some n lines E E' :
  read_edges n lines E = Some E' →
  ∃ pre post, lines = pre ++ Done :: post ∧ Done ∉ pre.
Proof.
  revert E. induction lines as [|l lines IH]; intros E; simpl; [done|].
  destruct l as [|fs].
  - intros _. exists [], lines. split; [done|]. by intros ?%elem_of_nil.
  - intros H.
    assert (∃ E0, read_edges n lines E0 = Some E') as [E0 HE0].
    { destruct (check_line n fs); by eexists. }
    destruct (IH E0 HE0) as (pre & post & -> & Hpre).
    exists (Fields fs :: pre), post. split; [done|].
    intros [?|?]%elem_of_cons; done.
Qed.

Lemma read_edges_valid n lines E :
  read_edges n lines [] = Some E → valid_edges (Z.to_nat n) E.
Proof.
  intros HE.
  destruct (read_edges_Some _ _ _ _ HE) as (pre & post & -> & Hpre).
  rewrite read_edges_app in HE by done. injection HE as <-. simpl.
  apply Forall_forall. intros e [l [Hl He]]%list_elem_of_omap.
  destruct l as [|fs]; [done|]. simpl in He.
  destruct (check_line n fs) eqn:Hc; try done. injection He as ->.
  by eapply check_line_valid.
Qed.

(** X11.  The input loop returns exactly when some line reads "done"; it
    then returns the edges of the accepted lines before the first such
    line, in input order: rejected lines add nothing and later lines are
    not read.  Every edge it returns passed the checks: end points in
    [0, n), no self-loop, weight not negative. *)
Theorem read_edges_accepts_valid n lines :
  (∀ pre post, lines = pre ++ Done :: post → Done ∉ pre →
     read_edges n lines [] = Some (omap (accepted n) pre)) ∧
  (Done ∉ lines → read_edges n lines [] = None) ∧
  (∀ E, read_edges n lines [] = Some E → valid_edges (Z.to_nat n) E).
Proof.
  split; [|split].
  - intros pre post -> Hpre. by rewrite read_edges_app.
  - intros Hnd. destruct (read_edges n lines []) as [E|] eqn:HE; [|done].
    destruct (read_edges_Some _ _ _ _ HE) as (pre & post & -> & _).
    exfalso. apply Hnd, elem_of_app. right. apply elem_of_cons. by left.
  - apply read_edges_valid.
Qed.

Lemma read_edges_None n lines :
  read_edges n lines [] = None → Done ∉ lines.
Proof.
  intros HN Hin.
  apply list_elem_of_split_l in Hin as (pre & post & -> & Hpre).
  by rewrite read_edges_app in HN.
Qed.

(** What the two calls of [main] give on the edges it has accepted. *)
Lemma main_calls (n : nat) E :
  0 < n → valid_edges n E →
  (array_length n ∧ connected n E ∧
   ∃ Fk Fp,
     kruskalMST_call n E = Ok (MkResult Fk (js_total Fk)) ∧
     primMST_of_edges_call n E 0 = Ok (MkResult Fp (js_total Fp)) ∧
     length Fk = n - 1 ∧ length Fp = n - 1 ∧
     minimum_spanning_tree n E Fk ∧ minimum_spanning_tree n E Fp ∧
     nonneg Fk ∧ nonneg Fp) ∨
  (array_length n ∧ ¬ connected n E ∧
   kruskalMST_call n E = Err NotConnected ∧
   primMST_of_edges_call n E 0 = Err NotConnected) ∨
  (¬ array_length n ∧
   kruskalMST_call n E = Err RangeError ∧
   primMST_of_edges_call n E 0 = Err RangeError).
Proof.
  intros Hn Hvalid.
  pose proof (valid_edges_in_range _ _ Hvalid) as Hrange.
  assert (nonneg E) as Hnn.
  { eapply Forall_impl; [exact Hvalid|]. by intros e (_ & _ & _ & ?). }
  destruct (decide (array_length n)) as [Hlim|Hlim].
  2: { right. right. split; [done|].
       unfold kruskalMST_call, primMST_of_edges_call, buildAdj_call.
       by rewrite !decide_False. }
  rewrite kruskalMST_call_eq, primMST_of_edges_call_eq by done.
  unfold primMST_of_edges.
  destruct (buildAdj_spec n E Hrange) as (adj & -> & Hadj). simpl.
  destruct (kruskalMST_cases n E Hn Hrange)
    as [(Hc & Fk & -> & Hlen & Hsub & Hmin)|[Hnc ->]];
  destruct (primMST_cases n E adj 0 Hrange Hadj Hn)
    as [(Hc' & Fp & -> & Hlen' & Hmin')|[Hnc' ->]]; try done.
  - left. split; [done|]. split; [done|]. exists Fk, Fp.
    repeat (split; [done|]). split.
    + by apply (nonneg_subseteq E).
    + apply (nonneg_in_graph E); [done|apply Hmin'].
  - right. left. done.
Qed.

(** X12.  How a run of [main] can end.  It prints a result only for a
    vertex count [0 < n < 2 ^ 32] and a non-empty list of accepted edges
    that connects all [n] vertices, and what it prints is then a minimum
    spanning tree of the entered graph: [n - 1] edges, no lighter spanning
    tree exists, and the total it prints is their weight if that is at
    most [2 ^ 53].  Its [catch] reports the disconnected-graph error,
    exactly when [n < 2 ^ 32] and the accepted edges do not connect all
    vertices, or a [RangeError], exactly when [n] is [2 ^ 32] or more; the
    checks of the input loop keep every other failure of the core
    away. *)
Theorem main_outcomes pn lines choice :
  match main pn lines choice with
  | InvalidVertexCount => pn = None ∨ ∃ n, pn = Some n ∧ (n ≤ 0)%Z
  | Unanswered => Done ∉ lines
  | NoEdges => ∃ n, pn = Some n ∧ read_edges n lines [] = Some []
  | PrintedResult k r =>
      k = choice ∧
      ∃ n E, pn = Some n ∧ (0 < n < 2 ^ 32)%Z ∧
        read_edges n lines [] = Some E ∧
        E ≠ [] ∧ valid_edges (Z.to_nat n) E ∧ connected (Z.to_nat n) E ∧
        length (mst r) = Z.to_nat n - 1 ∧
        minimum_spanning_tree (Z.to_nat n) E (mst r) ∧
        ((weight (mst r) ≤ 2 ^ 53)%Z → total r = weight (mst r))
  | PrintedError e =>
      ∃ n E, pn = Some n ∧ (0 < n)%Z ∧ read_edges n lines [] = Some E ∧
        E ≠ [] ∧
        ((e = NotConnected ∧ (n < 2 ^ 32)%Z ∧ ¬ connected (Z.to_nat n) E) ∨
         (e = RangeError ∧ (2 ^ 32 ≤ n)%Z))
  end.
Proof.
  unfold main. destruct pn as [n|]; [|by left].
  case_decide as Hn; [right; by exists n|].
  destruct (read_edges n lines []) as [E|] eqn:HE;
    [|by apply (read_edges_None n)].
  destruct E as [|e0 E0]; [by exists n|].
  set (E := e0 :: E0) in *.
  assert (valid_edges (Z.to_nat n) E) as Hvalid.
  { by apply (read_edges_valid n lines). }
  assert (0 < Z.to_nat n) as Hn' by lia.
  assert (E ≠ []) as Hne by done.
  unfold array_length in *.
  destruct (main_calls (Z.to_nat n) E Hn' Hvalid)
    as [(Hlim & Hc & Fk & Fp & Hk & Hp & Hlk & Hlp & Hmk & Hmp & Hnk & Hnp)
       |[(Hlim & Hnc & Hk & Hp)|(Hlim & Hk & Hp)]];
    unfold array_length in Hlim; destruct choice; rewrite ?Hk, ?Hp.
  - split; [done|]. exists n, E. simpl.
    repeat (split; [done || lia|]). by apply js_total_exact.
  - split; [done|]. exists n, E. simpl.
    repeat (split; [done || lia|]). by apply js_total_exact.
  - exists n, E. repeat (split; [done || lia|]). left.
    repeat (split; [done || lia|]). done.
  - exists n, E. repeat (split; [done || lia|]). left.
    repeat (split; [done || lia|]). done.
  - exists n, E. repeat (split; [done || lia|]). right. split; [done|lia].
  - exists n, E. repeat (split; [done || lia|]). right. split; [done|lia].
Qed.

(** X13.  With a single vertex no line can be accepted (an edge with both
    end points in [0, 1) is a self-loop), so [main] never calls either
    algorithm for [n = 1]: it reports that no edges were entered, or is
    still waiting for "done". *)
Theorem main_single_vertex lines choice :
  main (Some 1%Z) lines choice = NoEdges ∨
  main (Some 1%Z) lines choice = Unanswered.
Proof.
  assert (∀ l, accepted 1 l = None) as Hacc.
  { intros [|fs]; [done|]. simpl. unfold check_line.
    destruct fs as [|[a|] [|[b|] [|[c|] [|??]]]]; try done.
    repeat case_decide; try done; lia. }
  unfold main. rewrite decide_False by lia.
  destruct (read_edges 1 lines []) as [E|] eqn:HE; [|by right].
  left. destruct (read_edges_Some _ _ _ _ HE) as (pre & post & -> & Hpre).
  rewrite read_edges_app in HE by done. injection HE as <-. simpl.
  assert (omap (accepted 1) pre = []) as ->; [|done].
  clear -Hacc. induction pre as [|l pre IH]; [done|].
  simpl. by rewrite Hacc.
Qed.

End main_more.

Section kruskal_break.

Lemma kruskal_loop_break n L L' : ∀ ds acc tot acc' tot',
  Z.of_nat (length acc) ≠ (Z.of_nat n - 1)%Z →
  kruskal_loop n ds acc tot L = Ok (acc', tot') →
  Z.of_nat (length acc') = (Z.of_nat n - 1)%Z →
  kruskal_loop n ds acc tot (L ++ L') = Ok (acc', tot').
Proof.
  induction L as [|e L IH]; intros ds acc tot acc' tot' Hacc Hloop Hlen.
  - simpl in Hloop. injection Hloop as <- <-. done.
  - simpl in *. destruct (union ds (u e) (v e)) as [[ds1 merged]|err]; [|done].
    simpl in *. destruct merged.
    + case_decide as Hfull; [done|]. by apply IH.
    + by apply IH.
Qed.

(** X14.  The [break] of [kruskalMST]: once [n - 1] edges are selected
    the loop ends and the rest of the sorted list is never looked at, so
    whatever follows in the list, even an edge whose end points are not
    vertices, leaves the result as it is.  (For [n = 1] the count
    [n - 1 = 0] is never reached by a [push], and the loop reads the whole
    list.) *)
Theorem kruskal_stops_at_full_tree n L L' r :
  n ≠ 1 → kruskal_sorted n L = Ok r → kruskal_sorted n (L ++ L') = Ok r.
Proof.
  intros Hn. unfold kruskal_sorted.
  destruct (kruskal_loop n (new_DisjointSet n) [] 0%Z L)
    as [[acc tot]|err] eqn:Hloop; [|done].
  simpl. case_decide as Hlen; [|done]. intros [= <-].
  rewrite (kruskal_loop_break n L L' _ _ _ acc tot); try done.
  - simpl. by rewrite decide_True.
  - simpl. lia.
Qed.

Lemma kruskal_stops_at_full_tree_witness :
  kruskal_sorted 4
    ([Edge 0 1 1; Edge 1 2 2; Edge 2 3 3] ++ [Edge 0 3 10; Edge 7 9 0]) =
  Ok (MkResult [Edge 0 1 1; Edge 1 2 2; Edge 2 3 3] 6).
Proof.
  apply (kruskal_stops_at_full_tree 4); [lia | vm_compute; reflexivity].
Defined.

End kruskal_break.

Section main_choice.

(** X15.  The algorithm chosen at the prompt never changes what kind of
    answer [main] gives: on the same input both choices reject the vertex
    count, or both find no edges, or both report the same error, or both
    print a result.  Two printed results have the same number of edges
    and the same total weight of edges, and the same printed total when
    that weight is at most [2 ^ 53]. *)
Theorem main_choice_same_total pn lines :
  match main pn lines true, main pn lines false with
  | PrintedResult _ r1, PrintedResult _ r2 =>
      length (mst r1) = length (mst r2) ∧
      weight (mst r1) = weight (mst r2) ∧
      ((weight (mst r1) ≤ 2 ^ 53)%Z → total r1 = total r2)
  | PrintedError e1, PrintedError e2 => e1 = e2
  | InvalidVertexCount, InvalidVertexCount => True
  | Unanswered, Unanswered => True
  | NoEdges, NoEdges => True
  | _, _ => False
  end.
Proof.
  unfold main. destruct pn as [n|]; [|done].
  case_decide as Hn; [done|].
  destruct (read_edges n lines []) as [E|] eqn:HE; [|done].
  destruct E as [|e0 E0]; [done|].
  set (E := e0 :: E0) in *.
  pose proof (read_edges_valid _ _ _ HE) as Hvalid.
  assert (0 < Z.to_nat n) as Hn' by lia.
  destruct (main_calls (Z.to_nat n) E Hn' Hvalid)
    as [(Hlim & Hc & Fk & Fp & -> & -> & Hlk & Hlp & Hmk & Hmp & Hnk & Hnp)
       |[(Hlim & Hnc & -> & ->)|(Hlim & -> & ->)]]; try done.
  simpl. pose proof (minimum_spanning_tree_weight _ _ _ _ Hmk Hmp) as Hw.
  split; [lia|]. split; [done|]. intros Hle.
  rewrite !js_total_exact; [by rewrite Hw|done|lia|done|done].
Qed.

End main_choice.
